(** * gps-scribble: the track-to-summary pipeline of [generate.py]

    A shallow embedding of the functions of [generate.py] that turn the
    samples of one GPS activity into mileposts and splits, and of the
    caching geocoder, followed by the properties of the specification
    that were checked against them.

    Python values are modelled as the interpreter has them:
    - a [float] is an IEEE 754 binary64 number, here a [spec_float] with
      the operations of the Standard Library's [SpecFloat] at precision 53
      (round to nearest, ties to even); source literals are read with
      [Prim2SF];
    - an [int] is a [Z];
    - an aware [datetime] is the instant it denotes, in microseconds, and
      a [timedelta] is a number of microseconds;
    - an exception is a value of [PyExc], and a computation that may raise
      lives in the [result] monad;
    - a generator is the list of the values it yields together with the
      way it ends ([ending]). *)

From Stdlib Require Import ZArith List Bool Lia QArith Ascii String Reals Lra.
From Stdlib Require Import Floats.
From stdpp Require Import base strings gmap pretty sorting.

Set Default Proof Using "Type".
Set Warnings "-inexact-float,-register-all".
Local Open Scope Z_scope.

(** ** Exceptions and the error monad *)

Inductive PyExc :=
  | ZeroDivisionError
  | TypeError
  | ValueError
  | OverflowError
  | NameError
  | AttributeError
  | IndexError
  | UnboundLocalError.

Inductive result (A : Type) :=
  | Ok (a : A)
  | Raise (e : PyExc).
Arguments Ok {A} a.
Arguments Raise {A} e.

Definition bind {A B} (r : result A) (k : A -> result B) : result B :=
  match r with
  | Ok a => k a
  | Raise e => Raise e
  end.

Notation "x <- r ;; k" := (bind r (fun x => k))
  (at level 100, r at next level, right associativity).

(** How a generator ends: by returning, by raising, or (in the model
    only) by exhausting the fuel given to its [while] loop. *)
Inductive ending :=
  | Finished
  | Raised (e : PyExc)
  | OutOfFuel.

(** ** binary64 floats *)

Module F64.

Abbreviation float64 := spec_float.

Definition add : float64 -> float64 -> float64 := SF64add.
Definition sub : float64 -> float64 -> float64 := SF64sub.
Definition mul : float64 -> float64 -> float64 := SF64mul.
Definition div : float64 -> float64 -> float64 := SF64div.

Definition nan : float64 := S754_nan.
Definition zero : float64 := S754_zero false.
Definition one : float64 := Eval vm_compute in Prim2SF 1%float.

Definition is_nan (x : float64) : bool :=
  match x with S754_nan => true | _ => false end.

Definition is_zero (x : float64) : bool :=
  match x with S754_zero _ => true | _ => false end.

Definition is_finite (x : float64) : bool :=
  match x with S754_zero _ | S754_finite _ _ _ => true | _ => false end.

(** Python's [==] on two floats. *)
Definition eqb (x y : float64) : bool := SFeqb x y.

(** Python's [<] on two floats. *)
Definition ltb (x y : float64) : bool := SFltb x y.

(** [float(n)] for an [int]: the nearest binary64 number, ties to even. *)
Definition of_Z (n : Z) : float64 := binary_normalize prec emax n 0 false.

(** The mantissa with its sign: a finite float is [signed s m * 2^e]. *)
Definition signed (s : bool) (m : positive) : Z := cond_Zopp s (Zpos m).

(** Python's [x > n] for a float [x] and an int [n]: the comparison is
    exact, the int is not rounded to a float first. *)
Definition gt_int (x : float64) (n : Z) : bool :=
  match x with
  | S754_nan => false
  | S754_infinity s => negb s
  | S754_zero _ => n <? 0
  | S754_finite s m e =>
      if 0 <=? e then n <? signed s m * 2 ^ e
      else n * 2 ^ (- e) <? signed s m
  end.

(** The exact value of a finite float as a rational. *)
Definition to_Q (x : float64) : option Q :=
  match x with
  | S754_zero _ => Some 0%Q
  | S754_finite s m e =>
      Some (if 0 <=? e then inject_Z (signed s m * 2 ^ e)
            else Qmake (signed s m) (Z.to_pos (2 ^ (- e))))
  | _ => None
  end.

End F64.
Import F64.

Declare Scope f64_scope.
Delimit Scope f64_scope with f64.
Infix "+" := F64.add : f64_scope.
Infix "-" := F64.sub : f64_scope.
Infix "*" := F64.mul : f64_scope.
Infix "/" := F64.div : f64_scope.

(** Python's true division on floats raises on a zero divisor, whatever
    the dividend. *)
Definition py_truediv (x y : float64) : result float64 :=
  if F64.is_zero y then Raise ZeroDivisionError else Ok (x / y)%f64.

(** [int -> float] conversion as done by mixed arithmetic; Python raises
    when the int is too large for a float. *)
Definition float_of_int (n : Z) : result float64 :=
  let f := F64.of_Z n in
  if F64.is_finite f then Ok f else Raise OverflowError.

Definition MILES_PER_METER : float64 :=
  Eval vm_compute in Prim2SF 0.000621371%float.

Definition nan : float64 := F64.nan.

(** ** Time

    A [datetime] is a number of microseconds since 0001-01-01T00:00:00,
    within the years 1 to 9999; a [timedelta] is a number of
    microseconds whose days stay within +-999999999. *)

Definition US_PER_SECOND : Z := 1000000.
Definition US_PER_DAY : Z := 86400 * US_PER_SECOND.

Definition DATETIME_MAX : Z := 3652059 * US_PER_DAY - 1.
Definition TIMEDELTA_MIN : Z := - 999999999 * US_PER_DAY.
Definition TIMEDELTA_MAX : Z := 1000000000 * US_PER_DAY - 1.

Definition valid_datetime (t : Z) : Prop := 0 <= t <= DATETIME_MAX.
Definition valid_timedelta (d : Z) : Prop :=
  TIMEDELTA_MIN <= d <= TIMEDELTA_MAX.

Definition check_datetime (t : Z) : result Z :=
  if (0 <=? t) && (t <=? DATETIME_MAX) then Ok t else Raise OverflowError.

Definition check_timedelta (d : Z) : result Z :=
  if (TIMEDELTA_MIN <=? d) && (d <=? TIMEDELTA_MAX) then Ok d
  else Raise OverflowError.

(** [a - b] on two datetimes: the difference of two instants is always
    a timedelta. *)
Definition datetime_sub (a b : Z) : Z := a - b.

(** [t + d] for a datetime and a timedelta. *)
Definition datetime_add (t d : Z) : result Z := check_datetime (t + d).

(** Division rounding to the nearest integer, ties to even, as
    [timedelta] arithmetic with a float does. *)
Definition divide_nearest (a b : Z) : Z :=
  let q := a / b in
  let r := a mod b in
  if (b <? 2 * r) || ((b =? 2 * r) && Z.odd q) then q + 1 else q.

(** [d * f] for a timedelta and a float: the float is taken as the exact
    ratio of two ints ([float.as_integer_ratio], which raises on NaN and
    on the infinities) and the product is rounded to a microsecond. *)
Definition timedelta_mul (d : Z) (f : float64) : result Z :=
  match f with
  | S754_nan => Raise ValueError
  | S754_infinity _ => Raise OverflowError
  | S754_zero _ => Ok 0
  | S754_finite s m e =>
      check_timedelta
        (if 0 <=? e then d * (F64.signed s m * 2 ^ e)
         else divide_nearest (d * F64.signed s m) (2 ^ (- e)))
  end.

(** An int as a (not normalised) float with exponent 0; [SF64div] rounds
    the quotient of two of them once, which is Python's [int / int]. *)
Definition raw_of_Z (n : Z) : float64 :=
  match n with
  | Z0 => S754_zero false
  | Zpos p => S754_finite false p 0
  | Zneg p => S754_finite true p 0
  end.

(** [timedelta.total_seconds()]: the microseconds divided by [10**6]. *)
Definition total_seconds (d : Z) : float64 :=
  (raw_of_Z d / raw_of_Z US_PER_SECOND)%f64.

(** *** Calendar dates and [strptime] with the [ISO] format *)

Definition is_leap (y : Z) : bool :=
  (y mod 4 =? 0) && (negb (y mod 100 =? 0) || (y mod 400 =? 0)).

Definition days_in_month (y m : Z) : Z :=
  if m =? 2 then (if is_leap y then 29 else 28)
  else if (m =? 4) || (m =? 6) || (m =? 9) || (m =? 11) then 30
  else 31.

Definition days_before_year (y : Z) : Z :=
  let y' := y - 1 in y' * 365 + y' / 4 - y' / 100 + y' / 400.

Fixpoint days_before_month_from (y : Z) (months : nat) (m : Z) : Z :=
  match months with
  | O => 0
  | S k => days_in_month y m + days_before_month_from y k (m + 1)
  end.

Definition days_before_month (y m : Z) : Z :=
  days_before_month_from y (Z.to_nat (m - 1)) 1.

(** [datetime(y, m, d, H, M, S)]; [ValueError] on a field out of range. *)
Definition mk_datetime (year month day hour minute second : Z) : result Z :=
  if (1 <=? year) && (year <=? 9999) && (1 <=? month) && (month <=? 12)
     && (1 <=? day) && (day <=? days_in_month year month)
     && (0 <=? hour) && (hour <? 24) && (0 <=? minute) && (minute <? 60)
     && (0 <=? second) && (second <? 60)
  then Ok ((days_before_year year + days_before_month year month + (day - 1))
             * US_PER_DAY
           + ((hour * 60 + minute) * 60 + second) * US_PER_SECOND)
  else Raise ValueError.

Definition digit_of (c : ascii) : option Z :=
  let n := Z.of_N (Ascii.N_of_ascii c) in
  if (48 <=? n) && (n <=? 57) then Some (n - 48) else None.

(** Reads [n] decimal digits off the front of a string. *)
Fixpoint read_digits (n : nat) (acc : Z) (s : string) : option (Z * string) :=
  match n with
  | O => Some (acc, s)
  | S k =>
      match s with
      | String c s' =>
          match digit_of c with
          | Some v => read_digits k (acc * 10 + v) s'
          | None => None
          end
      | EmptyString => None
      end
  end.

Definition expect (c : ascii) (s : string) : option string :=
  match s with
  | String c' s' => if Ascii.eqb c c' then Some s' else None
  | EmptyString => None
  end.

Definition ISO : string := "%Y-%m-%dT%H:%M:%SZ".

(** [datetime.strptime(s, ISO)] on the zero-padded, fixed-width form
    [YYYY-MM-DDTHH:MM:SSZ] that the format writes; any other text is a
    [ValueError] here.  [date_of] only ever applies it to its own literal. *)
Definition strptime_ISO (s : string) : result Z :=
  let fields :=
    '(year, s) ← read_digits 4 0 s; s ← expect "-" s;
    '(month, s) ← read_digits 2 0 s; s ← expect "-" s;
    '(day, s) ← read_digits 2 0 s; s ← expect "T" s;
    '(hour, s) ← read_digits 2 0 s; s ← expect ":" s;
    '(minute, s) ← read_digits 2 0 s; s ← expect ":" s;
    '(second, s) ← read_digits 2 0 s; s ← expect "Z" s;
    if String.eqb s "" then Some (year, month, day, hour, minute, second)
    else None in
  match fields with
  | Some (year, month, day, hour, minute, second) =>
      mk_datetime year month day hour minute second
  | None => Raise ValueError
  end.

(** ** The data model *)

Record Trackpoint := {
  time : Z;
  altitude_meters : float64;
  distance_meters : float64;
  latitude_degrees : float64;
  longitude_degrees : float64;
}.

(** [end] and [mph] are taken in Rocq and in this file: the fields are
    [end_] and [mph_]. *)
Record Split := {
  start : Z;
  end_ : Z;
  duration : Z;
  meters : float64;
  mph_ : float64;
}.

(** ** [mph] *)

Definition sixty : float64 := Eval vm_compute in Prim2SF 60%float.

(** [meters * MILES_PER_METER / duration.total_seconds() * 60 * 60], with
    the [ZeroDivisionError] of the division caught. *)
Definition mph (meters : float64) (duration : Z) : result float64 :=
  match
    q <- py_truediv (meters * MILES_PER_METER)%f64 (total_seconds duration);;
    Ok (q * sixty * sixty)%f64
  with
  | Raise ZeroDivisionError => Ok F64.zero
  | r => r
  end.

(** ** The activity document: [xml.etree.ElementTree] elements *)

Module etree.

Inductive Element :=
  mkElement (tag : string) (text : option string) (children : list Element).

Definition tag (e : Element) : string :=
  match e with mkElement t _ _ => t end.
Definition text (e : Element) : option string :=
  match e with mkElement _ t _ => t end.
Definition children (e : Element) : list Element :=
  match e with mkElement _ _ c => c end.

(** [e.find(name)] for a plain tag name: the first child with that tag,
    or [None]. *)
Definition find (e : Element) (name : string) : option Element :=
  List.find (fun c => String.eqb (tag c) name) (children e).

(** All elements below [e], in document order. *)
Fixpoint descendants (e : Element) : list Element :=
  match e with
  | mkElement _ _ cs => flat_map (fun c => c :: descendants c) cs
  end.

(** [e.findall('.//' + name)]. *)
Definition findall_descendants (e : Element) (name : string) : list Element :=
  List.filter (fun c => String.eqb (tag c) name) (descendants e).

End etree.
Import etree.

(** ** Parsing Trackpoints *)

Section Parser.

(** Python's [float(s)] on a string is the builtin's business: its
    reading of a text is a parameter, [None] standing for the
    [ValueError] of a malformed text. *)
Variable float_of_string : string -> option float64.

(** [float(element.text)]; the text of an empty element is [None]. *)
Definition float (text : option string) : result float64 :=
  match text with
  | None => Raise TypeError
  | Some s =>
      match float_of_string s with
      | Some f => Ok f
      | None => Raise ValueError
      end
  end.

Definition date_of (parent : Element) (name : string) : result Z :=
  let element := find parent name in
  s <- match element with
       | None => Ok "2019-11-11T01:02:03Z"
       | Some _ => Raise NameError (* [s = e.text], and no [e] is bound *)
       end;;
  strptime_ISO s.

Definition float_of (parent : Element) (name : string) : result float64 :=
  let element := find parent name in
  match element with
  | None => Ok nan
  | Some element => float (text element)
  end.

(** [float(p.find(name).text)] for the optional element [p]: an
    [AttributeError] when [p] or the sub-element is [None]. *)
Definition float_of_child (p : option Element) (name : string)
  : result float64 :=
  match p with
  | None => Raise AttributeError
  | Some p =>
      match find p name with
      | None => Raise AttributeError
      | Some e => float (text e)
      end
  end.

(** The body of the [for] loop of [parse_trackpoints] on one element:
    [Ok None] is [continue], [Ok (Some p)] is [yield p]. *)
Definition parse_trackpoint (t : Element) : result (option Trackpoint) :=
  let p := find t "Position" in
  let a := find t "AltitudeMeters" in
  match a with
  | None => Ok None
  | Some _ =>
      time <- date_of t "Time";;
      altitude_meters <- float_of_child (Some t) "AltitudeMeters";;
      distance_meters <- float_of t "DistanceMeters";;
      latitude_degrees <- float_of_child p "LatitudeDegrees";;
      longitude_degrees <- float_of_child p "LongitudeDegrees";;
      Ok (Some {| time := time;
                  altitude_meters := altitude_meters;
                  distance_meters := distance_meters;
                  latitude_degrees := latitude_degrees;
                  longitude_degrees := longitude_degrees |})
  end.

Fixpoint parse_elements (elements : list Element)
  : list Trackpoint * ending :=
  match elements with
  | [] => ([], Finished)
  | t :: elements =>
      match parse_trackpoint t with
      | Raise e => ([], Raised e)
      | Ok None => parse_elements elements
      | Ok (Some p) =>
          let '(ps, e) := parse_elements elements in (p :: ps, e)
      end
  end.

Definition parse_trackpoints (document : Element)
  : list Trackpoint * ending :=
  let elements := findall_descendants document "Trackpoint" in
  parse_elements elements.

End Parser.

(** [list(generator)]. *)
Definition list_of {A} (g : list A * ending) : result (list A) :=
  match g with
  | (l, Finished) => Ok l
  | (_, Raised e) => Raise e
  | (_, OutOfFuel) => Raise OverflowError
  end.

(** ** Mileposts *)

Definition interpolate (a b fraction : float64) : float64 :=
  (a + (b - a) * fraction)%f64.

(** [previous_time] starts as the int [0] and becomes a datetime. *)
Inductive pytime :=
  | TInt (n : Z)
  | TDatetime (t : Z).

(** The variables of [compute_mileposts] that live across iterations.
    [previous_miles] starts as the int [0], which both subtractions that
    read it convert to [0.0]; [previous_point] starts unbound. *)
Record loop_state := {
  next_mile : Z;
  previous_time : pytime;
  previous_miles : float64;
  previous_point : option Trackpoint;
}.

Definition initial_state : loop_state :=
  {| next_mile := 1;
     previous_time := TInt 0;
     previous_miles := F64.zero;
     previous_point := None |}.

(** [d.time - previous_time]. *)
Definition time_sub (t : Z) (previous_time : pytime) : result Z :=
  match previous_time with
  | TDatetime t0 => Ok (datetime_sub t t0)
  | TInt _ => Raise TypeError
  end.

(** [previous_time + delta * fraction]. *)
Definition time_add (previous_time : pytime) (delta : Z) (fraction : float64)
  : result Z :=
  d <- timedelta_mul delta fraction;;
  match previous_time with
  | TDatetime t0 => datetime_add t0 d
  | TInt _ => Raise TypeError
  end.

Definition read_previous_point (st : loop_state) : result Trackpoint :=
  match previous_point st with
  | Some p => Ok p
  | None => Raise UnboundLocalError
  end.

(** The body of the [while] loop up to its [yield]: the Trackpoint of
    mile [next_mile st] between the previous sample and [point]. *)
Definition milepost (st : loop_state) (point : Trackpoint) (miles : float64)
  : result Trackpoint :=
  let d := point in
  n <- float_of_int (next_mile st);;
  fraction <- py_truediv (n - previous_miles st)%f64
                         (miles - previous_miles st)%f64;;
  delta <- time_sub (time d) (previous_time st);;
  time <- time_add (previous_time st) delta fraction;;
  distance_meters <- py_truediv n MILES_PER_METER;;
  previous_point <- read_previous_point st;;
  Ok {| time := time;
        distance_meters := distance_meters;
        altitude_meters :=
          interpolate (altitude_meters previous_point)
                      (altitude_meters point) fraction;
        latitude_degrees :=
          interpolate (latitude_degrees previous_point)
                      (latitude_degrees point) fraction;
        longitude_degrees :=
          interpolate (longitude_degrees previous_point)
                      (longitude_degrees point) fraction |}.

(** [while miles > next_mile: ...; next_mile += 1] on one sample; returns
    what was yielded, how the loop ended and the value of [next_mile]. *)
Fixpoint while_loop (fuel : nat) (st : loop_state) (point : Trackpoint)
  (miles : float64) : list Trackpoint * ending * Z :=
  if F64.gt_int miles (next_mile st) then
    match fuel with
    | O => ([], OutOfFuel, next_mile st)
    | S fuel =>
        match milepost st point miles with
        | Raise e => ([], Raised e, next_mile st)
        | Ok m =>
            let st' := {| next_mile := next_mile st + 1;
                          previous_time := previous_time st;
                          previous_miles := previous_miles st;
                          previous_point := previous_point st |} in
            let '(ms, e, n) := while_loop fuel st' point miles in
            (m :: ms, e, n)
        end
    end
  else ([], Finished, next_mile st).

Fixpoint for_loop (fuel : nat) (st : loop_state) (datapoints : list Trackpoint)
  : list Trackpoint * ending :=
  match datapoints with
  | [] => ([], Finished)
  | point :: datapoints =>
      let d := point in
      let miles := (distance_meters d * MILES_PER_METER)%f64 in
      match while_loop fuel st point miles with
      | (ms, Finished, n) =>
          let st' := {| next_mile := n;
                        previous_time := TDatetime (time d);
                        previous_miles := miles;
                        previous_point := Some point |} in
          let '(ms', e) := for_loop fuel st' datapoints in
          (ms ++ ms', e)
      | (ms, e, _) => (ms, e)
      end
  end.

(** [fuel] bounds the number of rounds of the [while] loop on each
    sample. *)
Definition compute_mileposts (fuel : nat) (datapoints : list Trackpoint)
  : list Trackpoint * ending :=
  for_loop fuel initial_state datapoints.

(** ** Splits *)

Definition make_split (previous milepost : Trackpoint) : result Split :=
  let meters := (distance_meters milepost - distance_meters previous)%f64 in
  let duration := datetime_sub (time milepost) (time previous) in
  speed <- mph meters duration;;
  Ok {| start := time previous;
        end_ := time milepost;
        duration := duration;
        meters := meters;
        mph_ := speed |}.

Fixpoint splits_from (previous : Trackpoint) (boundaries : list Trackpoint)
  : result (list Split) :=
  match boundaries with
  | [] => Ok []
  | milepost :: boundaries =>
      s <- make_split previous milepost;;
      ss <- splits_from milepost boundaries;;
      Ok (s :: ss)
  end.

(** [trackpoints[0]] and [trackpoints[-1]] raise on an empty list. *)
Definition compute_splits (trackpoints mileposts : list Trackpoint)
  : result (list Split) :=
  match head trackpoints, last trackpoints with
  | Some previous, Some final =>
      splits_from previous (mileposts ++ [final])
  | _, _ => Raise IndexError
  end.

(** ** The caching geocoder *)

Definition digit_char (d : Z) : ascii :=
  Ascii.ascii_of_N (Z.to_N (48 + d mod 10)).

(** The six decimals of ['%.6f']. *)
Definition six_digits (n : Z) : string :=
  String (digit_char (n / 100000))
    (String (digit_char (n / 10000))
      (String (digit_char (n / 1000))
        (String (digit_char (n / 100))
          (String (digit_char (n / 10))
            (String (digit_char n) EmptyString))))).

(** ['%.6f' % x]: the exact value of [x] rounded to a multiple of
    [10**-6], ties to even. *)
Definition format_6f (x : float64) : string :=
  match x with
  | S754_nan => "nan"
  | S754_infinity s => if s then "-inf" else "inf"
  | S754_zero s => if s then "-0.000000" else "0.000000"
  | S754_finite s m e =>
      let n := if 0 <=? e then Zpos m * 2 ^ e * 1000000
               else divide_nearest (Zpos m * 1000000) (2 ^ (- e)) in
      (if s then "-" else "")
        +:+ pretty (Z.to_N (n / 1000000)) +:+ "." +:+ six_digits (n mod 1000000)
  end.

(** ['%.6f %.6f' % (lat, lon)]. *)
Definition format_key (lat lon : float64) : string :=
  format_6f lat +:+ " " +:+ format_6f lon.

Section Geocoder.

(** What a lookup returns, and the underlying [reverse_geocoder.search];
    [None] is Python's [None]. *)
Variable R : Type.
Variable reverse_geocoder_search : float64 -> float64 -> option R.

(** [data] is the dict of the instance; [searched] records the calls
    made to the underlying geocoder, oldest first. *)
Record CachingGeocoder := {
  data : gmap string (option R);
  searched : list (float64 * float64);
}.

(** [dict.get(key)]. *)
Definition dict_get (d : gmap string (option R)) (key : string) : option R :=
  match d !! key with
  | Some v => v
  | None => None
  end.

Definition search (self : CachingGeocoder) (lat lon : float64)
  : option R * CachingGeocoder :=
  let key := format_key lat lon in
  let result := dict_get (data self) key in
  match result with
  | Some _ => (result, self)
  | None =>
      let result := reverse_geocoder_search lat lon in
      (result, {| data := <[key := result]> (data self);
                  searched := searched self ++ [(lat, lon)] |})
  end.

End Geocoder.

(** ** [process]

    The page of one activity.  The model starts from the parsed document
    and stops at the arguments that [process] hands to the template: what
    comes before (reading the file, [etree.fromstring]) and after
    (rendering, writing the page) is the libraries' business.  *)

(** An entry of [icons]. *)
Record Icon := {
  lat : float64;
  lon : float64;
  label : string;
}.

Module Summary.
Record t (G : Type) := {
  geocode : G;
  start : Z;
  miles : float64;
  url : string;
}.
Arguments geocode {G}.
Arguments start {G}.
Arguments miles {G}.
Arguments url {G}.
End Summary.

(** The keyword arguments of [template.render]; [icons] and [route] are
    given before [json.dumps]. *)
Module Page.
Record t := {
  duration : Z;
  icons : list Icon;
  route : list (float64 * float64);
  miles : float64;
  mph : float64;
  splits : list Split;
  start : Z;
}.
End Page.

(** [list(generator)] for a generator that may go on for ever: [None]
    when the fuel does not see its end. *)
Definition list_within {A} (g : list A * ending) : option (result (list A)) :=
  match g with
  | (l, Finished) => Some (Ok l)
  | (_, Raised e) => Some (Raise e)
  | (_, OutOfFuel) => None
  end.

(** [geocodes[0]] on what [search] returns: [None] cannot be
    subscripted and an empty list has no first element. *)
Definition first_of {A} (geocodes : option (list A)) : result A :=
  match geocodes with
  | None => Raise TypeError
  | Some [] => Raise IndexError
  | Some (geocode :: _) => Ok geocode
  end.

Section Process.

Variable float_of_string : string -> option float64.

(** A geocode, and [reverse_geocoder.search], which returns a list of
    them. *)
Variable G : Type.
Variable reverse_geocoder_search : float64 -> float64 -> option (list G).

(** A time zone and its lookup, [pytz.timezone(tf.timezone_at(lng=lon0,
    lat=lat0))], which raises where there is none; the text of a label,
    ['{:.0f} mi<br>{:%-I:%M} {}'.format(...)], from the miles and the time
    in the zone. *)
Variable TZ : Type.
Variable timezone_at : float64 -> float64 -> result TZ.
Variable format_label : TZ -> float64 -> Z -> string.

(** [process], with the geocoder as it leaves it; [None] when the
    milepost loop outlasts the [fuel].  [trackpoints[-1]] is read when
    [trackpoints[0]] has been: the list is not empty there. *)
Definition process (fuel : nat) (x : Element)
  (geocoder : CachingGeocoder (list G)) (output_name : string)
  : option (result (Page.t * Summary.t G)) * CachingGeocoder (list G) :=
  match list_of (parse_trackpoints float_of_string x) with
  | Raise e => (Some (Raise e), geocoder)
  | Ok trackpoints =>
  match head trackpoints with
  | None => (Some (Raise IndexError), geocoder)
  | Some first =>
  let lat0 := latitude_degrees first in
  let lon0 := longitude_degrees first in
  let '(geocodes, geocoder) :=
    search (list G) reverse_geocoder_search geocoder lat0 lon0 in
  (match first_of geocodes with
   | Raise e => Some (Raise e)
   | Ok geocode =>
   match timezone_at lat0 lon0 with
   | Raise e => Some (Raise e)
   | Ok tz =>
   (* [p.time = utc.localize(p.time).astimezone(tz)]: the same instants *)
   let route :=
     map (fun p => (latitude_degrees p, longitude_degrees p)) trackpoints in
   match list_within (compute_mileposts fuel trackpoints) with
   | None => None
   | Some (Raise e) => Some (Raise e)
   | Some (Ok mileposts) =>
   let icons :=
     map (fun p =>
            {| lat := latitude_degrees p;
               lon := longitude_degrees p;
               label := format_label tz
                          (distance_meters p * MILES_PER_METER)%f64
                          (time p) |}) mileposts in
   Some (
     splits <- compute_splits trackpoints mileposts;;
     let final := default first (last trackpoints) in
     let meters := distance_meters final in
     let miles := (meters * MILES_PER_METER)%f64 in
     let duration := datetime_sub (time final) (time first) in
     speed <- mph meters duration;;
     Ok ({| Page.duration := duration;
            Page.icons := icons;
            Page.route := route;
            Page.miles := miles;
            Page.mph := speed;
            Page.splits := splits;
            Page.start := time first |},
         {| Summary.geocode := geocode;
            Summary.start := time first;
            Summary.miles := miles;
            Summary.url := output_name |}))
   end end end,
   geocoder)
  end end.

End Process.

(** ** Sample inputs

    A reading of plain decimal numerals ([-12.5], [2000]) for the
    examples: the digits as an int, divided once by the power of ten of
    the decimals, which is how [float] reads them. *)

Fixpoint read_number (digits : Z) (decimals : option Z) (s : string)
  : option (Z * Z) :=
  match s with
  | EmptyString => Some (digits, default 0 decimals)
  | String c s =>
      if Ascii.eqb c "." then
        match decimals with
        | None => read_number digits (Some 0) s
        | Some _ => None
        end
      else
        match digit_of c with
        | Some v => read_number (digits * 10 + v) (Z.succ <$> decimals) s
        | None => None
        end
  end.

Definition decimal_float (s : string) : option float64 :=
  let '(sign, body) :=
    match s with
    | String c s' => if Ascii.eqb c "-" then (true, s') else (false, s)
    | EmptyString => (false, s)
    end in
  if String.eqb body "" || String.eqb body "." then None
  else
    '(digits, decimals) ← read_number 0 None body;
    let x := (raw_of_Z digits / raw_of_Z (10 ^ decimals))%f64 in
    Some (if sign then SFopp x else x).

Definition leaf (tag text : string) : Element := mkElement tag (Some text) [].

Definition position (lat lon : string) : Element :=
  mkElement "Position" None
    [leaf "LatitudeDegrees" lat; leaf "LongitudeDegrees" lon].

(** A complete sample, as the converter writes it. *)
Definition sample_complete : Element :=
  mkElement "Trackpoint" None
    [leaf "Time" "2019-11-14T12:00:00Z";
     position "40.1234565" "-74.5";
     leaf "AltitudeMeters" "12.3";
     leaf "DistanceMeters" "2000"].

(** The same sample without its [Time]. *)
Definition sample_no_time : Element :=
  mkElement "Trackpoint" None
    [position "40.1234565" "-74.5";
     leaf "AltitudeMeters" "12.3";
     leaf "DistanceMeters" "2000"].

(** Without [Time] and without [DistanceMeters]. *)
Definition sample_no_distance : Element :=
  mkElement "Trackpoint" None
    [position "40.1234565" "-74.5"; leaf "AltitudeMeters" "12.3"].

(** Without [AltitudeMeters], and without [Position] either. *)
Definition sample_no_altitude : Element :=
  mkElement "Trackpoint" None [leaf "DistanceMeters" "2000"].

(** With an altitude but no [Position] (and no [Time]). *)
Definition sample_no_position : Element :=
  mkElement "Trackpoint" None
    [leaf "AltitudeMeters" "12.3"; leaf "DistanceMeters" "2000"].

Definition T0 : Z := 63709030923000000.


(** A recorded sample [seconds] after [T0] at [meters] from the start. *)
Definition sample_at (seconds : Z) (meters : float64) : Trackpoint :=
  {| time := T0 + seconds * US_PER_SECOND;
     altitude_meters := Prim2SF 12.3;
     distance_meters := meters;
     latitude_degrees := Prim2SF 40.1234565;
     longitude_degrees := Prim2SF (-74.5) |}.

(** A document whose one sample has a [Time]. *)
Definition sample_document_with_time : Element :=
  mkElement "TrainingCenterDatabase" None
    [mkElement "Track" None [sample_complete]].


(** A sample at the start of a track, 0 m, without a [Time]. *)
Definition sample_start : Element :=
  mkElement "Trackpoint" None
    [position "40.1234565" "-74.5";
     leaf "AltitudeMeters" "12.3";
     leaf "DistanceMeters" "0"].

(** A track of two samples that [process] can handle. *)
Definition sample_track : Element :=
  mkElement "TrainingCenterDatabase" None
    [mkElement "Track" None [sample_start; sample_no_time]].

(** A track of two samples, at the start and at 2000 m ten minutes
    later. *)
Definition short_track : list Trackpoint :=
  [sample_at 0 (Prim2SF 0); sample_at 600 (Prim2SF 2000)].

(** [process] with a geocoder that knows one place, a time zone for
    every place and no text in the labels. *)
Definition sample_process (x : Element) (geocoder : CachingGeocoder (list string))
  : option (result (Page.t * Summary.t string))
    * CachingGeocoder (list string) :=
  process decimal_float string (fun _ _ => Some ["Trenton"])
    unit (fun _ _ => Ok tt) (fun _ _ _ => "") 1 x geocoder "track.html".

(** A track that stands still at 2000 m and then goes back. *)
Definition wandering_track : list Trackpoint :=
  [sample_at 0 (Prim2SF 0); sample_at 600 (Prim2SF 2000);
   sample_at 700 (Prim2SF 2000); sample_at 800 (Prim2SF 1500)].

(** [0.5]. *)
Definition one_half : float64 := Eval vm_compute in Prim2SF 0.5%float.

(** * Vocabulary of the properties *)

Section ParserVocabulary.

Variable float_of_string : string -> option float64.

(** The samples that are kept: those with an altitude. *)
Definition kept (elements : list Element) : list Element :=
  List.filter (fun t => bool_decide (find t "AltitudeMeters" <> None))
    elements.

Definition parsed_as (t : Element) (p : Trackpoint) : Prop :=
  parse_trackpoint float_of_string t = Ok (Some p).

End ParserVocabulary.

Definition thirty_six_hundred : float64 := Eval vm_compute in Prim2SF 3600%float.

(** The Split between two boundaries. *)
Definition split_between (previous milepost : Trackpoint) : Split :=
  let meters := (distance_meters milepost - distance_meters previous)%f64 in
  let duration := datetime_sub (time milepost) (time previous) in
  {| start := time previous;
     end_ := time milepost;
     duration := duration;
     meters := meters;
     mph_ := if duration =? 0 then F64.zero
             else (meters * MILES_PER_METER / total_seconds duration
                   * sixty * sixty)%f64 |}.

(** The Splits from [previous] through the [boundaries], one after the
    other. *)
Fixpoint splits_of (previous : Trackpoint) (boundaries : list Trackpoint)
  : list Split :=
  match boundaries with
  | [] => []
  | milepost :: boundaries =>
      split_between previous milepost :: splits_of milepost boundaries
  end.

(** [boundaries[-1]], or [previous] when there are none. *)
Definition final_of (previous : Trackpoint) (boundaries : list Trackpoint)
  : Trackpoint := default previous (last boundaries).

(** The sum of a list of ints. *)
Definition sum_Z (l : list Z) : Z := foldr Z.add 0 l.

(** The sum of the exact values of a list of floats, when all are
    finite. *)
Fixpoint sum_Q (l : list float64) : option Q :=
  match l with
  | [] => Some 0%Q
  | x :: l =>
      match F64.to_Q x, sum_Q l with
      | Some q, Some q' => Some (q + q')%Q
      | _, _ => None
      end
  end.

(** The subtraction that gives the meters of the Split from [p] to [m]
    loses nothing to rounding. *)
Definition exact_difference (p m : Trackpoint) : Prop :=
  match F64.to_Q (distance_meters p), F64.to_Q (distance_meters m),
        F64.to_Q (distance_meters m - distance_meters p)%f64 with
  | Some qp, Some qm, Some qd => Qeq qd (qm - qp)
  | _, _, _ => False
  end.

Fixpoint exact_differences (previous : Trackpoint)
  (boundaries : list Trackpoint) : Prop :=
  match boundaries with
  | [] => True
  | m :: boundaries =>
      exact_difference previous m /\ exact_differences m boundaries
  end.

(** ** The real numbers behind binary64

    The exact values of floats and the rounding that the operations of
    [SpecFloat] perform on them, as relations on real numbers. *)

Definition bpow (e : Z) : R := powerRZ 2 e.

(** [k] is the magnitude of [x]: [2^(k-1) <= x < 2^k]. *)
Definition mag_is (x : R) (k : Z) : Prop := (bpow (k - 1) <= x < bpow k)%R.

(** [z] is [y] rounded to the nearest int, ties to even. *)
Definition rne_int (y : R) (z : Z) : Prop :=
  (IZR z - /2 <= y <= IZR z + /2)%R /\
  ((y = IZR z - /2)%R \/ (y = IZR z + /2)%R -> Z.even z = true).

(** [x] lies at [m * 2^e] or between it and the next multiple of [2^e],
    as the location says. *)
Definition located (x : R) (m e : Z) (l : location) : Prop :=
  match l with
  | loc_Exact => x = (IZR m * bpow e)%R
  | loc_Inexact Lt => (IZR m * bpow e < x < (IZR m + /2) * bpow e)%R
  | loc_Inexact Eq => x = ((IZR m + /2) * bpow e)%R
  | loc_Inexact Gt => ((IZR m + /2) * bpow e < x < (IZR m + 1) * bpow e)%R
  end.

Definition located_rec (x : R) (mrs : shr_record) (e : Z) : Prop :=
  located x (shr_m mrs) e (loc_of_shr_record mrs).

(** The real number that a finite float stands for ([0] otherwise). *)
Definition val (f : spec_float) : R :=
  match f with
  | S754_finite s m e => (IZR (cond_Zopp s (Zpos m)) * bpow e)%R
  | _ => 0%R
  end.

(** [v] is the positive [x] rounded to the nearest binary64 value, ties
    to even, the exponent range being unbounded above. *)
Definition rounds_pos (x v : R) : Prop :=
  exists k z,
    mag_is x k /\ rne_int (x / bpow (fexp prec emax k)) z /\
    v = (IZR z * bpow (fexp prec emax k))%R.

Definition rounds (x v : R) : Prop :=
  (x = 0 /\ v = 0)%R \/
  (0 < x /\ rounds_pos x v)%R \/
  (x < 0 /\ rounds_pos (- x) (- v))%R.

(** The float [f] is the result of an operation whose exact result is
    [x]. *)
Definition round_to (x : R) (f : spec_float) : Prop :=
  exists v,
    rounds x v /\
    ((Rabs v < bpow emax)%R /\ F64.is_finite f = true /\
       valid_binary f = true /\ val f = v
     \/ (bpow emax <= Rabs v)%R /\ F64.is_finite f = false).

(** What [binary_round_aux] returns for the rounded integer [z] at
    exponent [E]. *)
Definition bra_spec (s : bool) (z E : Z) (f : spec_float) : Prop :=
  (z = 0 /\ f = S754_zero s) \/
  (0 < z /\
   exists m' e',
     (IZR (Zpos m') * bpow e' = IZR z * bpow E)%R /\
     canonical_mantissa prec emax m' e' = true /\
     f = if e' <=? emax - prec then S754_finite s m' e'
         else S754_infinity s).

(** ** Mileposts of a track *)

(** The least int that is not below a finite float, and the greatest int
    that is not above it: [math.ceil] and [math.floor]. *)
Definition ceil (x : float64) : Z :=
  match x with
  | S754_finite s m e =>
      if 0 <=? e then F64.signed s m * 2 ^ e
      else - ((- F64.signed s m) / 2 ^ (- e))
  | _ => 0
  end.

Definition floor (x : float64) : Z :=
  match x with
  | S754_finite s m e =>
      if 0 <=? e then F64.signed s m * 2 ^ e
      else F64.signed s m / 2 ^ (- e)
  | _ => 0
  end.

(** [2^1014] and [2^1015], the latter an upper bound of the difference
    of two mile values, and the smallest positive float. *)
Definition two_1014 : float64 := S754_finite false 4503599627370496 962.
Definition two_1015 : float64 := S754_finite false 4503599627370496 963.
Definition min_float : float64 := S754_finite false 1 (-1074).

(** A mile value: a valid finite float of magnitude at most [2^1014]. *)
Definition mile_value (x : float64) : Prop :=
  F64.is_finite x = true /\ valid_binary x = true /\
  (- bpow 1014 <= val x <= bpow 1014)%R.

(** [miles] in the loop on sample [p]. *)
Definition miles_of (p : Trackpoint) : float64 :=
  (distance_meters p * MILES_PER_METER)%f64.

(** The state of the loop after sample [pp], with [next_mile] at [j]. *)
Definition state_after (j : Z) (pp : Trackpoint) : loop_state :=
  {| next_mile := j;
     previous_time := TDatetime (time pp);
     previous_miles := (distance_meters pp * MILES_PER_METER)%f64;
     previous_point := Some pp |}.

(** A sample whose time is a datetime and whose distance is a finite
    float. *)
Definition valid_sample (p : Trackpoint) : Prop :=
  valid_datetime (time p) /\
  F64.is_finite (distance_meters p) = true /\
  valid_binary (distance_meters p) = true.

(** Consecutive samples with strictly increasing [distance_meters],
    starting after [previous]. *)
Fixpoint ascending (previous : Trackpoint) (points : list Trackpoint) : Prop :=
  match points with
  | [] => True
  | point :: points =>
      F64.ltb (distance_meters previous) (distance_meters point) = true /\
      ascending point points
  end.

(** The distances of the mileposts [ms] are those of miles [j], [j + 1],
    and so on. *)
Definition mileposts_from (j : Z) (ms : list Trackpoint) : Prop :=
  forall i m, ms !! i = Some m ->
    distance_meters m = (F64.of_Z (j + Z.of_nat i) / MILES_PER_METER)%f64.

(** ** Vocabulary of the further properties *)

(** The outcome [r] of synthesizing a milepost of the [track]: that of
    the body of the [while] loop for some mile [j >= 1] between two
    consecutive samples [pp] and [point], the first of which has not
    passed mile [j] and the second of which has. *)
Definition synthesized (track : list Trackpoint) (r : result Trackpoint)
  : Prop :=
  exists pre pp point post j,
    track = pre ++ pp :: point :: post /\ 1 <= j /\
    F64.gt_int (miles_of pp) j = false /\
    F64.gt_int (miles_of point) j = true /\
    milepost (state_after j pp) point (miles_of point) = r.

(** The state [st] with [next_mile] at [j]. *)
Definition at_mile (st : loop_state) (j : Z) : loop_state :=
  {| next_mile := j;
     previous_time := previous_time st;
     previous_miles := previous_miles st;
     previous_point := previous_point st |}.

(** The distance of the sample is a float in its normal form. *)
Definition valid_distance (p : Trackpoint) : Prop :=
  valid_binary (distance_meters p) = true.

(** A Trackpoint that is not later than another. *)
Definition not_later (a b : Trackpoint) : Prop := time a <= time b.

Section GeocoderRuns.

Variable R : Type.
Variable reverse_geocoder_search : float64 -> float64 -> option R.

(** A run of searches on one geocoder, as [main] makes through [process]
    file after file: the results in order and the geocoder as the run
    leaves it. *)
Fixpoint search_all (self : CachingGeocoder R)
  (queries : list (float64 * float64))
  : list (option R) * CachingGeocoder R :=
  match queries with
  | [] => ([], self)
  | (lat, lon) :: queries =>
      let '(result, self) := search R reverse_geocoder_search self lat lon in
      let '(results, self) := search_all self queries in
      (result :: results, self)
  end.

End GeocoderRuns.

Section ParserOutcomes.

Variable float_of_string : string -> option float64.

(** The sample [t] has all that [parse_trackpoints] reads, and [p] is
    what it reads: no [Time], an altitude, a distance that is absent or
    readable, and a [Position] with both coordinates, each text being one
    that [float] accepts. *)
Definition readable_as (t : Element) (p : Trackpoint) : Prop :=
  find t "Time" = None /\
  strptime_ISO "2019-11-11T01:02:03Z" = Ok (time p) /\
  (exists a, find t "AltitudeMeters" = Some a /\
             float float_of_string (text a) = Ok (altitude_meters p)) /\
  float_of float_of_string t "DistanceMeters" = Ok (distance_meters p) /\
  exists position latitude longitude,
    find t "Position" = Some position /\
    find position "LatitudeDegrees" = Some latitude /\
    float float_of_string (text latitude) = Ok (latitude_degrees p) /\
    find position "LongitudeDegrees" = Some longitude /\
    float float_of_string (text longitude) = Ok (longitude_degrees p).

(** A coordinate that cannot be reached: no [Position], or a [Position]
    without one of the two elements (the latitude is read first). *)
Definition no_coordinate (t : Element) : Prop :=
  match find t "Position" with
  | None => True
  | Some position =>
      find position "LatitudeDegrees" = None \/
      find position "LongitudeDegrees" = None
  end.

End ParserOutcomes.

(** The sign of a float, and the number of millionths that ['%.6f']
    prints for a finite one: its magnitude times [10**6], rounded to the
    nearest int, ties to even. *)
Definition sign_bit (x : float64) : bool :=
  match x with
  | S754_zero s | S754_infinity s | S754_finite s _ _ => s
  | S754_nan => false
  end.

Definition millionths (x : float64) : Z :=
  match x with
  | S754_finite s m e =>
      if 0 <=? e then Zpos m * 2 ^ e * 1000000
      else divide_nearest (Zpos m * 1000000) (2 ^ (- e))
  | _ => 0
  end.

(** A string without a space. *)
Fixpoint no_space (s : string) : bool :=
  match s with
  | EmptyString => true
  | String c s => negb (Ascii.eqb c " ") && no_space s
  end.

(** * Properties *)

(** Splits a hypothesis [x <- r ;; k = Ok v] on the outcome of [r]. *)
Ltac bind_inv H :=
  repeat match type of H with
         | bind ?r _ = _ =>
             let E := fresh "E" in
             destruct r eqn:E; cbn [bind] in H; try discriminate H
         end.

(** ** Rounding of binary64 results

    Facts on [binary_round_aux], the rounding that every arithmetic
    operation of [SpecFloat] ends with. *)

Section Rounding.

Lemma digits2_pos_size p : digits2_pos p = Pos.size p.
Proof. induction p; simpl; congruence. Qed.

Lemma digits2_pos_bounds p :
  2 ^ (Zpos (digits2_pos p) - 1) <= Zpos p < 2 ^ Zpos (digits2_pos p).
Proof.
  rewrite digits2_pos_size. split.
  - pose proof (Pos.size_le p) as H.
    apply Pos2Z.pos_le_pos in H. rewrite Pos2Z.inj_pow in H.
    replace (Zpos (Pos.size p)) with (Zpos (Pos.size p) - 1 + 1) in H by lia.
    rewrite Z.pow_add_r, Z.pow_1_r in H by lia. lia.
  - pose proof (Pos.size_gt p) as H.
    apply Pos2Z.pos_lt_pos in H. rewrite Pos2Z.inj_pow in H. exact H.
Qed.

Lemma Zdigits2_bounds m :
  0 < m -> 2 ^ (Zdigits2 m - 1) <= m < 2 ^ Zdigits2 m.
Proof. destruct m; try lia. intros _. apply digits2_pos_bounds. Qed.

Lemma Zdigits2_pos m : 0 < m -> 0 < Zdigits2 m.
Proof. destruct m; simpl; lia. Qed.

(** The number of digits is determined by the binade. *)
Lemma Zdigits2_unique m d :
  2 ^ (d - 1) <= m < 2 ^ d -> 0 < m -> Zdigits2 m = d.
Proof.
  intros [Hl Hu] Hm.
  pose proof (Zdigits2_bounds m Hm) as [Hl' Hu'].
  pose proof (Zdigits2_pos m Hm) as Hd'.
  assert (Hd : 0 < d).
  { destruct (Z.ltb_spec 0 d) as [|Hle]; [assumption|].
    destruct (Z.eq_dec d 0) as [->|]; [simpl in Hu; lia|].
    rewrite Z.pow_neg_r in Hu by lia. lia. }
  destruct (Z.lt_trichotomy (Zdigits2 m) d) as [Hlt | [Heq | Hgt]];
    [exfalso | exact Heq | exfalso].
  - assert (2 ^ Zdigits2 m <= 2 ^ (d - 1)) by (apply Z.pow_le_mono_r; lia).
    lia.
  - assert (2 ^ d <= 2 ^ (Zdigits2 m - 1)) by (apply Z.pow_le_mono_r; lia).
    lia.
Qed.

Lemma Zdigits2_div_pow2 m k :
  0 < m -> 0 <= k < Zdigits2 m -> Zdigits2 (m / 2 ^ k) = Zdigits2 m - k.
Proof.
  intros Hm Hk. pose proof (Zdigits2_bounds m Hm) as [Hl Hu].
  assert (H2k : 0 < 2 ^ k) by (apply Z.pow_pos_nonneg; lia).
  assert (Hl' : 2 ^ (Zdigits2 m - k - 1) <= m / 2 ^ k).
  { apply Z.div_le_lower_bound; [exact H2k|].
    rewrite <- Z.pow_add_r by lia.
    replace (k + (Zdigits2 m - k - 1)) with (Zdigits2 m - 1) by lia. exact Hl. }
  assert (Hu' : m / 2 ^ k < 2 ^ (Zdigits2 m - k)).
  { apply Z.div_lt_upper_bound; [exact H2k|].
    rewrite <- Z.pow_add_r by lia.
    replace (k + (Zdigits2 m - k)) with (Zdigits2 m) by lia. exact Hu. }
  assert (0 < 2 ^ (Zdigits2 m - k - 1)) by (apply Z.pow_pos_nonneg; lia).
  apply Zdigits2_unique; [split; assumption | lia].
Qed.

Lemma Zdigits2_mono a b : 0 < a <= b -> Zdigits2 a <= Zdigits2 b.
Proof.
  intros [Ha Hab].
  pose proof (Zdigits2_bounds a Ha) as [Hl _].
  pose proof (Zdigits2_bounds b ltac:(lia)) as [_ Hu].
  destruct (Z.le_gt_cases (Zdigits2 a) (Zdigits2 b)) as [|Hgt]; [assumption|].
  assert (2 ^ Zdigits2 b <= 2 ^ (Zdigits2 a - 1))
    by (apply Z.pow_le_mono_r; lia).
  lia.
Qed.

Lemma shr_m_shr_record_of_loc m l : shr_m (shr_record_of_loc m l) = m.
Proof. destruct l as [|[]]; reflexivity. Qed.

Lemma shr_1_m mrs : 0 <= shr_m mrs -> shr_m (shr_1 mrs) = shr_m mrs / 2.
Proof.
  destruct mrs as [m r t]. cbn [shr_m]. intros Hm. rewrite <- Z.div2_div.
  destruct m as [|[p|p|]|p]; try reflexivity. lia.
Qed.

Lemma iter_pos_shr_1_m n mrs :
  0 <= shr_m mrs ->
  shr_m (SpecFloat.iter_pos shr_1 n mrs) = shr_m mrs / 2 ^ Zpos n.
Proof.
  revert mrs. induction n as [n IH | n IH |]; intros mrs Hm; cbn [SpecFloat.iter_pos].
  - assert (H1 : 0 <= shr_m (shr_1 mrs)).
    { rewrite shr_1_m by exact Hm. apply Z.div_pos; lia. }
    assert (H2 : 0 <= shr_m (SpecFloat.iter_pos shr_1 n (shr_1 mrs))).
    { rewrite IH by exact H1. apply Z.div_pos; [exact H1|].
      apply Z.pow_pos_nonneg; lia. }
    rewrite IH by exact H2. rewrite IH by exact H1. rewrite shr_1_m by exact Hm.
    rewrite !Z.div_div by (try apply Z.pow_pos_nonneg; lia).
    f_equal. replace (Zpos n~1) with (1 + Zpos n + Zpos n) by lia.
    rewrite !Z.pow_add_r, Z.pow_1_r by lia. lia.
  - assert (H2 : 0 <= shr_m (SpecFloat.iter_pos shr_1 n mrs)).
    { rewrite IH by exact Hm. apply Z.div_pos; [exact Hm|].
      apply Z.pow_pos_nonneg; lia. }
    rewrite IH by exact H2. rewrite IH by exact Hm.
    rewrite !Z.div_div by (try apply Z.pow_pos_nonneg; lia).
    f_equal. replace (Zpos n~0) with (Zpos n + Zpos n) by lia.
    rewrite !Z.pow_add_r by lia. lia.
  - rewrite shr_1_m by exact Hm. reflexivity.
Qed.

(** [shr_fexp] divides the mantissa by the power of two that brings the
    exponent up to [fexp]. *)
Lemma shr_fexp_m m e l :
  0 <= m ->
  let k := Z.max 0 (fexp prec emax (Zdigits2 m + e) - e) in
  shr_m (fst (shr_fexp prec emax m e l)) = m / 2 ^ k /\
  snd (shr_fexp prec emax m e l) = e + k.
Proof.
  intros Hm k. unfold shr_fexp, shr. subst k.
  destruct (fexp prec emax (Zdigits2 m + e) - e) as [|n|n] eqn:Hk; cbn [fst snd].
  - rewrite shr_m_shr_record_of_loc. simpl. rewrite Z.div_1_r. lia.
  - rewrite iter_pos_shr_1_m by (rewrite shr_m_shr_record_of_loc; exact Hm).
    rewrite shr_m_shr_record_of_loc.
    rewrite Z.max_r by lia. split; reflexivity.
  - rewrite shr_m_shr_record_of_loc. rewrite Z.max_l by lia.
    simpl. rewrite Z.div_1_r. lia.
Qed.

Lemma round_nearest_even_bounds m l :
  m <= round_nearest_even m l <= m + 1.
Proof.
  destruct l as [|[]]; simpl; try lia. destruct (Z.even m); lia.
Qed.

(** A positive mantissa stays positive through [shr_fexp] when the value
    is not below the smallest subnormal; the sum of digits and exponent
    is kept. *)
Lemma shr_fexp_pos m e l :
  0 < m -> emin < Zdigits2 m + e ->
  let m' := shr_m (fst (shr_fexp prec emax m e l)) in
  let e' := snd (shr_fexp prec emax m e l) in
  0 < m' /\ Zdigits2 m' + e' = Zdigits2 m + e.
Proof.
  intros Hm He m' e'.
  destruct (shr_fexp_m m e l ltac:(lia)) as [Hm' He'].
  fold m' in Hm'. fold e' in He'.
  set (k := Z.max 0 (fexp prec emax (Zdigits2 m + e) - e)) in *.
  pose proof (Zdigits2_pos m Hm) as Hd.
  assert (Hk : 0 <= k < Zdigits2 m).
  { subst k. unfold fexp, emin, SpecFloat.emin, prec, emax in *. lia. }
  pose proof (Zdigits2_div_pow2 m k Hm Hk) as Hdig.
  rewrite <- Hm' in Hdig. split; [|lia].
  rewrite Hm'. pose proof (Zdigits2_bounds m Hm) as [Hl _].
  apply Z.div_str_pos. split; [apply Z.pow_pos_nonneg; lia|].
  apply Z.le_trans with (2 ^ (Zdigits2 m - 1)); [|exact Hl].
  apply Z.pow_le_mono_r; lia.
Qed.

(** Rounding a positive value that is not below the smallest subnormal
    gives a finite number other than zero, or an infinity. *)
Lemma binary_round_aux_pos s m e l :
  0 < m -> emin < Zdigits2 m + e ->
  (exists m' e', binary_round_aux prec emax s m e l = S754_finite s m' e')
  \/ binary_round_aux prec emax s m e l = S754_infinity s.
Proof.
  intros Hm He. unfold binary_round_aux.
  pose proof (shr_fexp_pos m e l Hm He) as [Hm1 Hd1].
  destruct (shr_fexp prec emax m e l) as [mrs1 e1]. cbn [fst snd] in Hm1, Hd1.
  set (m2 := round_nearest_even (shr_m mrs1) (loc_of_shr_record mrs1)).
  pose proof (round_nearest_even_bounds (shr_m mrs1) (loc_of_shr_record mrs1))
    as Hm2. fold m2 in Hm2.
  assert (Hd2 : emin < Zdigits2 m2 + e1).
  { pose proof (Zdigits2_mono (shr_m mrs1) m2 ltac:(lia)). lia. }
  pose proof (shr_fexp_pos m2 e1 loc_Exact ltac:(lia) Hd2) as [Hm3 _].
  destruct (shr_fexp prec emax m2 e1 loc_Exact) as [mrs3 e3].
  cbn [fst snd] in Hm3.
  destruct (shr_m mrs3) as [|m3|m3]; try lia.
  destruct (e3 <=? emax - prec); eauto.
Qed.

Lemma iter_pos_nat {A} (f : A -> A) n x :
  SpecFloat.iter_pos f n x = Nat.iter (Pos.to_nat n) f x.
Proof.
  revert x. induction n as [n IH | n IH |]; intros x; cbn [SpecFloat.iter_pos].
  - rewrite !IH, Pos2Nat.inj_xI. rewrite <- Nat.iter_add.
    replace (S (2 * Pos.to_nat n)) with (S (Pos.to_nat n + Pos.to_nat n))%nat by lia.
    rewrite Nat.iter_succ_r. reflexivity.
  - rewrite !IH, Pos2Nat.inj_xO. rewrite <- Nat.iter_add.
    f_equal. lia.
  - reflexivity.
Qed.

Lemma shr_1_spec m r s :
  0 <= m ->
  shr_1 {| shr_m := m; shr_r := r; shr_s := s |} =
  {| shr_m := m / 2; shr_r := Z.odd m; shr_s := r || s |}.
Proof.
  intros Hm. rewrite <- Z.div2_div. destruct m as [|[p|p|]|p]; try reflexivity. lia.
Qed.

(** After [n] shifts the round bit is bit [n - 1] of the mantissa and the
    sticky bit tells whether anything non-zero lies below it. *)
Lemma shr_n_spec n m r s :
  0 <= m ->
  Nat.iter (S n) shr_1 {| shr_m := m; shr_r := r; shr_s := s |} =
  {| shr_m := m / 2 ^ Z.of_nat (S n);
     shr_r := Z.testbit m (Z.of_nat n);
     shr_s := (r || s) || negb (m mod 2 ^ Z.of_nat n =? 0) |}.
Proof.
  intros Hm. induction n as [|n IH].
  - cbn [Nat.iter]. rewrite shr_1_spec by exact Hm.
    change (2 ^ Z.of_nat 1) with 2. change (2 ^ Z.of_nat 0) with 1.
    rewrite Z.mod_1_r, Z.bit0_odd. cbn. rewrite orb_false_r. reflexivity.
  - rewrite Nat.iter_succ, IH.
    assert (H2n : 0 < 2 ^ Z.of_nat (S n)) by (apply Z.pow_pos_nonneg; lia).
    rewrite shr_1_spec by (apply Z.div_pos; lia).
    f_equal.
    + rewrite Z.div_div by lia. f_equal.
      rewrite (Nat2Z.inj_succ (S n)), Z.pow_succ_r by lia. lia.
    + rewrite Z.testbit_odd, Z.shiftr_div_pow2 by lia. reflexivity.
    + rewrite (Nat2Z.inj_succ n), Z.pow_succ_r by lia.
      assert (H2 : 0 < 2 ^ Z.of_nat n) by (apply Z.pow_pos_nonneg; lia).
      rewrite (Z.mul_comm 2), Z.rem_mul_r by lia.
      rewrite Z.testbit_odd, Z.shiftr_div_pow2 by lia.
      pose proof (Z.mod_pos_bound m (2 ^ Z.of_nat n) H2) as Hb.
      rewrite (Zodd_mod (m / 2 ^ Z.of_nat n)).
      pose proof (Z.mod_pos_bound (m / 2 ^ Z.of_nat n) 2 ltac:(lia)) as Hb2.
      destruct (Z.eqb_spec (m mod 2 ^ Z.of_nat n) 0) as [E0|E0];
        destruct (Z.eqb_spec ((m / 2 ^ Z.of_nat n) mod 2) 1) as [E1|E1];
        destruct (Z.eqb_spec (m mod 2 ^ Z.of_nat n
                              + 2 ^ Z.of_nat n * ((m / 2 ^ Z.of_nat n) mod 2)) 0)
          as [E2|E2];
        destruct r, s; try reflexivity; exfalso; nia.
Qed.

Lemma valid_finite_inv s m e :
  valid_binary (S754_finite s m e) = true ->
  fexp prec emax (Zpos (digits2_pos m) + e) = e /\ e <= emax - prec.
Proof.
  unfold valid_binary, SpecFloat.valid_binary, bounded, canonical_mantissa.
  intros H. apply andb_prop in H. destruct H as [H1 H2].
  apply Z.eqb_eq in H1. apply Z.leb_le in H2. split; assumption.
Qed.

(** Shifting out [n] zero bits is exact. *)
Lemma shr_exact m n e :
  0 < m -> 0 < n ->
  shr (shr_record_of_loc (m * 2 ^ n) loc_Exact) e n =
    ({| shr_m := m; shr_r := false; shr_s := false |}, e + n).
Proof.
  intros Hm Hn. destruct n as [|n|n]; try lia. cbn [shr shr_record_of_loc].
  rewrite iter_pos_nat.
  destruct (Pos2Nat.is_succ n) as [k Hk]. rewrite Hk.
  assert (HZ : Zpos n = Z.of_nat (S k)) by lia.
  rewrite shr_n_spec by (apply Z.mul_nonneg_nonneg; [lia|apply Z.pow_nonneg; lia]).
  rewrite HZ. f_equal. f_equal.
  - apply Z.div_mul. apply Z.pow_nonzero; lia.
  - apply Z.mul_pow2_bits_low. lia.
  - rewrite Nat2Z.inj_succ, Z.pow_succ_r by lia.
    replace (m * (2 * 2 ^ Z.of_nat k)) with (m * 2 * 2 ^ Z.of_nat k) by lia.
    rewrite Z.mod_mul by (apply Z.pow_nonzero; lia). reflexivity.
Qed.

(** Multiplying by [1.0] is exact. *)
Lemma mul_one_r x : valid_binary x = true -> (x * F64.one)%f64 = x.
Proof.
  destruct x as [s | s | | s m e]; try reflexivity.
  - destruct s; reflexivity.
  - destruct s; reflexivity.
  - intros Hv. apply valid_finite_inv in Hv. destruct Hv as [Hc Hb].
    unfold F64.mul, SF64mul, SFmul, F64.one. rewrite xorb_false_r.
    rewrite Pos2Z.inj_mul. change (Zpos 4503599627370496) with (2 ^ 52).
    unfold binary_round_aux.
    assert (Hd : Zdigits2 (Zpos m * 2 ^ 52) = Zpos (digits2_pos m) + 52).
    { pose proof (digits2_pos_bounds m) as [Hl Hu].
      apply Zdigits2_unique; [|lia].
      replace (Zpos (digits2_pos m) + 52 - 1)
        with (Zpos (digits2_pos m) - 1 + 52) by lia.
      rewrite !Z.pow_add_r by lia. lia. }
    unfold shr_fexp at 1. rewrite Hd.
    replace (Zpos (digits2_pos m) + 52 + (e + -52))
      with (Zpos (digits2_pos m) + e) by lia.
    rewrite Hc. replace (e - (e + -52)) with 52 by lia.
    rewrite shr_exact by lia.
    cbn [shr_m loc_of_shr_record round_nearest_even].
    replace (e + -52 + 52) with e by lia.
    unfold shr_fexp. cbn [Zdigits2]. rewrite Hc, Z.sub_diag.
    cbn [shr shr_record_of_loc shr_m].
    apply Z.leb_le in Hb. rewrite Hb. reflexivity.
Qed.

Lemma SFdiv_core_binary_q m1 e1 m2 e2 :
  0 < m1 -> 0 < m2 ->
  let e' := Z.min (fexp prec emax (Zdigits2 m1 + e1 - (Zdigits2 m2 + e2)))
                  (e1 - e2) in
  SFdiv_core_binary prec emax m1 e1 m2 e2 =
    (m1 * 2 ^ (e1 - e2 - e') / m2, e',
     new_location m2 ((m1 * 2 ^ (e1 - e2 - e')) mod m2)).
Proof.
  intros H1 H2 e'. unfold SFdiv_core_binary. fold e'.
  assert (Hs : 0 <= e1 - e2 - e') by (subst e'; lia).
  replace (match e1 - e2 - e' with
           | 0 => m1
           | Z.pos _ => Z.shiftl m1 (e1 - e2 - e')
           | Z.neg _ => 0
           end) with (m1 * 2 ^ (e1 - e2 - e')).
  2:{ destruct (e1 - e2 - e') eqn:E; [simpl; lia | | lia].
      rewrite Z.shiftl_mul_pow2 by lia. reflexivity. }
  unfold Z.div, Z.modulo.
  destruct (Z.div_eucl (m1 * 2 ^ (e1 - e2 - e')) m2). reflexivity.
Qed.

End Rounding.

(** ** Binary64 arithmetic as rounding of exact results *)

Section Bpow.
Local Open Scope R_scope.

Lemma bpow_pos e : 0 < bpow e.
Proof. apply powerRZ_lt. lra. Qed.

Lemma bpow_add a b : bpow (a + b) = bpow a * bpow b.
Proof. apply powerRZ_add. lra. Qed.

Lemma bpow_0 : bpow 0 = 1.
Proof. reflexivity. Qed.

Lemma bpow_1 : bpow 1 = 2.
Proof. unfold bpow. simpl. lra. Qed.

Lemma bpow_succ e : bpow (e + 1) = 2 * bpow e.
Proof. rewrite bpow_add, bpow_1. lra. Qed.

Lemma bpow_IZR k : (0 <= k)%Z -> bpow k = IZR (2 ^ k).
Proof.
  intros Hk. pattern k. apply natlike_ind; [reflexivity | | exact Hk].
  intros x Hx IH. unfold Z.succ. rewrite bpow_succ, IH, Z.pow_add_r by lia.
  rewrite mult_IZR. change (2 ^ 1)%Z with 2%Z. lra.
Qed.

Lemma bpow_ge_1 k : (0 <= k)%Z -> 1 <= bpow k.
Proof.
  intros Hk. rewrite bpow_IZR by exact Hk. apply IZR_le.
  assert (0 < 2 ^ k)%Z by (apply Z.pow_pos_nonneg; lia). lia.
Qed.

Lemma bpow_le a b : (a <= b)%Z -> bpow a <= bpow b.
Proof.
  intros H. replace b with (a + (b - a))%Z by lia. rewrite bpow_add.
  pose proof (bpow_pos a). pose proof (bpow_ge_1 (b - a) ltac:(lia)). nra.
Qed.

Lemma bpow_lt a b : (a < b)%Z -> bpow a < bpow b.
Proof.
  intros H. apply Rlt_le_trans with (bpow (a + 1)); [|apply bpow_le; lia].
  rewrite bpow_succ. pose proof (bpow_pos a). lra.
Qed.

Lemma bpow_lt_inv a b : bpow a < bpow b -> (a < b)%Z.
Proof.
  intros H. destruct (Z.lt_ge_cases a b) as [|Hge]; [assumption|].
  apply bpow_le in Hge. lra.
Qed.

Lemma bpow_le_inv a b : bpow a <= bpow b -> (a <= b)%Z.
Proof.
  intros H. destruct (Z.le_gt_cases a b) as [|Hgt]; [assumption|].
  apply bpow_lt in Hgt. lra.
Qed.

Lemma bpow_opp e : bpow (- e) = / bpow e.
Proof.
  pose proof (bpow_pos e). apply Rmult_eq_reg_l with (bpow e); [|lra].
  rewrite <- bpow_add, Z.add_opp_diag_r, bpow_0. field. lra.
Qed.

Lemma mag_mono x y k k' : x <= y -> mag_is x k -> mag_is y k' -> (k <= k')%Z.
Proof.
  intros Hxy [Hl _] [_ Hu].
  assert (H : bpow (k - 1) < bpow k') by lra.
  apply bpow_lt_inv in H. lia.
Qed.

Lemma mag_unique x k k' : mag_is x k -> mag_is x k' -> k = k'.
Proof.
  intros H H'. pose proof (mag_mono x x k k' (Rle_refl x) H H').
  pose proof (mag_mono x x k' k (Rle_refl x) H' H). lia.
Qed.

Lemma rne_int_IZR n : rne_int (IZR n) n.
Proof. split; [lra|]. intros [H|H]; lra. Qed.

Lemma rne_int_mono y y' z z' :
  y <= y' -> rne_int y z -> rne_int y' z' -> (z <= z')%Z.
Proof.
  intros Hy [[Hl Hu] He] [[Hl' Hu'] He'].
  destruct (Z.le_gt_cases z z') as [|Hgt]; [assumption|exfalso].
  assert (H1 : (z' + 1 <= z)%Z) by lia. apply IZR_le in H1.
  rewrite plus_IZR in H1.
  assert (Ey : y = IZR z - /2) by lra.
  assert (Ey' : y' = IZR z' + /2) by lra.
  assert (Ez : IZR z = IZR (z' + 1)) by (rewrite plus_IZR; lra).
  apply eq_IZR in Ez. specialize (He (or_introl Ey)).
  specialize (He' (or_intror Ey')). subst z.
  rewrite Z.even_add in He. rewrite He' in He. discriminate.
Qed.

Lemma rne_int_unique y z z' : rne_int y z -> rne_int y z' -> z = z'.
Proof.
  intros H H'. pose proof (rne_int_mono y y z z' (Rle_refl y) H H').
  pose proof (rne_int_mono y y z' z (Rle_refl y) H' H). lia.
Qed.

Lemma rne_int_ge n y z : IZR n <= y -> rne_int y z -> (n <= z)%Z.
Proof. intros H Hz. exact (rne_int_mono _ _ _ _ H (rne_int_IZR n) Hz). Qed.

Lemma rne_int_le n y z : y <= IZR n -> rne_int y z -> (z <= n)%Z.
Proof. intros H Hz. exact (rne_int_mono _ _ _ _ H Hz (rne_int_IZR n)). Qed.

End Bpow.

Lemma located_rec_of_loc x m e l :
  located x m e l -> located_rec x (shr_record_of_loc m l) e.
Proof. destruct l as [|[]]; intros H; exact H. Qed.

Section Located.
Local Open Scope R_scope.

Lemma located_rec_shr_1 x mrs e :
  (0 <= shr_m mrs)%Z -> located_rec x mrs e ->
  located_rec x (shr_1 mrs) (e + 1).
Proof.
  destruct mrs as [m r s]. cbn [shr_m]. intros Hm H.
  rewrite shr_1_spec by exact Hm. unfold located_rec in *. cbn [shr_m] in *.
  pose proof (bpow_pos e) as HB. pose proof (bpow_succ e) as HS.
  assert (Hpar : IZR m = 2 * IZR (m / 2) + (if Z.odd m then 1 else 0)).
  { rewrite (Z.div_mod m 2) at 1 by lia. rewrite plus_IZR, mult_IZR.
    rewrite Zmod_odd. destruct (Z.odd m); simpl; lra. }
  destruct r, s; cbn [loc_of_shr_record located orb] in H;
    rewrite Hpar in H; clear Hpar;
    destruct (Z.odd m); cbn [loc_of_shr_record located orb];
    rewrite HS; first [nra | split; nra].
Qed.

Lemma located_rec_iter x mrs e n :
  (0 <= shr_m mrs)%Z -> located_rec x mrs e ->
  located_rec x (Nat.iter n shr_1 mrs) (e + Z.of_nat n) /\
  (0 <= shr_m (Nat.iter n shr_1 mrs))%Z.
Proof.
  intros Hm H. induction n as [|n [IH IHm]].
  - change (Nat.iter 0 shr_1 mrs) with mrs. rewrite Z.add_0_r.
    split; assumption.
  - rewrite Nat.iter_succ. split.
    + replace (e + Z.of_nat (S n))%Z with (e + Z.of_nat n + 1)%Z by lia.
      apply located_rec_shr_1; assumption.
    + destruct (Nat.iter n shr_1 mrs) as [m r s]. cbn [shr_m] in IHm.
      rewrite shr_1_spec by exact IHm. cbn [shr_m]. apply Z.div_pos; lia.
Qed.

Lemma div_bpow_eq x a e : x = a * bpow e -> x / bpow e = a.
Proof. pose proof (bpow_pos e). intros ->. field. lra. Qed.

Lemma div_bpow_gt x a e : a * bpow e < x -> a < x / bpow e.
Proof.
  pose proof (bpow_pos e). intros Hx. apply Rmult_lt_reg_r with (bpow e); [lra|].
  replace (x / bpow e * bpow e) with x by (field; lra). exact Hx.
Qed.

Lemma div_bpow_lt x a e : x < a * bpow e -> x / bpow e < a.
Proof.
  pose proof (bpow_pos e). intros Hx. apply Rmult_lt_reg_r with (bpow e); [lra|].
  replace (x / bpow e * bpow e) with x by (field; lra). exact Hx.
Qed.

Lemma round_nearest_even_located x m e l :
  located x m e l ->
  rne_int (x / bpow e) (round_nearest_even m l).
Proof.
  intros H. unfold rne_int.
  destruct l as [|[]]; cbn [located round_nearest_even] in *.
  - apply div_bpow_eq in H. rewrite H. split; [lra|]. intros [E|E]; lra.
  - apply div_bpow_eq in H. rewrite H.
    destruct (Z.even m) eqn:Ev.
    + split; [lra|]. intros _. exact Ev.
    + rewrite plus_IZR. split; [lra|]. intros _.
      rewrite Z.even_add, Ev. reflexivity.
  - destruct H as [H1 H2]. apply div_bpow_gt in H1. apply div_bpow_lt in H2.
    split; [lra|]. intros [E|E]; lra.
  - destruct H as [H1 H2]. apply div_bpow_gt in H1. apply div_bpow_lt in H2.
    rewrite plus_IZR. split; [lra|]. intros [E|E]; lra.
Qed.

End Located.

Ltac unfold_fexp :=
  unfold fexp, emin, SpecFloat.emin, prec, emax in *;
  change IntDef.Z.max with Z.max in *;
  change IntDef.Z.sub with Z.sub in *.

Lemma fexp_mono a b : a <= b -> fexp prec emax a <= fexp prec emax b.
Proof. unfold_fexp. lia. Qed.

Section Bra.
Local Open Scope R_scope.

Lemma located_bounds x m e l :
  located x m e l -> IZR m * bpow e <= x < (IZR m + 1) * bpow e.
Proof.
  pose proof (bpow_pos e). destruct l as [|[]]; cbn [located]; intros H0; nra.
Qed.

Lemma IZR_mag m e : (0 < m)%Z ->
  bpow (Zdigits2 m - 1 + e) <= IZR m * bpow e /\
  (IZR m + 1) * bpow e <= bpow (Zdigits2 m + e).
Proof.
  intros Hm. pose proof (Zdigits2_bounds m Hm) as [Hl Hu].
  pose proof (Zdigits2_pos m Hm) as Hd. pose proof (bpow_pos e).
  rewrite !bpow_add, (bpow_IZR (Zdigits2 m - 1)), (bpow_IZR (Zdigits2 m)) by lia.
  apply IZR_le in Hl. assert (Hu' : (m + 1 <= 2 ^ Zdigits2 m)%Z) by lia.
  apply IZR_le in Hu'. rewrite plus_IZR in Hu'.
  split; apply Rmult_le_compat_r; lra.
Qed.

Lemma located_mag x m e l :
  (0 < m)%Z -> located x m e l -> mag_is x (Zdigits2 m + e).
Proof.
  intros Hm H. apply located_bounds in H. destruct (IZR_mag m e Hm) as [Hl Hu].
  unfold mag_is. replace (Zdigits2 m + e - 1)%Z with (Zdigits2 m - 1 + e)%Z by lia.
  lra.
Qed.

Lemma shr_located x m e l n :
  (0 <= m)%Z -> located x m e l -> (0 <= n)%Z ->
  located_rec x (fst (shr (shr_record_of_loc m l) e n)) (e + n) /\
  snd (shr (shr_record_of_loc m l) e n) = (e + n)%Z /\
  (0 <= shr_m (fst (shr (shr_record_of_loc m l) e n)))%Z.
Proof.
  intros Hm H Hn. apply located_rec_of_loc in H.
  assert (Hm' : (0 <= shr_m (shr_record_of_loc m l))%Z)
    by (rewrite shr_m_shr_record_of_loc; exact Hm).
  destruct n as [|p|p]; try lia; cbn [shr fst snd].
  - rewrite Z.add_0_r. repeat split; assumption.
  - rewrite iter_pos_nat.
    destruct (located_rec_iter x _ e (Pos.to_nat p) Hm' H) as [HL HM].
    rewrite positive_nat_Z in HL. repeat split; assumption.
Qed.


Lemma Zdigits2_pow2 j : (0 <= j)%Z -> Zdigits2 (2 ^ j) = (j + 1)%Z.
Proof.
  intros Hj. assert (0 < 2 ^ j)%Z by (apply Z.pow_pos_nonneg; lia).
  apply Zdigits2_unique; [|lia]. replace (j + 1 - 1)%Z with j by lia.
  rewrite Z.pow_add_r by lia. lia.
Qed.

Lemma bra_finish s z E k :
  (0 <= z)%Z -> E = fexp prec emax k ->
  (k <= E -> z <= 1)%Z ->
  (E < k -> 2 ^ (k - 1 - E) <= z <= 2 ^ (k - E))%Z ->
  bra_spec s z E
    (let '(mrs'', e'') := shr_fexp prec emax z E loc_Exact in
     match shr_m mrs'' with
     | Z0 => S754_zero s
     | Zpos m => if (e'' <=? emax - prec)%Z then S754_finite s m e''
                 else S754_infinity s
     | Zneg _ => S754_nan
     end).
Proof.
  intros Hz HE Hsmall Hbig.
  destruct (shr_fexp_m z E loc_Exact Hz) as [Hm2 He2].
  destruct (shr_fexp prec emax z E loc_Exact) as [mrs2 e2].
  cbn [fst snd] in Hm2, He2.
  destruct (Z.eq_dec z 0%Z) as [->|Hz0].
  { left. split; [reflexivity|]. rewrite Hm2. rewrite Z.div_0_l; [reflexivity|].
    apply Z.pow_nonzero; lia. }
  right. split; [lia|].
  assert (Hcase :
    (fexp prec emax (Zdigits2 z + E) = E) \/
    (fexp prec emax (Zdigits2 z + E) = E + 1 /\ z = 2 ^ (k - E) /\ E < k)%Z).
  { destruct (Z.le_gt_cases k E) as [Hk|Hk].
    - left. assert (z = 1%Z) by (specialize (Hsmall Hk); lia). subst z.
      cbn [Zdigits2 digits2_pos]. unfold_fexp. lia.
    - destruct (Hbig Hk) as [Hl Hu].
      destruct (Z.eq_dec z (2 ^ (k - E))%Z) as [Ez|Ez].
      + rewrite Ez, Zdigits2_pow2 by lia.
        destruct (Z.eq_dec (fexp prec emax (k - E + 1 + E)%Z) E) as [|Hne];
          [left; assumption|right].
        split; [|split; [reflexivity|exact Hk]].
        clear - HE Hne. unfold_fexp. lia.
      + left. rewrite (Zdigits2_unique z (k - E));
          [|replace (k - E - 1)%Z with (k - 1 - E)%Z by lia; lia|lia].
        replace (k - E + E)%Z with k by lia. congruence. }
  destruct Hcase as [Hc | (Hc & Ez & Hk)].
  - rewrite Hc, Z.sub_diag in Hm2, He2.
    change (Z.max 0 0) with 0%Z in Hm2, He2.
    rewrite Z.pow_0_r, Z.div_1_r in Hm2.
    rewrite Hm2. destruct z as [|p|p]; try lia.
    exists p, e2. rewrite He2, Z.add_0_r. split; [reflexivity|].
    split; [|reflexivity]. unfold canonical_mantissa.
    apply Z.eqb_eq. exact Hc.
  - rewrite Hc in Hm2, He2. replace (E + 1 - E)%Z with 1%Z in Hm2, He2 by lia.
    change (Z.max 0 1) with 1%Z in Hm2, He2. rewrite Z.pow_1_r in Hm2.
    assert (Hhalf : (z / 2 = 2 ^ (k - E - 1))%Z).
    { rewrite Ez. replace (k - E)%Z with (1 + (k - E - 1))%Z at 1 by lia.
      rewrite Z.pow_add_r by lia. change (2 ^ 1)%Z with 2%Z.
      rewrite Z.mul_comm, Z.div_mul by lia. reflexivity. }
    assert (Hpos : (0 < 2 ^ (k - E - 1))%Z) by (apply Z.pow_pos_nonneg; lia).
    rewrite Hm2, Hhalf.
    destruct (2 ^ (k - E - 1))%Z as [|p|p] eqn:Ep; try lia.
    exists p, e2. rewrite He2.
    split; [|split; [|reflexivity]].
    + rewrite bpow_succ, <- Ep, Ez.
      replace (k - E)%Z with (1 + (k - E - 1))%Z at 2 by lia.
      rewrite Z.pow_add_r by lia. change (2 ^ 1)%Z with 2%Z.
      rewrite mult_IZR. lra.
    + unfold canonical_mantissa. apply Z.eqb_eq.
      change (Zpos (digits2_pos p)) with (Zdigits2 (Zpos p)).
      rewrite <- Ep, Zdigits2_pow2 by lia.
      rewrite Ez, Zdigits2_pow2 in Hc by lia.
      replace (k - E - 1 + 1 + (E + 1))%Z with (k - E + 1 + E)%Z by lia.
      exact Hc.
Qed.


(** [binary_round_aux] rounds the value it is given: to the nearest
    multiple of [2^(fexp k)], ties to even, where [k] is the magnitude of
    the value. *)
Lemma bra_correct s m e l x k :
  (0 <= m)%Z -> 0 < x -> located x m e l -> mag_is x k ->
  (e <= fexp prec emax k)%Z ->
  exists z,
    rne_int (x / bpow (fexp prec emax k)) z /\
    bra_spec s z (fexp prec emax k) (binary_round_aux prec emax s m e l).
Proof.
  intros Hm Hx Hloc Hmag He.
  set (E := fexp prec emax k) in *.
  assert (HE : fexp prec emax (Zdigits2 m + e) = E).
  { destruct (Z.eq_dec m 0%Z) as [->|Hm0].
    - apply located_bounds in Hloc. destruct Hmag as [Hl _].
      assert (Hlt : bpow (k - 1) < bpow e) by lra.
      apply bpow_lt_inv in Hlt. cbn [Zdigits2]. subst E. unfold_fexp. lia.
    - pose proof (located_mag x m e l ltac:(lia) Hloc) as Hmag'.
      rewrite (mag_unique _ _ _ Hmag' Hmag). reflexivity. }
  unfold binary_round_aux. unfold shr_fexp at 1. rewrite HE.
  destruct (shr_located x m e l (E - e) Hm Hloc ltac:(lia)) as (HL & He1 & Hm1).
  destruct (shr (shr_record_of_loc m l) e (E - e)) as [mrs1 e1].
  cbn [fst snd] in HL, He1, Hm1.
  replace (e + (E - e))%Z with E in HL, He1 by lia. subst e1.
  pose proof (round_nearest_even_located _ _ _ _ HL) as Hz.
  set (z := round_nearest_even (shr_m mrs1) (loc_of_shr_record mrs1)) in *.
  exists z. split; [exact Hz|].
  destruct Hmag as [Hlo Hhi].
  assert (Hz0 : (0 <= z)%Z).
  { pose proof (round_nearest_even_bounds (shr_m mrs1) (loc_of_shr_record mrs1)).
    fold z in H. lia. }
  apply bra_finish with (k := k); [exact Hz0 | reflexivity | |].
  - intros Hk. apply (rne_int_le 1 _ _) with (2 := Hz).
    apply Rlt_le, div_bpow_lt. rewrite Rmult_1_l.
    apply Rlt_le_trans with (1 := Hhi). apply bpow_le. exact Hk.
  - intros Hk. split.
    + apply (rne_int_ge _ (x / bpow E)); [|exact Hz].
      rewrite <- bpow_IZR by lia.
      apply Rmult_le_reg_r with (bpow E); [apply bpow_pos|].
      rewrite <- bpow_add. replace (k - 1 - E + E)%Z with (k - 1)%Z by lia.
      replace (x / bpow E * bpow E) with x
        by (field; pose proof (bpow_pos E); lra).
      exact Hlo.
    + apply (rne_int_le _ (x / bpow E)); [|exact Hz].
      rewrite <- bpow_IZR by lia. apply Rlt_le, div_bpow_lt.
      rewrite <- bpow_add. replace (k - E + E)%Z with k by lia. exact Hhi.
Qed.

End Bra.

Section Rounds.
Local Open Scope R_scope.

Lemma rounds_pos_nonneg x v : 0 < x -> rounds_pos x v -> 0 <= v.
Proof.
  intros Hx (k & z & _ & Hz & ->).
  pose proof (bpow_pos (fexp prec emax k)) as HB.
  assert (0 <= z)%Z.
  { apply (rne_int_ge 0 (x / bpow (fexp prec emax k))); [|exact Hz].
    apply Rlt_le, div_bpow_gt. lra. }
  apply IZR_le in H. nra.
Qed.

Lemma rounds_pos_mono x y u v :
  0 < x -> x <= y -> rounds_pos x u -> rounds_pos y v -> u <= v.
Proof.
  intros Hx Hxy (kx & zx & Hkx & Hzx & ->) (ky & zy & Hky & Hzy & ->).
  pose proof (mag_mono _ _ _ _ Hxy Hkx Hky) as Hk.
  set (Ex := fexp prec emax kx) in *. set (Ey := fexp prec emax ky) in *.
  assert (HE : (Ex <= Ey)%Z) by (apply fexp_mono; exact Hk).
  pose proof (bpow_pos Ex) as HBx. pose proof (bpow_pos Ey) as HBy.
  destruct (Z.eq_dec Ex Ey) as [E|NE].
  - rewrite <- E in *.
    assert (zx <= zy)%Z.
    { apply (rne_int_mono (x / bpow Ex) (y / bpow Ex)); try assumption.
      apply Rmult_le_compat_r; [|exact Hxy]. apply Rlt_le, Rinv_0_lt_compat, HBx. }
    apply IZR_le in H. nra.
  - assert (HEy : Ey = (ky - 53)%Z) by (subst Ex Ey; unfold_fexp; lia).
    assert (Hkk : (kx < ky)%Z).
    { destruct (Z.eq_dec kx ky) as [Ek|]; [|lia]. subst Ex Ey. rewrite Ek in NE.
      contradiction. }
    destruct Hkx as [_ Hxu]. destruct Hky as [Hyl _].
    (* v is at least 2^(ky-1) *)
    assert (Hv : bpow (ky - 1) <= IZR zy * bpow Ey).
    { assert (2 ^ 52 <= zy)%Z.
      { apply (rne_int_ge _ (y / bpow Ey)); [|exact Hzy].
        rewrite <- bpow_IZR by lia.
        apply Rmult_le_reg_r with (bpow Ey); [exact HBy|].
        rewrite <- bpow_add. replace (52 + Ey)%Z with (ky - 1)%Z by lia.
        replace (y / bpow Ey * bpow Ey) with y by (field; lra). exact Hyl. }
      apply IZR_le in H. rewrite <- bpow_IZR in H by lia.
      replace (ky - 1)%Z with (52 + Ey)%Z by lia. rewrite bpow_add.
      apply Rmult_le_compat_r; lra. }
    (* u is at most 2^(max kx Ex) *)
    assert (Hu : IZR zx * bpow Ex <= bpow (ky - 1)).
    { destruct (Z.le_gt_cases Ex kx) as [Hle|Hgt].
      - assert (zx <= 2 ^ (kx - Ex))%Z.
        { apply (rne_int_le _ (x / bpow Ex)); [|exact Hzx].
          rewrite <- bpow_IZR by lia. apply Rlt_le, div_bpow_lt.
          rewrite <- bpow_add. replace (kx - Ex + Ex)%Z with kx by lia.
          exact Hxu. }
        apply IZR_le in H. rewrite <- bpow_IZR in H by lia.
        apply Rle_trans with (bpow (kx - Ex) * bpow Ex);
          [apply Rmult_le_compat_r; lra|].
        rewrite <- bpow_add. apply bpow_le. lia.
      - assert (zx <= 1)%Z.
        { apply (rne_int_le 1 (x / bpow Ex)); [|exact Hzx].
          apply Rlt_le, div_bpow_lt. rewrite Rmult_1_l.
          apply Rlt_le_trans with (1 := Hxu). apply bpow_le. lia. }
        apply IZR_le in H.
        apply Rle_trans with (1 * bpow Ex);
          [apply Rmult_le_compat_r; lra|].
        rewrite Rmult_1_l. apply bpow_le. lia. }
    lra.
Qed.

Lemma rounds_mono x y u v : x <= y -> rounds x u -> rounds y v -> u <= v.
Proof.
  intros Hxy [[Hx Hu] | [[Hx Hu] | [Hx Hu]]] [[Hy Hv] | [[Hy Hv] | [Hy Hv]]];
    try lra.
  - pose proof (rounds_pos_nonneg _ _ Hy Hv). lra.
  - apply (rounds_pos_mono x y); assumption.
  - pose proof (rounds_pos_nonneg (- x) (- u) ltac:(lra) Hu). lra.
  - pose proof (rounds_pos_nonneg (- x) (- u) ltac:(lra) Hu).
    pose proof (rounds_pos_nonneg _ _ Hy Hv). lra.
  - assert (- v <= - u)
      by (apply (rounds_pos_mono (- y) (- x)); try assumption; lra).
    lra.
Qed.

Lemma rounds_unique x u v : rounds x u -> rounds x v -> u = v.
Proof.
  intros Hu Hv. pose proof (rounds_mono x x u v (Rle_refl x) Hu Hv).
  pose proof (rounds_mono x x v u (Rle_refl x) Hv Hu). lra.
Qed.

End Rounds.

Section Values.
Local Open Scope R_scope.

Lemma canonical_inv m e :
  canonical_mantissa prec emax m e = true ->
  fexp prec emax (Zpos (digits2_pos m) + e) = e.
Proof. unfold canonical_mantissa. apply Z.eqb_eq. Qed.

Lemma rounds_pos_canonical m e :
  canonical_mantissa prec emax m e = true ->
  rounds_pos (IZR (Zpos m) * bpow e) (IZR (Zpos m) * bpow e).
Proof.
  intros Hc. apply canonical_inv in Hc.
  exists (Zdigits2 (Zpos m) + e)%Z, (Zpos m).
  cbn [Zdigits2]. rewrite Hc. split; [|split; [|reflexivity]].
  - destruct (IZR_mag (Zpos m) e ltac:(lia)) as [Hl Hu]. cbn [Zdigits2] in *.
    unfold mag_is.
    replace (Zpos (digits2_pos m) + e - 1)%Z
      with (Zpos (digits2_pos m) - 1 + e)%Z by lia.
    pose proof (bpow_pos e). nra.
  - rewrite (div_bpow_eq _ (IZR (Zpos m)) e eq_refl). apply rne_int_IZR.
Qed.

Lemma pos_value_pos m e : 0 < IZR (Zpos m) * bpow e.
Proof.
  pose proof (bpow_pos e). assert (0 < IZR (Zpos m)) by (apply IZR_lt; lia). nra.
Qed.

Lemma val_finite s m e :
  val (S754_finite s m e) =
    if s then - (IZR (Zpos m) * bpow e) else IZR (Zpos m) * bpow e.
Proof.
  cbn [val]. destruct s; cbn [cond_Zopp]; [|reflexivity].
  change (Z.opp (Zpos m)) with (- Zpos m)%Z. rewrite opp_IZR. lra.
Qed.

(** A valid float is its own rounding. *)
Lemma rounds_val f : valid_binary f = true -> rounds (val f) (val f).
Proof.
  destruct f as [s | s | | s m e]; intros Hv;
    try (left; split; reflexivity).
  cbn [valid_binary SpecFloat.valid_binary] in Hv.
  apply andb_prop in Hv. destruct Hv as [Hc _].
  pose proof (pos_value_pos m e) as Hpos.
  pose proof (rounds_pos_canonical m e Hc) as Hr.
  rewrite val_finite. destruct s.
  - right. right. split; [lra|]. rewrite Ropp_involutive. exact Hr.
  - right. left. split; [lra|exact Hr].
Qed.

Lemma canonical_bound m e :
  canonical_mantissa prec emax m e = true ->
  IZR (Zpos m) * bpow e < bpow (53 + e) /\
  ((emin < e)%Z -> bpow (52 + e) <= IZR (Zpos m) * bpow e).
Proof.
  intros Hc. apply canonical_inv in Hc.
  pose proof (digits2_pos_bounds m) as [Hl Hu]. pose proof (bpow_pos e).
  split.
  - assert (Hd : (Zpos (digits2_pos m) <= 53)%Z) by (unfold_fexp; lia).
    assert (Hm : (Zpos m < 2 ^ 53)%Z).
    { apply Z.lt_le_trans with (1 := Hu). apply Z.pow_le_mono_r; lia. }
    apply IZR_lt in Hm. rewrite <- bpow_IZR in Hm by lia.
    rewrite bpow_add. apply Rmult_lt_compat_r; lra.
  - intros He.
    assert (Hd : (Zpos (digits2_pos m) = 53)%Z) by (unfold_fexp; lia).
    rewrite Hd in Hl. change (53 - 1)%Z with 52%Z in Hl.
    apply IZR_le in Hl. rewrite <- bpow_IZR in Hl by lia.
    rewrite bpow_add. apply Rmult_le_compat_r; lra.
Qed.

Lemma valid_val_bound f :
  valid_binary f = true -> Rabs (val f) < bpow emax.
Proof.
  destruct f as [s | s | | s m e]; intros Hv; cbn [val];
    try (rewrite Rabs_R0; apply bpow_pos).
  cbn [valid_binary SpecFloat.valid_binary] in Hv.
  apply andb_prop in Hv. destruct Hv as [Hc Hb]. apply Z.leb_le in Hb.
  pose proof (pos_value_pos m e) as Hpos.
  destruct (canonical_bound m e Hc) as [Hu _].
  fold (val (S754_finite s m e)). rewrite val_finite.
  assert (bpow (53 + e) <= bpow emax) by (apply bpow_le; unfold prec, emax in *; lia).
  destruct s; [rewrite Rabs_Ropp|]; rewrite Rabs_pos_eq; lra.
Qed.

(** [binary_round_aux] as a rounding: the sign is given apart. *)
Lemma bra_round_to (s : bool) m e l x k :
  (0 <= m)%Z -> 0 < x -> located x m e l -> mag_is x k ->
  (e <= fexp prec emax k)%Z ->
  round_to (if s then - x else x) (binary_round_aux prec emax s m e l).
Proof.
  intros Hm Hx Hloc Hmag He.
  destruct (bra_correct s m e l x k Hm Hx Hloc Hmag He) as (z & Hz & Hspec).
  set (E := fexp prec emax k) in *.
  set (v := IZR z * bpow E).
  assert (Hr : rounds_pos x v)
    by (exists k, z; split; [exact Hmag | split; [exact Hz | reflexivity]]).
  assert (Hv0 : 0 <= v) by (apply (rounds_pos_nonneg x); assumption).
  exists (if s then - v else v). split.
  { destruct s.
    - right. right. split; [lra|]. rewrite !Ropp_involutive. exact Hr.
    - right. left. split; assumption. }
  assert (Habs : Rabs (if s then - v else v) = v).
  { destruct s; [rewrite Rabs_Ropp|]; apply Rabs_pos_eq; exact Hv0. }
  rewrite Habs.
  destruct Hspec as [[Hz0 ->] | (Hzp & m' & e' & Hval & Hc & ->)].
  - left. subst v. rewrite Hz0, Rmult_0_l. pose proof (bpow_pos emax).
    repeat split; try reflexivity; try lra. destruct s; cbn [val]; lra.
  - fold v in Hval. destruct (canonical_bound m' e' Hc) as [Hu Hl].
    destruct (Z.leb_spec e' (emax - prec)) as [Hb|Hb].
    + left. split; [|split; [reflexivity|split]].
      * rewrite <- Hval. apply Rlt_le_trans with (1 := Hu). apply bpow_le.
        unfold prec, emax in *. lia.
      * cbn [valid_binary SpecFloat.valid_binary]. unfold bounded.
        rewrite Hc. apply Z.leb_le in Hb. rewrite Hb. reflexivity.
      * rewrite val_finite, Hval. reflexivity.
    + right. split; [|reflexivity].
      rewrite <- Hval. apply Rle_trans with (2 := Hl ltac:(unfold_fexp; lia)).
      apply bpow_le. unfold prec, emax in *. lia.
Qed.

End Values.

Lemma pos_iter_xO m d : Zpos (Pos.iter xO m d) = Zpos m * 2 ^ Zpos d.
Proof.
  induction d as [|d IH] using Pos.peano_ind.
  - cbn [Pos.iter]. rewrite Z.pow_1_r. lia.
  - rewrite Pos.iter_succ, Pos2Z.inj_succ, Z.pow_succ_r by lia.
    change (Zpos (Pos.iter xO m d)~0) with (2 * Zpos (Pos.iter xO m d))%Z.
    rewrite IH. lia.
Qed.

Lemma shl_align_spec mx ex ex' :
  snd (shl_align mx ex ex') = Z.min ex ex' /\
  Zpos (fst (shl_align mx ex ex')) =
    Zpos mx * 2 ^ (ex - snd (shl_align mx ex ex')).
Proof.
  unfold shl_align. destruct (ex' - ex) as [|d|d] eqn:E; cbn [fst snd].
  - rewrite Z.sub_diag. split; lia.
  - rewrite Z.sub_diag. split; lia.
  - rewrite pos_iter_xO. replace (ex - ex') with (Zpos d) by lia. split; lia.
Qed.

Section Ops.
Local Open Scope R_scope.

Lemma round_to_zero s : round_to 0 (S754_zero s).
Proof.
  exists 0. split; [left; split; reflexivity|]. left.
  rewrite Rabs_R0. pose proof (bpow_pos emax). repeat split; try reflexivity. lra.
Qed.

(** A valid finite float is the rounding of its own value. *)
Lemma round_to_val f :
  F64.is_finite f = true -> valid_binary f = true -> round_to (val f) f.
Proof.
  intros Hf Hv. exists (val f). split; [apply rounds_val, Hv|]. left.
  repeat split; try assumption. apply valid_val_bound, Hv.
Qed.

Lemma binary_round_to s m e :
  round_to (val (S754_finite s m e)) (binary_round prec emax s m e).
Proof.
  unfold binary_round.
  destruct (shl_align_spec m e (fexp prec emax (Zpos (digits2_pos m) + e)))
    as [Hez Hmz].
  destruct (shl_align m e _) as [mz ez]. cbn [fst snd] in Hez, Hmz.
  rewrite val_finite.
  apply (bra_round_to s (Zpos mz) ez loc_Exact _
           (Zdigits2 (Zpos m) + e)%Z).
  - lia.
  - apply pos_value_pos.
  - cbn [located]. rewrite Hmz, mult_IZR, <- bpow_IZR by lia.
    rewrite Rmult_assoc, <- bpow_add. f_equal. f_equal. lia.
  - destruct (IZR_mag (Zpos m) e ltac:(lia)) as [Hl Hu]. unfold mag_is.
    replace (Zdigits2 (Zpos m) + e - 1)%Z
      with (Zdigits2 (Zpos m) - 1 + e)%Z by lia.
    pose proof (bpow_pos e). nra.
  - cbn [Zdigits2]. lia.
Qed.

Lemma binary_normalize_to n e :
  round_to (IZR n * bpow e) (binary_normalize prec emax n e false).
Proof.
  destruct n as [|p|p]; cbn [binary_normalize].
  - rewrite Rmult_0_l. apply round_to_zero.
  - apply (binary_round_to false p e).
  - apply (binary_round_to true p e).
Qed.

(** [float(n)]. *)
Lemma of_Z_to n : round_to (IZR n) (binary_normalize prec emax n 0 false).
Proof.
  pose proof (binary_normalize_to n 0) as H. rewrite bpow_0, Rmult_1_r in H.
  exact H.
Qed.

Lemma aligned_value s m e ez :
  (ez <= e)%Z ->
  IZR (cond_Zopp s (Zpos (fst (shl_align m e ez)))) * bpow ez =
  val (S754_finite s m e).
Proof.
  intros He. destruct (shl_align_spec m e ez) as [Hz Hm].
  rewrite Z.min_r in Hz by exact He. rewrite Hz in Hm.
  cbn [val]. destruct s; cbn [cond_Zopp].
  - change (Z.opp (Zpos ?p)) with (- Zpos p)%Z.
    rewrite !opp_IZR, Hm, mult_IZR, <- bpow_IZR by lia.
    replace (bpow e) with (bpow (e - ez) * bpow ez)
      by (rewrite <- bpow_add; f_equal; lia).
    lra.
  - rewrite Hm, mult_IZR, <- bpow_IZR by lia.
    replace (bpow e) with (bpow (e - ez) * bpow ez)
      by (rewrite <- bpow_add; f_equal; lia).
    lra.
Qed.

Lemma valid_opp s m e :
  valid_binary (S754_finite s m e) = true ->
  valid_binary (S754_finite (negb s) m e) = true.
Proof. intros H. exact H. Qed.

Lemma val_opp s m e :
  val (S754_finite (negb s) m e) = - val (S754_finite s m e).
Proof. rewrite !val_finite. destruct s; cbn [negb]; lra. Qed.

(** A finite result is a valid float. *)
Lemma round_to_finite x f :
  round_to x f -> F64.is_finite f = true ->
  valid_binary f = true /\ rounds x (val f).
Proof.
  intros (v & Hr & [(_ & _ & Hv & <-) | (_ & Hinf)]) Hf.
  - split; assumption.
  - congruence.
Qed.

(** Subtraction of finite floats rounds the exact difference. *)
Lemma SFsub_to a b :
  F64.is_finite a = true -> F64.is_finite b = true ->
  valid_binary a = true -> valid_binary b = true ->
  round_to (val a - val b) (SF64sub a b).
Proof.
  destruct a as [sa | sa | | sa ma ea]; try discriminate;
    destruct b as [sb | sb | | sb mb eb]; try discriminate;
    intros _ _ Ha Hb; unfold SF64sub, SFsub.
  - cbn [val]. rewrite Rminus_0_r.
    destruct sa, sb; apply round_to_zero.
  - cbn [val]. rewrite Rminus_0_l. fold (val (S754_finite sb mb eb)).
    rewrite <- val_opp. apply round_to_val; [reflexivity|exact Hb].
  - change (val (S754_zero sb)) with 0. rewrite Rminus_0_r.
    apply round_to_val; [reflexivity|exact Ha].
  - cbv zeta.
    rewrite <- (aligned_value sa ma ea (Z.min ea eb)) by lia.
    rewrite <- (aligned_value sb mb eb (Z.min ea eb)) by lia.
    rewrite <- Rmult_minus_distr_r, <- minus_IZR.
    apply binary_normalize_to.
Qed.

(** A finite difference of valid floats is a valid float. *)
Lemma sub_valid a b :
  valid_binary a = true -> valid_binary b = true ->
  F64.is_finite (b - a)%f64 = true -> valid_binary (b - a)%f64 = true.
Proof.
  intros Ha Hb Hf.
  assert (Hfin : F64.is_finite a = true /\ F64.is_finite b = true).
  { destruct a as [sa | sa | | sa ma ea], b as [sb | sb | | sb mb eb];
      try (split; reflexivity); try discriminate Hf;
      destruct sa, sb; discriminate Hf. }
  destruct Hfin as [Hfa Hfb].
  exact (proj1 (round_to_finite _ _ (SFsub_to b a Hfb Hfa Hb Ha) Hf)).
Qed.

End Ops.

Lemma Zdigits2_mul a b :
  0 < a -> 0 < b -> Zdigits2 a + Zdigits2 b - 1 <= Zdigits2 (a * b).
Proof.
  intros Ha Hb.
  pose proof (Zdigits2_bounds a Ha) as [Hla _].
  pose proof (Zdigits2_bounds b Hb) as [Hlb _].
  pose proof (Zdigits2_pos a Ha). pose proof (Zdigits2_pos b Hb).
  assert (H2 : 2 ^ (Zdigits2 a - 1 + (Zdigits2 b - 1)) <= a * b).
  { rewrite Z.pow_add_r by lia.
    assert (0 < 2 ^ (Zdigits2 a - 1)) by (apply Z.pow_pos_nonneg; lia).
    assert (0 < 2 ^ (Zdigits2 b - 1)) by (apply Z.pow_pos_nonneg; lia). nia. }
  assert (Hp : 0 < 2 ^ (Zdigits2 a - 1 + (Zdigits2 b - 1)))
    by (apply Z.pow_pos_nonneg; lia).
  pose proof (Zdigits2_mono _ _ (conj Hp H2)) as Hm.
  rewrite Zdigits2_pow2 in Hm by lia. lia.
Qed.

Section MulDiv.
Local Open Scope R_scope.

Lemma signed_mul (sa sb : bool) (x y : R) :
  (if xorb sa sb then - (x * y) else x * y) =
  (if sa then - x else x) * (if sb then - y else y).
Proof. destruct sa, sb; cbn [xorb]; lra. Qed.

(** Multiplication of finite floats rounds the exact product. *)
Lemma SFmul_to a b :
  F64.is_finite a = true -> F64.is_finite b = true ->
  valid_binary a = true -> valid_binary b = true ->
  round_to (val a * val b) (SF64mul a b).
Proof.
  destruct a as [sa | sa | | sa ma ea]; try discriminate;
    destruct b as [sb | sb | | sb mb eb]; try discriminate;
    intros _ _ Ha Hb; unfold SF64mul, SFmul.
  1-3: cbn [val]; rewrite ?Rmult_0_l, ?Rmult_0_r; apply round_to_zero.
  apply valid_finite_inv in Ha, Hb. destruct Ha as [Hca _], Hb as [Hcb _].
  rewrite !val_finite, <- signed_mul.
  replace (IZR (Zpos ma) * bpow ea * (IZR (Zpos mb) * bpow eb))
    with (IZR (Zpos (ma * mb)) * bpow (ea + eb))
    by (rewrite Pos2Z.inj_mul, mult_IZR, bpow_add; lra).
  apply (bra_round_to _ _ _ _ _ (Zdigits2 (Zpos (ma * mb)) + (ea + eb))%Z).
  - lia.
  - apply pos_value_pos.
  - reflexivity.
  - destruct (IZR_mag (Zpos (ma * mb)) (ea + eb) ltac:(lia)) as [Hl Hu].
    unfold mag_is.
    replace (Zdigits2 (Zpos (ma * mb)) + (ea + eb) - 1)%Z
      with (Zdigits2 (Zpos (ma * mb)) - 1 + (ea + eb))%Z by lia.
    pose proof (bpow_pos (ea + eb)). nra.
  - pose proof (Zdigits2_mul (Zpos ma) (Zpos mb) ltac:(lia) ltac:(lia)) as Hd.
    rewrite Pos2Z.inj_mul. cbn [Zdigits2] in Hd |- *.
    pose proof (Pos2Z.is_pos (digits2_pos ma)).
    pose proof (Pos2Z.is_pos (digits2_pos mb)).
    unfold_fexp. lia.
Qed.


(** The location of a quotient, from its remainder. *)
Lemma new_location_located m2 q r e :
  (0 < m2)%Z -> (0 <= r < m2)%Z ->
  located ((IZR q + IZR r / IZR m2) * bpow e) q e (new_location m2 r).
Proof.
  intros Hm2 Hr. pose proof (bpow_pos e) as HB.
  assert (HM : 0 < IZR m2) by (apply IZR_lt; lia).
  assert (Hr0 : 0 <= IZR r) by (apply IZR_le; lia).
  assert (Hhalf : forall c : R, c * IZR m2 = IZR r -> IZR r / IZR m2 = c).
  { intros c <-. field. lra. }
  unfold new_location.
  destruct (Z.even m2) eqn:Ev; unfold new_location_even, new_location_odd;
    destruct (Z.eqb_spec r 0) as [->|Hr1].
  - cbn [located]. unfold Rdiv. lra.
  - assert (Hrp : 0 < IZR r) by (apply IZR_lt; lia).
    assert (Hfrac : 0 < IZR r / IZR m2) by (apply Rdiv_lt_0_compat; lra).
    destruct (Z.compare_spec (2 * r) m2) as [E|L|G]; cbn [located].
    + rewrite (Hhalf (/2)); [reflexivity|].
      apply (f_equal IZR) in E. rewrite mult_IZR in E. lra.
    + apply IZR_lt in L. rewrite mult_IZR in L.
      assert (IZR r / IZR m2 < /2).
      { apply Rmult_lt_reg_r with (IZR m2); [lra|].
        unfold Rdiv. rewrite Rmult_assoc, Rinv_l by lra. lra. }
      split; nra.
    + apply IZR_lt in G. rewrite mult_IZR in G.
      assert (/2 < IZR r / IZR m2 < 1).
      { split; apply Rmult_lt_reg_r with (IZR m2); try lra;
          unfold Rdiv; rewrite Rmult_assoc, Rinv_l by lra; try lra.
        assert (IZR r < IZR m2) by (apply IZR_lt; lia). lra. }
      split; nra.
  - cbn [located]. unfold Rdiv. lra.
  - assert (Hrp : 0 < IZR r) by (apply IZR_lt; lia).
    assert (Hfrac : 0 < IZR r / IZR m2) by (apply Rdiv_lt_0_compat; lra).
    assert (Hodd : (2 * r <> m2)%Z).
    { intros E. rewrite <- E, Z.even_mul in Ev. discriminate. }
    destruct (Z.compare_spec (2 * r + 1) m2) as [E|L|G]; cbn [located].
    + assert (L : (2 * r < m2)%Z) by lia.
      apply IZR_lt in L. rewrite mult_IZR in L.
      assert (IZR r / IZR m2 < /2).
      { apply Rmult_lt_reg_r with (IZR m2); [lra|].
        unfold Rdiv. rewrite Rmult_assoc, Rinv_l by lra. lra. }
      split; nra.
    + assert (L' : (2 * r < m2)%Z) by lia.
      apply IZR_lt in L'. rewrite mult_IZR in L'.
      assert (IZR r / IZR m2 < /2).
      { apply Rmult_lt_reg_r with (IZR m2); [lra|].
        unfold Rdiv. rewrite Rmult_assoc, Rinv_l by lra. lra. }
      split; nra.
    + assert (G' : (m2 < 2 * r)%Z) by lia.
      apply IZR_lt in G'. rewrite mult_IZR in G'.
      assert (/2 < IZR r / IZR m2 < 1).
      { split; apply Rmult_lt_reg_r with (IZR m2); try lra;
          unfold Rdiv; rewrite Rmult_assoc, Rinv_l by lra; try lra.
        assert (IZR r < IZR m2) by (apply IZR_lt; lia). lra. }
      split; nra.
Qed.

(** Every positive ratio of two ints scaled by a power of two has a
    magnitude, at least the difference of the numbers of digits. *)
Lemma mag_ratio a b e :
  (0 < a)%Z -> (0 < b)%Z ->
  exists k,
    mag_is (IZR a / IZR b * bpow e) k /\
    (Zdigits2 a - Zdigits2 b + e <= k)%Z.
Proof.
  intros Ha Hb.
  assert (Hab : forall c, (0 < c)%Z ->
            bpow (Zdigits2 c - 1) <= IZR c /\ IZR c + 1 <= bpow (Zdigits2 c)).
  { intros c Hc. destruct (IZR_mag c 0 Hc) as [Hl Hu].
    rewrite bpow_0, !Rmult_1_r, !Z.add_0_r in *. split; assumption. }
  destruct (Hab a Ha) as [Hla Hua]. destruct (Hab b Hb) as [Hlb Hub].
  clear Hab.
  set (da := Zdigits2 a) in *. set (db := Zdigits2 b) in *.
  assert (HA : 0 < IZR a) by (apply IZR_lt; lia).
  assert (HB : 0 < IZR b) by (apply IZR_lt; lia).
  pose proof (bpow_pos e) as He.
  set (x := IZR a / IZR b * bpow e).
  assert (Hx : x * IZR b = IZR a * bpow e) by (unfold x; field; lra).
  assert (Hlow : bpow (da - db + e - 1) < x).
  { apply Rmult_lt_reg_r with (IZR b); [exact HB|]. rewrite Hx.
    apply Rlt_le_trans with (bpow (da - db + e - 1) * bpow db).
    - apply Rmult_lt_compat_l; [apply bpow_pos|lra].
    - rewrite <- bpow_add. replace (da - db + e - 1 + db)%Z with (da - 1 + e)%Z by lia.
      rewrite bpow_add. apply Rmult_le_compat_r; lra. }
  assert (Hhigh : x < bpow (da - db + e + 1)).
  { apply Rmult_lt_reg_r with (IZR b); [exact HB|]. rewrite Hx.
    apply Rlt_le_trans with (bpow da * bpow e).
    - apply Rmult_lt_compat_r; lra.
    - rewrite <- bpow_add.
      apply Rle_trans with (bpow (da - db + e + 1) * bpow (db - 1)).
      + rewrite <- bpow_add. apply bpow_le. lia.
      + apply Rmult_le_compat_l; [apply Rlt_le, bpow_pos|lra]. }
  destruct (Rlt_le_dec x (bpow (da - db + e))) as [Hlt|Hge].
  - exists (da - db + e)%Z. split; [|lia]. split; lra.
  - exists (da - db + e + 1)%Z. split; [|lia]. unfold mag_is.
    replace (da - db + e + 1 - 1)%Z with (da - db + e)%Z by lia. split; lra.
Qed.


Lemma signed_div (sa sb : bool) (x y : R) :
  y <> 0 ->
  (if xorb sa sb then - (x / y) else x / y) =
  (if sa then - x else x) / (if sb then - y else y).
Proof. intros Hy. destruct sa, sb; cbn [xorb]; field; lra. Qed.

(** Division by a finite float other than zero rounds the exact
    quotient; the operands need not be normalised. *)
Lemma SFdiv_to a sb mb eb :
  F64.is_finite a = true ->
  round_to (val a / val (S754_finite sb mb eb))
           (SF64div a (S754_finite sb mb eb)).
Proof.
  pose proof (pos_value_pos mb eb) as Hbpos.
  destruct a as [sa | sa | | sa ma ea]; try discriminate; intros _;
    unfold SF64div, SFdiv.
  { cbn [val]. unfold Rdiv. rewrite Rmult_0_l. apply round_to_zero. }
  rewrite SFdiv_core_binary_q by lia.
  set (e' := Z.min _ _). set (s := (ea - eb - e')%Z).
  assert (Hs : (0 <= s)%Z) by (subst s e'; lia).
  rewrite !val_finite, <- signed_div by lra.
  pose proof (Z.div_mod (Zpos ma * 2 ^ s) (Zpos mb) ltac:(lia)) as Hdm.
  pose proof (Z.mod_pos_bound (Zpos ma * 2 ^ s) (Zpos mb) ltac:(lia)) as Hr.
  set (q := (Zpos ma * 2 ^ s / Zpos mb)%Z) in *.
  set (r := ((Zpos ma * 2 ^ s) mod Zpos mb)%Z) in *.
  assert (HMb : 0 < IZR (Zpos mb)) by (apply IZR_lt; lia).
  pose proof (bpow_pos ea). pose proof (bpow_pos eb). pose proof (bpow_pos e').
  assert (Hx : IZR (Zpos ma) * bpow ea / (IZR (Zpos mb) * bpow eb) =
               (IZR q + IZR r / IZR (Zpos mb)) * bpow e').
  { apply (f_equal IZR) in Hdm.
    rewrite plus_IZR, !mult_IZR, <- bpow_IZR in Hdm by exact Hs.
    replace (IZR q + IZR r / IZR (Zpos mb))
      with ((IZR (Zpos mb) * IZR q + IZR r) / IZR (Zpos mb)) by (field; lra).
    rewrite <- Hdm.
    replace (bpow ea) with (bpow s * bpow e' * bpow eb)
      by (rewrite <- !bpow_add; f_equal; subst s; lia).
    field. lra. }
  destruct (mag_ratio (Zpos ma) (Zpos mb) (ea - eb) ltac:(lia) ltac:(lia))
    as (k & Hk & Hkd).
  assert (Hx' : IZR (Zpos ma) * bpow ea / (IZR (Zpos mb) * bpow eb) =
                IZR (Zpos ma) / IZR (Zpos mb) * bpow (ea - eb)).
  { replace (bpow ea) with (bpow (ea - eb) * bpow eb)
      by (rewrite <- bpow_add; f_equal; lia).
    field. lra. }
  apply (bra_round_to _ q e' _ _ k).
  - apply Z.div_pos; [|lia].
    apply Z.mul_nonneg_nonneg; [lia|apply Z.pow_nonneg; lia].
  - apply Rdiv_lt_0_compat; [apply pos_value_pos|exact Hbpos].
  - rewrite Hx. apply new_location_located; [lia|exact Hr].
  - rewrite Hx'. exact Hk.
  - apply Z.le_trans with (fexp prec emax (Zdigits2 (Zpos ma) + ea
                                            - (Zdigits2 (Zpos mb) + eb))).
    + subst e'. lia.
    + apply fexp_mono. lia.
Qed.

End MulDiv.


(** ** The parser *)

Section ParserFacts.

Variable float_of_string : string -> option float64.

Lemma date_of_absent parent name :
  find parent name = None ->
  date_of parent name = mk_datetime 2019 11 11 1 2 3.
Proof. intros H. unfold date_of. rewrite H. reflexivity. Qed.

Lemma date_of_present parent name e :
  find parent name = Some e -> date_of parent name = Raise NameError.
Proof. intros H. unfold date_of. rewrite H. reflexivity. Qed.

Lemma float_of_absent parent name :
  find parent name = None -> float_of float_of_string parent name = Ok nan.
Proof. intros H. unfold float_of. rewrite H. reflexivity. Qed.

Lemma parse_trackpoint_skip t :
  find t "AltitudeMeters" = None ->
  parse_trackpoint float_of_string t = Ok None.
Proof. intros H. unfold parse_trackpoint. rewrite H. reflexivity. Qed.

Lemma parse_elements_app pre post :
  parse_elements float_of_string (pre ++ post) =
    match parse_elements float_of_string pre with
    | (ps, Finished) =>
        let '(ps', e) := parse_elements float_of_string post in (ps ++ ps', e)
    | r => r
    end.
Proof.
  induction pre as [|t pre IH]; simpl.
  - destruct (parse_elements _ post); reflexivity.
  - destruct (parse_trackpoint _ t) as [[p|]|e]; try reflexivity.
    + rewrite IH. destruct (parse_elements _ pre) as [ps []];
        try reflexivity.
      destruct (parse_elements _ post). reflexivity.
    + exact IH.
Qed.

Lemma parse_elements_skip pre t post :
  find t "AltitudeMeters" = None ->
  parse_elements float_of_string (pre ++ t :: post) =
  parse_elements float_of_string (pre ++ post).
Proof.
  intros H. rewrite !parse_elements_app. simpl.
  rewrite (parse_trackpoint_skip _ H). reflexivity.
Qed.

(** Whatever raises in the body of the loop, it is past the altitude
    check. *)
Lemma parse_trackpoint_raise_kept t e :
  parse_trackpoint float_of_string t = Raise e ->
  find t "AltitudeMeters" <> None.
Proof.
  intros H Ha. rewrite (parse_trackpoint_skip _ Ha) in H. discriminate.
Qed.

Lemma bind_raise {A B} (r : result A) (k : A -> result B) :
  (forall a, exists e, k a = Raise e) -> exists e, bind r k = Raise e.
Proof. intros Hk. destruct r as [a|e]; simpl; eauto. Qed.

Lemma parse_trackpoint_no_position t :
  find t "AltitudeMeters" <> None ->
  find t "Position" = None ->
  exists e, parse_trackpoint float_of_string t = Raise e.
Proof.
  intros Ha Hp. unfold parse_trackpoint. rewrite Hp.
  destruct (find t "AltitudeMeters"); [|congruence].
  do 3 (apply bind_raise; intros ?). simpl. eauto.
Qed.

(** With no [Time] to trip [date_of] and readable altitude and distance
    texts, the missing [Position] is what raises. *)
Lemma parse_trackpoint_no_position_AttributeError t a x :
  find t "Time" = None ->
  find t "AltitudeMeters" = Some a ->
  float float_of_string (text a) = Ok x ->
  (forall d, find t "DistanceMeters" = Some d ->
             exists y, float float_of_string (text d) = Ok y) ->
  find t "Position" = None ->
  parse_trackpoint float_of_string t = Raise AttributeError.
Proof.
  intros Ht Ha Hx Hd Hp. unfold parse_trackpoint.
  rewrite Hp, Ha, (date_of_absent _ _ Ht). simpl. rewrite Ha, Hx. simpl.
  unfold float_of. destruct (find t "DistanceMeters") as [d|]; simpl.
  - destruct (Hd d eq_refl) as [y ->]. reflexivity.
  - reflexivity.
Qed.

(** [continue] is only reached from the altitude check. *)
Lemma parse_trackpoint_continue t :
  parse_trackpoint float_of_string t = Ok None ->
  find t "AltitudeMeters" = None.
Proof.
  unfold parse_trackpoint. intros H.
  destruct (find t "AltitudeMeters"); [exfalso | reflexivity].
  repeat match type of H with
         | bind ?r _ = _ => destruct r; cbn [bind] in H; try discriminate
         end.
Qed.

Lemma kept_cons t elements :
  kept (t :: elements) =
    if bool_decide (find t "AltitudeMeters" <> None)
    then t :: kept elements else kept elements.
Proof. reflexivity. Qed.

(** What is yielded is the kept samples, one Trackpoint each, in the
    order of the document, up to the first one that raises. *)
Lemma parse_elements_kept elements :
  let '(ps, e) := parse_elements float_of_string elements in
  exists n,
    Forall2 (parsed_as float_of_string) (take n (kept elements)) ps /\
    match e with
    | Finished => n = length (kept elements)
    | Raised x =>
        exists t, kept elements !! n = Some t /\
                  parse_trackpoint float_of_string t = Raise x
    | OutOfFuel => False
    end.
Proof.
  induction elements as [|t elements IH].
  - exists 0%nat. split; [constructor | reflexivity].
  - rewrite kept_cons. cbn [parse_elements].
    destruct (parse_trackpoint float_of_string t) as [[p|]|x] eqn:Ht.
    + destruct (parse_elements _ elements) as [ps e].
      destruct IH as (n & Hps & He).
      assert (Hk : find t "AltitudeMeters" <> None).
      { intros Ha. rewrite (parse_trackpoint_skip _ Ha) in Ht. discriminate. }
      rewrite bool_decide_eq_true_2 by exact Hk.
      exists (S n). split.
      * simpl. constructor; [exact Ht | exact Hps].
      * destruct e; simpl; auto.
    + destruct (parse_elements _ elements) as [ps e].
      destruct (bool_decide (find t "AltitudeMeters" <> None)) eqn:Hb;
        [|exact IH].
      exfalso. apply bool_decide_eq_true_1 in Hb.
      exact (Hb (parse_trackpoint_continue _ Ht)).
    + rewrite bool_decide_eq_true_2
        by (eapply parse_trackpoint_raise_kept; exact Ht).
      exists 0%nat. split; [constructor|].
      exists t. split; [reflexivity | exact Ht].
Qed.

End ParserFacts.

Lemma sentinel_is_T0 : strptime_ISO "2019-11-11T01:02:03Z" = Ok T0.
Proof. reflexivity. Qed.

Section ParserOutcomeFacts.

Variable float_of_string : string -> option float64.

Lemma float_raise text e :
  float float_of_string text = Raise e -> e = TypeError \/ e = ValueError.
Proof.
  unfold float. destruct text as [s|]; [|intros H; injection H as <-; auto].
  destruct (float_of_string s); [discriminate|].
  intros H; injection H as <-; auto.
Qed.

Lemma float_of_raise t name e :
  float_of float_of_string t name = Raise e ->
  e = TypeError \/ e = ValueError.
Proof.
  unfold float_of. destruct (find t name); [apply float_raise | discriminate].
Qed.

Lemma float_of_child_raise p name e :
  float_of_child float_of_string p name = Raise e ->
  e = TypeError \/ e = ValueError \/
  (e = AttributeError /\
   match p with None => True | Some p => find p name = None end).
Proof.
  unfold float_of_child. destruct p as [p|].
  - destruct (find p name).
    + intros H. apply float_raise in H. tauto.
    + intros H. injection H as <-. auto.
  - intros H. injection H as <-. auto.
Qed.

(** The samples that are yielded. *)
Lemma parse_trackpoint_yield t p :
  parse_trackpoint float_of_string t = Ok (Some p) <->
  readable_as float_of_string t p.
Proof.
  unfold parse_trackpoint, readable_as. split.
  - destruct (find t "AltitudeMeters") as [a|] eqn:Ha; [|discriminate].
    unfold date_of. destruct (find t "Time") as [time_element|] eqn:Htime;
      [discriminate|].
    change (strptime_ISO "2019-11-11T01:02:03Z") with (Ok T0).
    cbn [bind float_of_child]. rewrite Ha.
    destruct (float float_of_string (text a)) as [x|] eqn:Hx;
      [|discriminate].
    cbn [bind].
    destruct (float_of float_of_string t "DistanceMeters") as [d|] eqn:Hd;
      [|discriminate].
    cbn [bind]. destruct (find t "Position") as [pos|] eqn:Hpos;
      [|discriminate].
    cbn [float_of_child].
    destruct (find pos "LatitudeDegrees") as [la|] eqn:Hla; [|discriminate].
    destruct (float float_of_string (text la)) as [lat|] eqn:Hlat;
      [|discriminate].
    cbn [bind].
    destruct (find pos "LongitudeDegrees") as [lo|] eqn:Hlo; [|discriminate].
    destruct (float float_of_string (text lo)) as [lon|] eqn:Hlon;
      [|discriminate].
    cbn [bind]. intros H. injection H as <-.
    cbn [time altitude_meters distance_meters latitude_degrees
         longitude_degrees].
    split; [reflexivity|]. split; [reflexivity|].
    split; [exists a; split; [reflexivity | exact Hx]|].
    split; [reflexivity|]. exists pos, la, lo.
    repeat split; assumption.
  - intros (Htime & Ht & (a & Ha & Hx) & Hd & pos & la & lo
            & Hpos & Hla & Hlat & Hlo & Hlon).
    rewrite Ha. unfold date_of. rewrite Htime.
    change (strptime_ISO "2019-11-11T01:02:03Z") with (Ok T0) in Ht |- *.
    injection Ht as Ht.
    cbn [bind float_of_child]. rewrite Ha, Hx. cbn [bind]. rewrite Hd.
    cbn [bind]. rewrite Hpos. cbn [float_of_child].
    rewrite Hla, Hlat. cbn [bind]. rewrite Hlo, Hlon. cbn [bind].
    destruct p. cbn in *. subst. reflexivity.
Qed.

(** The samples that raise, and what. *)
Lemma parse_trackpoint_raise t e :
  parse_trackpoint float_of_string t = Raise e ->
  find t "AltitudeMeters" <> None /\
  (e = NameError /\ find t "Time" <> None \/
   find t "Time" = None /\
   (e = TypeError \/ e = ValueError \/
    e = AttributeError /\ no_coordinate t)).
Proof.
  unfold parse_trackpoint, no_coordinate.
  destruct (find t "AltitudeMeters") as [a|] eqn:Ha; [|discriminate].
  intros H. split; [discriminate|]. revert H. unfold date_of.
  destruct (find t "Time") as [time_element|] eqn:Htime.
  - cbn [bind]. intros H. injection H as <-. left. split; [reflexivity|].
    discriminate.
  - change (strptime_ISO "2019-11-11T01:02:03Z") with (Ok T0).
    cbn [bind float_of_child]. rewrite Ha. intros H. right.
    split; [reflexivity|].
    destruct (float float_of_string (text a)) as [x|] eqn:Hx; cbn [bind] in H.
    2:{ injection H as <-. apply float_raise in Hx. tauto. }
    destruct (float_of float_of_string t "DistanceMeters") as [d|] eqn:Hd;
      cbn [bind] in H.
    2:{ injection H as <-. apply float_of_raise in Hd. tauto. }
    destruct (float_of_child float_of_string (find t "Position")
                "LatitudeDegrees") as [lat|] eqn:Hlat; cbn [bind] in H.
    2:{ injection H as <-. apply float_of_child_raise in Hlat.
        destruct Hlat as [-> | [-> | [-> Hnone]]]; auto.
        right. right. split; [reflexivity|].
        destruct (find t "Position"); auto. }
    destruct (float_of_child float_of_string (find t "Position")
                "LongitudeDegrees") as [lon|] eqn:Hlon; cbn [bind] in H.
    2:{ injection H as <-. apply float_of_child_raise in Hlon.
        destruct Hlon as [-> | [-> | [-> Hnone]]]; auto.
        right. right. split; [reflexivity|].
        destruct (find t "Position"); auto. }
    discriminate H.
Qed.

Lemma parse_trackpoint_Time t :
  find t "AltitudeMeters" <> None -> find t "Time" <> None ->
  parse_trackpoint float_of_string t = Raise NameError.
Proof.
  intros Ha Ht. unfold parse_trackpoint, date_of.
  destruct (find t "AltitudeMeters"); [|congruence].
  destruct (find t "Time"); [reflexivity | congruence].
Qed.

End ParserOutcomeFacts.

Section ParserTheorems.

Variable float_of_string : string -> option float64.

Lemma parse_elements_readable elements ps :
  Forall2 (readable_as float_of_string) (kept elements) ps ->
  parse_elements float_of_string elements = (ps, Finished).
Proof.
  revert ps. induction elements as [|t elements IH]; intros ps H.
  - apply Forall2_nil_inv_l in H. subst ps. reflexivity.
  - rewrite kept_cons in H. cbn [parse_elements].
    destruct (bool_decide (find t "AltitudeMeters" <> None)) eqn:Hb.
    + apply Forall2_cons_inv_l in H. destruct H as (p & ps' & Hp & Hps & ->).
      apply parse_trackpoint_yield in Hp. rewrite Hp, (IH ps' Hps).
      reflexivity.
    + apply bool_decide_eq_false_1 in Hb.
      assert (Ha : find t "AltitudeMeters" = None).
      { destruct (find t "AltitudeMeters"); [exfalso; apply Hb; discriminate|].
        reflexivity. }
      rewrite (parse_trackpoint_skip _ _ Ha). apply IH, H.
Qed.

Lemma Forall2_parsed_readable ts ps :
  Forall2 (parsed_as float_of_string) ts ps ->
  Forall2 (readable_as float_of_string) ts ps.
Proof.
  intros H. eapply Forall2_impl; [exact H|]. intros t p Hp.
  apply parse_trackpoint_yield. exact Hp.
Qed.

End ParserTheorems.


(** C3 (the code departs from it): [date_of] reads the text of a present
    [Time] through the name [e], which is bound nowhere, so the read
    raises [NameError] on every sample that has a [Time]; only the absent
    case works and gives the sentinel 2019-11-11T01:02:03. *)
Theorem date_of_Time_present_raises :
  find sample_complete "Time" = Some (leaf "Time" "2019-11-14T12:00:00Z") /\
  date_of sample_complete "Time" = Raise NameError /\
  parse_trackpoint decimal_float sample_complete = Raise NameError /\
  date_of sample_no_time "Time" = mk_datetime 2019 11 11 1 2 3.
Proof. repeat split; reflexivity. Qed.

(** C10: an element without [AltitudeMeters] is skipped ([continue]) with
    nothing yielded and nothing raised, whether or not it has a
    [Position]: removing it from the document does not change the
    output.  Whatever raises in the loop body, raises on an element that
    has an altitude. *)
Theorem altitude_check_before_position float_of_string t :
  find t "AltitudeMeters" = None ->
  parse_trackpoint float_of_string t = Ok None /\
  (forall pre post,
     parse_elements float_of_string (pre ++ t :: post) =
     parse_elements float_of_string (pre ++ post)) /\
  (forall t' e,
     parse_trackpoint float_of_string t' = Raise e ->
     find t' "AltitudeMeters" <> None).
Proof.
  intros H. split; [|split].
  - exact (parse_trackpoint_skip _ _ H).
  - intros pre post. exact (parse_elements_skip _ _ _ _ H).
  - intros t' e. apply parse_trackpoint_raise_kept.
Qed.

Lemma altitude_check_before_position_witness :
  find sample_no_altitude "Position" = None /\
  parse_trackpoint decimal_float sample_no_altitude = Ok None.
Proof.
  split; [reflexivity|].
  apply (altitude_check_before_position decimal_float sample_no_altitude).
  reflexivity.
Defined.





(** ** The milepost loop *)

Lemma gt_int_nan n : F64.gt_int nan n = false.
Proof. reflexivity. Qed.

Lemma sub_zero_r (x : float64) :
  F64.is_zero x = false -> (x - F64.zero)%f64 = x.
Proof. destruct x as [| s | | s m e]; try reflexivity; discriminate. Qed.

Lemma gt_int_not_zero x n : 0 <= n -> F64.gt_int x n = true -> F64.is_zero x = false.
Proof.
  intros Hn. destruct x; simpl; try reflexivity.
  intros H. apply Z.ltb_lt in H. lia.
Qed.

(** A sample whose mile value compares false with [next_mile] passes
    through the loop without a round of it. *)
Lemma while_loop_false fuel st point miles :
  F64.gt_int miles (next_mile st) = false ->
  while_loop fuel st point miles = ([], Finished, next_mile st).
Proof. intros H. destruct fuel; simpl; rewrite H; reflexivity. Qed.

Lemma parse_trackpoint_distance_absent float_of_string t p :
  find t "DistanceMeters" = None ->
  parse_trackpoint float_of_string t = Ok (Some p) ->
  distance_meters p = nan.
Proof.
  intros Hd H. unfold parse_trackpoint in H.
  destruct (find t "AltitudeMeters"); [|discriminate].
  rewrite (float_of_absent _ _ _ Hd) in H.
  bind_inv H. cbn [bind] in H. injection H as <-. reflexivity.
Qed.

(** C7: a kept sample without [DistanceMeters] gets not-a-number as its
    distance; its mile value is then not-a-number too, the test
    [miles > next_mile] is false for every [next_mile], and the sample
    goes through the milepost loop with nothing yielded and nothing
    raised, leaving [next_mile] as it was.  (The not-a-number then sits in
    [previous_miles] for the sample that follows.) *)
Theorem missing_distance_yields_no_milepost float_of_string t p :
  find t "DistanceMeters" = None ->
  parse_trackpoint float_of_string t = Ok (Some p) ->
  float_of float_of_string t "DistanceMeters" = Ok nan /\
  distance_meters p = nan /\
  let miles := (distance_meters p * MILES_PER_METER)%f64 in
  (forall n, F64.gt_int miles n = false) /\
  forall fuel st,
    while_loop fuel st p miles = ([], Finished, next_mile st) /\
    forall datapoints,
      for_loop fuel st (p :: datapoints) =
      for_loop fuel {| next_mile := next_mile st;
                       previous_time := TDatetime (time p);
                       previous_miles := miles;
                       previous_point := Some p |} datapoints.
Proof.
  intros Hd Hp.
  pose proof (parse_trackpoint_distance_absent _ _ _ Hd Hp) as Hnan.
  split; [exact (float_of_absent _ _ _ Hd)|]. split; [exact Hnan|].
  rewrite Hnan. simpl. split; [reflexivity|].
  intros fuel st. split.
  - apply while_loop_false. reflexivity.
  - intros datapoints. cbn [for_loop]. rewrite Hnan.
    rewrite while_loop_false by reflexivity.
    destruct (for_loop fuel _ datapoints). reflexivity.
Qed.

Lemma missing_distance_yields_no_milepost_witness :
  exists p,
    parse_trackpoint decimal_float sample_no_distance = Ok (Some p) /\
    distance_meters p = nan /\
    forall fuel st,
      while_loop fuel st p (distance_meters p * MILES_PER_METER)%f64 =
        ([], Finished, next_mile st).
Proof.
  eexists. split; [vm_compute; reflexivity|].
  refine ((fun H => conj (proj1 (proj2 H))
                      (fun fuel st => proj1 (proj2 (proj2 (proj2 H)) fuel st)))
            (missing_distance_yields_no_milepost decimal_float
               sample_no_distance _ eq_refl _)).
  vm_compute. reflexivity.
Defined.

(** C4 (the code departs from it): when the first sample is already
    beyond mile 1 the loop body runs with [previous_time] still the int
    [0], and [d.time - previous_time] raises [TypeError] before anything
    is yielded: no milepost is synthesized from the start of the track. *)
Theorem first_sample_beyond_mile_1_raises fuel point datapoints :
  F64.gt_int (distance_meters point * MILES_PER_METER)%f64 1 = true ->
  compute_mileposts (S fuel) (point :: datapoints) = ([], Raised TypeError).
Proof.
  intros H. unfold compute_mileposts. cbn [for_loop while_loop].
  cbn [next_mile initial_state]. rewrite H.
  unfold milepost. cbn [next_mile previous_miles previous_time initial_state].
  change (float_of_int 1) with (Ok F64.one). cbn [bind].
  rewrite (sub_zero_r _ (gt_int_not_zero _ 1 ltac:(lia) H)).
  unfold py_truediv. rewrite (gt_int_not_zero _ 1 ltac:(lia) H).
  reflexivity.
Qed.

Lemma first_sample_beyond_mile_1_raises_witness :
  compute_mileposts 1 [sample_at 0 (Prim2SF 2000)] = ([], Raised TypeError).
Proof.
  apply (first_sample_beyond_mile_1_raises 0 (sample_at 0 (Prim2SF 2000)) []).
  vm_compute. reflexivity.
Defined.


(** ** The caching geocoder *)

Section GeocoderFacts.

Context {R : Type} (reverse_geocoder_search : float64 -> float64 -> option R).

Lemma search_miss (self : CachingGeocoder R) lat lon :
  dict_get R (data R self) (format_key lat lon) = None ->
  search R reverse_geocoder_search self lat lon =
    (reverse_geocoder_search lat lon,
     {| data := <[format_key lat lon := reverse_geocoder_search lat lon]>
                  (data R self);
        searched := searched R self ++ [(lat, lon)] |}).
Proof. intros H. unfold search. rewrite H. reflexivity. Qed.

Lemma search_hit (self : CachingGeocoder R) lat lon r :
  dict_get R (data R self) (format_key lat lon) = Some r ->
  search R reverse_geocoder_search self lat lon = (Some r, self).
Proof. intros H. unfold search. rewrite H. reflexivity. Qed.

Lemma dict_get_insert (d : gmap string (option R)) key v :
  dict_get R (<[key := v]> d) key = v.
Proof. unfold dict_get. rewrite lookup_insert_eq. reflexivity. Qed.

End GeocoderFacts.

(** C9: two searches with coordinates that format to the same key, the
    key not being cached yet and the underlying geocoder returning a
    result that is not [None], call the underlying geocoder once, for the
    first pair only; the first search stores its result under the key and
    the second returns that stored result and leaves the geocoder as it
    is. *)
Theorem search_twice_calls_geocoder_once
  {R : Type} (reverse_geocoder_search : float64 -> float64 -> option R)
  (self : CachingGeocoder R) lat1 lon1 lat2 lon2 r :
  format_key lat1 lon1 = format_key lat2 lon2 ->
  dict_get R (data R self) (format_key lat1 lon1) = None ->
  reverse_geocoder_search lat1 lon1 = Some r ->
  let '(result1, self1) := search R reverse_geocoder_search self lat1 lon1 in
  let '(result2, self2) := search R reverse_geocoder_search self1 lat2 lon2 in
  searched R self2 = searched R self ++ [(lat1, lon1)] /\
  result1 = Some r /\
  data R self1 !! format_key lat1 lon1 = Some (Some r) /\
  result2 = Some r /\
  self2 = self1.
Proof.
  intros Hkey Hmiss Hr. rewrite (search_miss _ _ _ _ Hmiss), Hr.
  erewrite search_hit
    by (cbn [data]; rewrite <- Hkey; apply dict_get_insert).
  cbn [data searched]. rewrite lookup_insert_eq. repeat split.
Qed.

(** Two starting points some centimetres apart, with the same key. *)
Lemma search_twice_calls_geocoder_once_witness :
  format_key (Prim2SF 40.1234561) (Prim2SF (-74.5)) = "40.123456 -74.500000" /\
  format_key (Prim2SF 40.1234562) (Prim2SF (-74.5)) = "40.123456 -74.500000" /\
  let geocoder := fun _ _ : float64 => Some "Trenton" in
  let '(result1, self1) :=
    search string geocoder {| data := ∅; searched := [] |}
      (Prim2SF 40.1234561) (Prim2SF (-74.5)) in
  let '(result2, self2) :=
    search string geocoder self1 (Prim2SF 40.1234562) (Prim2SF (-74.5)) in
  searched string self2 = [(Prim2SF 40.1234561, Prim2SF (-74.5))] /\
  result2 = Some "Trenton".
Proof.
  split; [vm_compute; reflexivity|]. split; [vm_compute; reflexivity|].
  pose proof (search_twice_calls_geocoder_once
                (fun _ _ : float64 => Some "Trenton")
                {| data := ∅; searched := [] |}
                (Prim2SF 40.1234561) (Prim2SF (-74.5))
                (Prim2SF 40.1234562) (Prim2SF (-74.5)) "Trenton"
                ltac:(vm_compute; reflexivity) ltac:(vm_compute; reflexivity)
                eq_refl) as H.
  cbv zeta.
  destruct (search string _ _ (Prim2SF 40.1234561) _) as [result1 self1].
  destruct (search string _ self1 _ _) as [result2 self2].
  destruct H as (H1 & _ & _ & H2 & _). split; [exact H1 | exact H2].
Defined.


(** ** Speed *)

(** The quotient of a non-zero number of microseconds by [10**6] is not
    zero. *)
Lemma SFdiv_by_US_PER_SECOND s p :
  F64.is_zero (S754_finite s p 0 / raw_of_Z US_PER_SECOND)%f64 = false.
Proof.
  unfold raw_of_Z, US_PER_SECOND, F64.div, SF64div, SFdiv.
  rewrite SFdiv_core_binary_q by lia.
  change (Zdigits2 1000000) with 20.
  set (e' := Z.min _ _).
  assert (He' : emin <= e' <= 0)
    by (subst e'; unfold fexp, emin, SpecFloat.emin, prec, emax; lia).
  assert (Hq : 0 < Zpos p * 2 ^ (0 - 0 - e') / 1000000).
  { apply Z.div_str_pos; split; [lia|].
    pose proof (digits2_pos_bounds p) as [Hl _].
    assert (H72 : 72 <= Zpos (digits2_pos p) - 1 + (0 - 0 - e')).
    { subst e'. unfold fexp, emin, SpecFloat.emin, prec, emax.
      simpl Zdigits2. lia. }
    apply (Z.pow_le_mono_r 2) in H72; [|lia].
    rewrite Z.pow_add_r in H72 by lia.
    assert (0 < 2 ^ (0 - 0 - e')) by (apply Z.pow_pos_nonneg; lia).
    assert (1000000 <= 2 ^ 72) by (vm_compute; discriminate).
    nia. }
  pose proof (Zdigits2_pos _ Hq) as Hd.
  destruct (binary_round_aux_pos (xorb s false) _ e'
              (new_location 1000000 ((Zpos p * 2 ^ (0 - 0 - e')) mod 1000000))
              Hq ltac:(lia)) as [(m' & e'' & ->) | ->]; reflexivity.
Qed.

(** [total_seconds()] is [0.0] for the zero duration only. *)
Lemma total_seconds_is_zero d : F64.is_zero (total_seconds d) = (d =? 0).
Proof.
  destruct d as [|p|p]; [reflexivity | |]; apply SFdiv_by_US_PER_SECOND.
Qed.

Lemma mph_eq meters duration :
  mph meters duration =
    Ok (if duration =? 0 then F64.zero
        else (meters * MILES_PER_METER / total_seconds duration
              * sixty * sixty)%f64).
Proof.
  unfold mph, py_truediv. rewrite total_seconds_is_zero.
  destruct (duration =? 0); reflexivity.
Qed.

(** C5, as stated, fails on the last factor: 1600 m in 15 minutes is
    3.9767744000000005 mph by [mph] and 3.9767744 mph with a single
    product by 3600. *)
Lemma mph_is_not_times_3600 :
  let meters := Prim2SF 1600 in
  let duration := 900 * US_PER_SECOND in
  mph meters duration = Ok (Prim2SF 3.9767744000000005) /\
  (meters * MILES_PER_METER / total_seconds duration * thirty_six_hundred)%f64
    = Prim2SF 3.9767744 /\
  mph meters duration <>
    Ok (meters * MILES_PER_METER / total_seconds duration
        * thirty_six_hundred)%f64.
Proof. vm_compute. repeat split; discriminate. Qed.

(** C5, amended: for every [meters], [mph] never raises; it returns [0.0]
    when the duration is zero and otherwise
    [meters * MILES_PER_METER / duration_seconds * 60 * 60], each
    operation rounded in turn. *)
Theorem mph_zero_duration_or_speed meters duration :
  mph meters duration =
    Ok (if duration =? 0 then F64.zero
        else (meters * MILES_PER_METER / total_seconds duration
              * sixty * sixty)%f64) /\
  mph (F64.of_Z 0) 0 = Ok F64.zero.
Proof. split; [apply mph_eq | reflexivity]. Qed.

(** ** Interpolation *)

Lemma eqb_refl_finite x : F64.is_finite x = true -> F64.eqb x x = true.
Proof.
  destruct x as [s | s | | s m e]; try discriminate; intros _.
  - reflexivity.
  - unfold F64.eqb, SFeqb, SFcompare.
    rewrite Z.compare_refl, Pos.compare_cont_refl. destruct s; reflexivity.
Qed.

(** At fraction [0.0] a finite [a] comes back, up to the sign of a zero. *)
Lemma interpolate_0 a b :
  F64.is_finite a = true -> F64.is_finite (b - a)%f64 = true ->
  F64.eqb (interpolate a b F64.zero) a = true /\
  (F64.is_zero a = false -> interpolate a b F64.zero = a).
Proof.
  intros Ha Hd. unfold interpolate.
  destruct (b - a)%f64 as [s' | s' | | s' m' e']; try discriminate;
    destruct a as [s | s | | s m e]; try discriminate;
    cbn; split; try discriminate; try reflexivity;
    try (intros _; reflexivity);
    try (destruct s, s'; reflexivity);
    apply (eqb_refl_finite (S754_finite s m e)); reflexivity.
Qed.

Lemma interpolate_1 a b :
  valid_binary (b - a)%f64 = true ->
  interpolate a b F64.one = (a + (b - a))%f64.
Proof. intros Hv. unfold interpolate. rewrite mul_one_r by exact Hv. reflexivity. Qed.

Lemma divide_nearest_mul a b : 0 < b -> divide_nearest (a * b) b = a.
Proof.
  intros Hb. unfold divide_nearest. rewrite Z.div_mul, Z.mod_mul by lia.
  destruct (Z.ltb_spec b (2 * 0)); [lia|].
  destruct (Z.eqb_spec b (2 * 0)); [lia|]. reflexivity.
Qed.

Lemma check_timedelta_valid d : valid_timedelta d -> check_timedelta d = Ok d.
Proof.
  intros [Hl Hu]. unfold check_timedelta.
  apply Z.leb_le in Hl, Hu. rewrite Hl, Hu. reflexivity.
Qed.

Lemma timedelta_mul_one d :
  valid_timedelta d -> timedelta_mul d F64.one = Ok d.
Proof.
  intros Hd.
  change (timedelta_mul d F64.one)
    with (check_timedelta
            (divide_nearest (d * 4503599627370496) 4503599627370496)).
  rewrite divide_nearest_mul by lia. apply check_timedelta_valid, Hd.
Qed.

Lemma datetime_sub_valid t t0 :
  valid_datetime t -> valid_datetime t0 -> valid_timedelta (datetime_sub t t0).
Proof.
  unfold valid_datetime, valid_timedelta, datetime_sub, DATETIME_MAX,
    TIMEDELTA_MIN, TIMEDELTA_MAX, US_PER_DAY, US_PER_SECOND. lia.
Qed.

Lemma check_datetime_valid t : valid_datetime t -> check_datetime t = Ok t.
Proof.
  intros [Hl Hu]. unfold check_datetime.
  apply Z.leb_le in Hl, Hu. rewrite Hl, Hu. reflexivity.
Qed.

(** The time of a milepost at fraction [0.0] and at fraction [1.0]. *)
Lemma time_add_0_1 t0 t :
  valid_datetime t0 -> valid_datetime t ->
  time_add (TDatetime t0) (datetime_sub t t0) F64.zero = Ok t0 /\
  time_add (TDatetime t0) (datetime_sub t t0) F64.one = Ok t.
Proof.
  intros H0 H1. unfold time_add. split.
  - cbn [timedelta_mul F64.zero bind]. unfold datetime_add.
    rewrite Z.add_0_r. apply check_datetime_valid, H0.
  - rewrite timedelta_mul_one by (apply datetime_sub_valid; assumption).
    cbn [bind]. unfold datetime_add, datetime_sub.
    replace (t0 + (t - t0)) with t by lia. apply check_datetime_valid, H1.
Qed.

(** C8, as stated, fails at fraction 1: from an altitude of 12.3 m down
    to 0.4 m, [interpolate] returns 0.40000000000000036, not 0.4. *)
Lemma interpolate_1_is_not_exact :
  interpolate (Prim2SF 12.3) (Prim2SF 0.4) F64.one
    = Prim2SF 0.40000000000000036 /\
  F64.eqb (interpolate (Prim2SF 12.3) (Prim2SF 0.4) F64.one) (Prim2SF 0.4)
    = false.
Proof. vm_compute. split; reflexivity. Qed.

(** C8, amended: the time interpolated at fraction 0 is exactly the
    earlier time and at fraction 1 exactly the later one.  For altitude,
    latitude and longitude, [interpolate a b 0.0] equals the earlier
    value [a] whenever [a] is finite and [b - a] does not overflow
    (identically so unless [a] is a zero); [interpolate a b 1.0] is the
    rounded sum [a + (b - a)], which is the later value [b] only when
    that subtraction and addition happen to round to it. *)
Theorem interpolation_at_0_and_1 t0 t a b :
  valid_datetime t0 -> valid_datetime t ->
  valid_binary a = true -> valid_binary b = true ->
  F64.is_finite a = true -> F64.is_finite (b - a)%f64 = true ->
  time_add (TDatetime t0) (datetime_sub t t0) F64.zero = Ok t0 /\
  time_add (TDatetime t0) (datetime_sub t t0) F64.one = Ok t /\
  F64.eqb (interpolate a b F64.zero) a = true /\
  (F64.is_zero a = false -> interpolate a b F64.zero = a) /\
  interpolate a b F64.one = (a + (b - a))%f64.
Proof.
  intros H0 H1 Hva Hvb Ha Hf.
  destruct (time_add_0_1 t0 t H0 H1) as [Ht0 Ht1].
  destruct (interpolate_0 a b Ha Hf) as [He Hz].
  repeat split; try assumption. apply interpolate_1, sub_valid; assumption.
Qed.

Lemma interpolation_at_0_and_1_witness :
  let a := Prim2SF 12.3 in
  let b := Prim2SF 0.4 in
  time_add (TDatetime T0) (datetime_sub (T0 + 600 * US_PER_SECOND) T0) F64.zero
    = Ok T0 /\
  time_add (TDatetime T0) (datetime_sub (T0 + 600 * US_PER_SECOND) T0) F64.one
    = Ok (T0 + 600 * US_PER_SECOND) /\
  interpolate a b F64.zero = a /\
  interpolate a b F64.one = (a + (b - a))%f64.
Proof.
  intros a b.
  destruct (interpolation_at_0_and_1 T0 (T0 + 600 * US_PER_SECOND) a b)
    as (H1 & H2 & _ & H3 & H4);
    try (vm_compute; reflexivity);
    try (vm_compute; split; discriminate).
  split; [exact H1|]. split; [exact H2|]. split; [apply H3; reflexivity|].
  exact H4.
Defined.

(** ** Splits *)

Lemma make_split_eq previous milepost :
  make_split previous milepost = Ok (split_between previous milepost).
Proof. unfold make_split. rewrite mph_eq. reflexivity. Qed.

Lemma splits_from_eq previous boundaries :
  splits_from previous boundaries = Ok (splits_of previous boundaries).
Proof.
  revert previous. induction boundaries as [|m bs IH]; intros previous.
  - reflexivity.
  - cbn [splits_from splits_of]. rewrite make_split_eq. cbn [bind].
    rewrite IH. reflexivity.
Qed.

Lemma compute_splits_eq first rest mileposts :
  compute_splits (first :: rest) mileposts =
    Ok (splits_of first (mileposts ++ [final_of first rest])).
Proof.
  unfold compute_splits, final_of. cbn [head]. rewrite last_cons.
  destruct (last rest); apply splits_from_eq.
Qed.

Lemma splits_of_length previous boundaries :
  length (splits_of previous boundaries) = length boundaries.
Proof.
  revert previous. induction boundaries; intros; simpl; congruence.
Qed.

(** Split [i] runs from boundary [i] of [previous :: boundaries] to
    boundary [i] of [boundaries]. *)
Lemma splits_of_lookup previous boundaries i s :
  splits_of previous boundaries !! i = Some s ->
  exists p m,
    (previous :: boundaries) !! i = Some p /\ boundaries !! i = Some m /\
    s = split_between p m.
Proof.
  revert previous i. induction boundaries as [|b bs IH]; intros previous i H.
  - discriminate.
  - destruct i as [|i]; cbn in H.
    + injection H as <-. exists previous, b. repeat split.
    + destruct (IH b i H) as (p & m & Hp & Hm & ->).
      exists p, m. repeat split; assumption.
Qed.

Lemma splits_of_durations previous boundaries :
  sum_Z (duration <$> splits_of previous boundaries) =
    time (final_of previous boundaries) - time previous.
Proof.
  revert previous. induction boundaries as [|b bs IH]; intros previous.
  - unfold final_of. simpl. lia.
  - cbn [splits_of fmap list_fmap sum_Z foldr].
    fold (sum_Z (duration <$> splits_of b bs)). rewrite IH.
    cbn [split_between duration]. unfold datetime_sub, final_of.
    rewrite last_cons. destruct (last bs); simpl; lia.
Qed.


Lemma final_of_cons previous m boundaries :
  final_of previous (m :: boundaries) = final_of m boundaries.
Proof. unfold final_of. rewrite last_cons. destruct (last _); reflexivity. Qed.

Lemma final_of_snoc previous boundaries final :
  final_of previous (boundaries ++ [final]) = final.
Proof. unfold final_of. rewrite last_snoc. reflexivity. Qed.

Lemma splits_of_meters_exact previous m boundaries :
  exact_differences previous (m :: boundaries) ->
  exists q qf qp,
    sum_Q (meters <$> splits_of previous (m :: boundaries)) = Some q /\
    F64.to_Q (distance_meters (final_of previous (m :: boundaries))) = Some qf /\
    F64.to_Q (distance_meters previous) = Some qp /\
    Qeq q (qf - qp).
Proof.
  revert previous m. induction boundaries as [|b bs IH]; intros previous m.
  - intros [H _]. unfold exact_difference in H.
    cbn [splits_of fmap list_fmap sum_Q split_between meters].
    change (final_of previous [m]) with m.
    destruct (F64.to_Q (distance_meters previous)) as [qp|]; [|contradiction].
    destruct (F64.to_Q (distance_meters m)) as [qm|]; [|contradiction].
    destruct (F64.to_Q _) as [qd|]; [|contradiction].
    exists (qd + 0)%Q, qm, qp. do 3 (split; [reflexivity|]). rewrite H. ring.
  - intros [H Hrest]. destruct (IH m b Hrest) as (q & qf & qm & Hq & Hf & Hm & E).
    change (splits_of previous (m :: b :: bs))
      with (split_between previous m :: splits_of m (b :: bs)).
    cbn [fmap list_fmap sum_Q]. cbn [fmap list_fmap] in Hq. rewrite Hq.
    cbn [split_between meters]. unfold exact_difference in H. rewrite Hm in H.
    destruct (F64.to_Q (distance_meters previous)) as [qp|]; [|contradiction].
    destruct (F64.to_Q _) as [qd|]; [|contradiction].
    exists (qd + q)%Q, qf, qp. split; [reflexivity|]. split; [|split].
    + rewrite final_of_cons. exact Hf.
    + reflexivity.
    + rewrite H, E. ring.
Qed.

Lemma splits_of_last previous boundaries :
  end_ <$> last (splits_of previous boundaries) = time <$> last boundaries.
Proof.
  revert previous. induction boundaries as [|b bs IH]; intros previous.
  - reflexivity.
  - cbn [splits_of]. rewrite !last_cons. specialize (IH b).
    destruct (last (splits_of b bs)), (last bs); try discriminate;
      cbn in *; congruence.
Qed.

Lemma splits_of_head previous boundaries :
  start <$> head (splits_of previous boundaries) =
    (fun _ => time previous) <$> head boundaries.
Proof. destruct boundaries; reflexivity. Qed.

Lemma splits_of_chain previous boundaries i s s' :
  splits_of previous boundaries !! i = Some s ->
  splits_of previous boundaries !! S i = Some s' ->
  start s' = end_ s.
Proof.
  intros H H'.
  destruct (splits_of_lookup _ _ _ _ H) as (p & m & _ & Hm & ->).
  destruct (splits_of_lookup _ _ _ _ H') as (p' & m' & Hp' & _ & ->).
  change ((previous :: boundaries) !! S i) with (boundaries !! i) in Hp'.
  cbn [split_between start end_]. congruence.
Qed.

(** C2, as stated, fails on the meters: a track from 0.3 m to 4000.3 m
    has mileposts at miles 1 and 2, and the meters of its three Splits
    add up to 4000.0000000000005, in binary64 as in exact arithmetic not
    the 4000.0 that separates the last sample from the first. *)
Lemma split_meters_do_not_telescope :
  let first := sample_at 0 (Prim2SF 0.3) in
  let final := sample_at 1500 (Prim2SF 4000.3) in
  exists mileposts splits,
    compute_mileposts 2 [first; final] = (mileposts, Finished) /\
    compute_splits [first; final] mileposts = Ok splits /\
    length splits = 3%nat /\
    fold_left F64.add (meters <$> splits) F64.zero
      = Prim2SF 4000.0000000000005 /\
    (distance_meters final - distance_meters first)%f64 = Prim2SF 4000 /\
    match sum_Q (meters <$> splits),
          F64.to_Q (distance_meters final - distance_meters first)%f64 with
    | Some q, Some q' => Qeq_bool q q' = false
    | _, _ => False
    end.
Proof.
  do 2 eexists. split; [vm_compute; reflexivity|].
  split; [vm_compute; reflexivity|]. vm_compute. repeat split.
Qed.

(** C2, amended: for a non-empty list of recorded Trackpoints and any
    list of mileposts, [compute_splits] returns one Split per milepost
    and one more; the first starts at the time of the first recorded
    Trackpoint, each next one starts where the one before ends, the last
    ends at the time of the last recorded Trackpoint, and the durations
    add up to exactly the time between the first and the last recorded
    Trackpoint.  The meters of a Split are the binary64 difference of the
    distances of its two boundaries: they add up to the distance between
    the first and the last recorded Trackpoint when each of these
    differences is exact, and up to their rounding otherwise. *)
Theorem splits_cover_the_track first rest mileposts :
  let trackpoints := first :: rest in
  let final := final_of first rest in
  exists splits,
    compute_splits trackpoints mileposts = Ok splits /\
    length splits = S (length mileposts) /\
    start <$> head splits = Some (time first) /\
    end_ <$> last splits = Some (time final) /\
    (forall i s s',
       splits !! i = Some s -> splits !! S i = Some s' ->
       start s' = end_ s) /\
    sum_Z (duration <$> splits) = time final - time first /\
    (forall i s,
       splits !! i = Some s ->
       exists p m,
         (first :: mileposts) !! i = Some p /\
         (mileposts ++ [final]) !! i = Some m /\
         start s = time p /\ end_ s = time m /\
         duration s = time m - time p /\
         meters s = (distance_meters m - distance_meters p)%f64) /\
    (exact_differences first (mileposts ++ [final]) ->
     exists q qf q0,
       sum_Q (meters <$> splits) = Some q /\
       F64.to_Q (distance_meters final) = Some qf /\
       F64.to_Q (distance_meters first) = Some q0 /\
       Qeq q (qf - q0)).
Proof.
  intros trackpoints final.
  exists (splits_of first (mileposts ++ [final])).
  split; [apply compute_splits_eq|].
  split; [rewrite splits_of_length, length_app; simpl; lia|].
  split; [rewrite splits_of_head; destruct mileposts; reflexivity|].
  split; [rewrite splits_of_last, last_snoc; reflexivity|].
  split; [apply splits_of_chain|].
  split; [rewrite splits_of_durations, final_of_snoc; reflexivity|].
  split.
  - intros i s H.
    destruct (splits_of_lookup _ _ _ _ H) as (p & m & Hp & Hm & ->).
    exists p, m. split; [|repeat split; try assumption; reflexivity].
    apply lookup_lt_Some in Hm. rewrite length_app in Hm. cbn in Hm.
    change (first :: mileposts ++ [final])
      with ((first :: mileposts) ++ [final]) in Hp.
    rewrite lookup_app_l in Hp by (cbn; lia). exact Hp.
  - intros H.
    destruct (mileposts ++ [final]) as [|m bs] eqn:E;
      [destruct mileposts; discriminate|].
    destruct (splits_of_meters_exact first m bs H) as (q & qf & q0 & Hq & Hf & H0 & Hs).
    exists q, qf, q0. split; [exact Hq|]. split; [|split; assumption].
    rewrite <- E, final_of_snoc in Hf. exact Hf.
Qed.

(** ** Mileposts of an ascending track *)

Lemma gt_int_ceil x n :
  F64.is_finite x = true -> F64.gt_int x n = true <-> n < ceil x.
Proof.
  destruct x as [s | s | | s m e]; try discriminate; intros _;
    unfold F64.gt_int, ceil.
  - rewrite Z.ltb_lt. reflexivity.
  - destruct (0 <=? e) eqn:He; rewrite Z.ltb_lt; [reflexivity|].
    apply Z.leb_gt in He.
    assert (Hp : 0 < 2 ^ (- e)) by (apply Z.pow_pos_nonneg; lia).
    set (b := 2 ^ (- e)) in *. set (a := F64.signed s m).
    pose proof (Z.div_mod (- a) b ltac:(lia)) as Hdm.
    pose proof (Z.mod_pos_bound (- a) b Hp) as Hr. split; intros H; nia.
Qed.

Lemma floor_ceil x :
  ceil x = floor x \/ ceil x = floor x + 1.
Proof.
  destruct x as [s | s | | s m e]; try (left; reflexivity).
  unfold ceil, floor. destruct (0 <=? e) eqn:He; [left; reflexivity|].
  apply Z.leb_gt in He.
  assert (Hp : 0 < 2 ^ (- e)) by (apply Z.pow_pos_nonneg; lia).
  set (b := 2 ^ (- e)) in *. set (a := F64.signed s m).
  pose proof (Z.div_mod (- a) b ltac:(lia)) as Hdm.
  pose proof (Z.mod_pos_bound (- a) b Hp) as Hr.
  pose proof (Z.div_mod a b ltac:(lia)) as Hdm'.
  pose proof (Z.mod_pos_bound a b Hp) as Hr'. nia.
Qed.

Section IntComparison.
Local Open Scope R_scope.

Lemma gt_int_val x n :
  F64.is_finite x = true -> F64.gt_int x n = true <-> IZR n < val x.
Proof.
  destruct x as [s | s | | s m e]; try discriminate; intros _;
    unfold F64.gt_int; cbn [val].
  - rewrite Z.ltb_lt. split; intros H; [apply IZR_lt in H; exact H|].
    apply lt_IZR. exact H.
  - fold (F64.signed s m). destruct (Z.leb_spec 0 e) as [He|He]; rewrite Z.ltb_lt.
    + rewrite bpow_IZR, <- mult_IZR by exact He.
      split; intros H; [apply IZR_lt|apply lt_IZR]; exact H.
    + pose proof (bpow_pos e) as HB.
      replace (IZR n) with (IZR (n * 2 ^ (- e)) * bpow e).
      2:{ rewrite mult_IZR, <- bpow_IZR, Rmult_assoc, <- bpow_add by lia.
          replace (- e + e)%Z with 0%Z by lia. rewrite bpow_0. lra. }
      split; intros H.
      * apply IZR_lt in H. apply Rmult_lt_compat_r; assumption.
      * apply Rmult_lt_reg_r in H; [|exact HB]. apply lt_IZR. exact H.
Qed.

End IntComparison.

Section FloatOrder.
Local Open Scope R_scope.

Lemma canonical_emin m e :
  canonical_mantissa prec emax m e = true -> (emin <= e)%Z.
Proof. intros Hc. apply canonical_inv in Hc. unfold_fexp. lia. Qed.

(** Between valid floats of the same sign, the one with the smaller
    exponent is the smaller. *)
Lemma canonical_lt m1 e1 m2 e2 :
  canonical_mantissa prec emax m1 e1 = true ->
  canonical_mantissa prec emax m2 e2 = true ->
  (e1 < e2)%Z ->
  IZR (Zpos m1) * bpow e1 < IZR (Zpos m2) * bpow e2.
Proof.
  intros H1 H2 He. pose proof (canonical_emin _ _ H1) as Hmin.
  destruct (canonical_bound m1 e1 H1) as [Hu _].
  destruct (canonical_bound m2 e2 H2) as [_ Hl]. specialize (Hl ltac:(lia)).
  assert (bpow (53 + e1) <= bpow (52 + e2)) by (apply bpow_le; lia). lra.
Qed.

Lemma IZR_pos_lt m1 m2 e :
  (m1 < m2)%positive -> IZR (Zpos m1) * bpow e < IZR (Zpos m2) * bpow e.
Proof.
  intros H. apply Rmult_lt_compat_r; [apply bpow_pos|]. apply IZR_lt. lia.
Qed.

Ltac absurd_cmp :=
  let H := fresh in intros H; simpl in H; discriminate H.

(** Python's [<] on valid finite floats is the order of their values. *)
Lemma ltb_val a b :
  F64.is_finite a = true -> F64.is_finite b = true ->
  valid_binary a = true -> valid_binary b = true ->
  F64.ltb a b = true -> val a < val b.
Proof.
  destruct a as [sa | sa | | sa ma ea]; try discriminate;
    destruct b as [sb | sb | | sb mb eb]; try discriminate;
    intros _ _ Ha Hb; unfold F64.ltb, SFltb, SFcompare.
  - pose proof (pos_value_pos mb eb). rewrite val_finite. cbn [val].
    destruct sb; [absurd_cmp|]. intros _. lra.
  - pose proof (pos_value_pos ma ea). rewrite val_finite. cbn [val].
    destruct sa; [|absurd_cmp]. intros _. lra.
  - pose proof (pos_value_pos ma ea). pose proof (pos_value_pos mb eb).
    cbn [valid_binary SpecFloat.valid_binary] in Ha, Hb.
    apply andb_prop in Ha, Hb. destruct Ha as [Ha _], Hb as [Hb _].
    rewrite !val_finite.
    destruct sa, sb; try absurd_cmp; try (intros _; lra);
      destruct (Z.compare_spec ea eb) as [E|L|G]; try absurd_cmp.
    + subst eb. fold (Pos.compare ma mb).
      destruct (Pos.compare_spec ma mb) as [E|L|G]; try absurd_cmp.
      intros _. pose proof (IZR_pos_lt _ _ ea G). lra.
    + intros _. pose proof (canonical_lt _ _ _ _ Hb Ha G). lra.
    + subst eb. fold (Pos.compare ma mb).
      destruct (Pos.compare_spec ma mb) as [E|L|G]; try absurd_cmp.
      intros _. exact (IZR_pos_lt _ _ ea L).
    + intros _. exact (canonical_lt _ _ _ _ Ha Hb L).
Qed.

(** The values of valid floats are multiples of [2^emin]. *)
Lemma val_grid f :
  valid_binary f = true -> exists i, val f = IZR i * bpow emin.
Proof.
  destruct f as [s | s | | s m e]; intros Hv;
    try (exists 0%Z; cbn [val]; lra).
  cbn [valid_binary SpecFloat.valid_binary] in Hv.
  apply andb_prop in Hv. destruct Hv as [Hc _]. apply canonical_emin in Hc.
  exists (cond_Zopp s (Zpos m) * 2 ^ (e - emin))%Z. cbn [val].
  rewrite mult_IZR, <- bpow_IZR, Rmult_assoc, <- bpow_add by lia.
  f_equal. f_equal. lia.
Qed.

Lemma val_gap a b :
  valid_binary a = true -> valid_binary b = true ->
  val a < val b -> bpow emin <= val b - val a.
Proof.
  intros Ha Hb H. destruct (val_grid a Ha) as [i Hi].
  destruct (val_grid b Hb) as [j Hj]. rewrite Hi, Hj in *.
  pose proof (bpow_pos emin) as HB.
  assert (Hij : (i < j)%Z).
  { apply lt_IZR. apply Rmult_lt_reg_r with (bpow emin); assumption. }
  assert (Hij' : (i + 1 <= j)%Z) by lia. apply IZR_le in Hij'.
  rewrite plus_IZR in Hij'. nra.
Qed.

(** A result whose exact value lies between two valid finite floats is
    finite, and lies between them too. *)
Lemma round_to_between x f lo hi :
  round_to x f ->
  F64.is_finite lo = true -> valid_binary lo = true ->
  F64.is_finite hi = true -> valid_binary hi = true ->
  val lo <= x <= val hi ->
  F64.is_finite f = true /\ valid_binary f = true /\
  rounds x (val f) /\ val lo <= val f <= val hi.
Proof.
  intros (v & Hr & Hcase) _ Hlo _ Hhi [Hl Hu].
  pose proof (rounds_mono _ _ _ _ Hl (rounds_val lo Hlo) Hr) as Hvl.
  pose proof (rounds_mono _ _ _ _ Hu Hr (rounds_val hi Hhi)) as Hvu.
  pose proof (valid_val_bound lo Hlo) as Blo.
  pose proof (valid_val_bound hi Hhi) as Bhi.
  assert (Hv : Rabs v < bpow emax).
  { apply Rabs_def1; [|apply Rabs_def2 in Blo; lra].
    apply Rabs_def2 in Bhi. lra. }
  destruct Hcase as [(_ & Hf & Hval & <-) | (Hbig & _)]; [|lra].
  repeat split; assumption.
Qed.

End FloatOrder.

Lemma divide_nearest_between d c b :
  0 < b -> 0 <= c <= b ->
  (0 <= d -> 0 <= divide_nearest (d * c) b <= d) /\
  (d <= 0 -> d <= divide_nearest (d * c) b <= 0).
Proof.
  intros Hb Hc. unfold divide_nearest.
  pose proof (Z.div_mod (d * c) b ltac:(lia)) as Hdm.
  pose proof (Z.mod_pos_bound (d * c) b Hb) as Hr.
  set (q := d * c / b) in *. set (r := (d * c) mod b) in *.
  destruct ((b <? 2 * r) || (b =? 2 * r) && Z.odd q) eqn:Hup.
  - assert (Hr0 : 0 < r).
    { apply orb_prop in Hup. destruct Hup as [H|H].
      - apply Z.ltb_lt in H. lia.
      - apply andb_prop in H. destruct H as [H _]. apply Z.eqb_eq in H. lia. }
    split; intros Hd; nia.
  - split; intros Hd; nia.
Qed.

Section Miles.
Local Open Scope R_scope.

Lemma val_two_1014 : val two_1014 = bpow 1014.
Proof.
  cbn [val two_1014 cond_Zopp]. change 4503599627370496%Z with (2 ^ 52)%Z.
  rewrite <- bpow_IZR, <- bpow_add by lia. reflexivity.
Qed.

Lemma val_two_1015 : val two_1015 = bpow 1015.
Proof.
  cbn [val two_1015 cond_Zopp]. change 4503599627370496%Z with (2 ^ 52)%Z.
  rewrite <- bpow_IZR, <- bpow_add by lia. reflexivity.
Qed.

Lemma val_min_float : val min_float = bpow emin.
Proof. cbn [val min_float cond_Zopp]. rewrite Rmult_1_l. reflexivity. Qed.

Lemma val_one : val F64.one = 1.
Proof.
  cbn [val F64.one cond_Zopp]. change 4503599627370496%Z with (2 ^ 52)%Z.
  rewrite <- bpow_IZR, <- bpow_add by lia. reflexivity.
Qed.

Lemma val_MILES_PER_METER : 0 < val MILES_PER_METER < bpow (-10).
Proof.
  pose proof (pos_value_pos 5731135905912489 (-63)) as Hp.
  change (val MILES_PER_METER) with (IZR 5731135905912489 * bpow (-63)).
  split; [exact Hp|].
  replace (-10)%Z with (53 + -63)%Z by lia. rewrite bpow_add.
  apply Rmult_lt_compat_r; [apply bpow_pos|].
  rewrite bpow_IZR by lia. apply IZR_lt. reflexivity.
Qed.

Lemma val_opp_float f : val (SFopp f) = - val f.
Proof.
  destruct f as [s | s | | s m e]; cbn [SFopp val]; try lra.
  fold (val (S754_finite (negb s) m e)). fold (val (S754_finite s m e)).
  apply val_opp.
Qed.

(** The mile value of a finite distance. *)
Lemma miles_mile_value d :
  F64.is_finite d = true -> valid_binary d = true ->
  mile_value (d * MILES_PER_METER)%f64 /\
  rounds (val d * val MILES_PER_METER) (val (d * MILES_PER_METER)%f64).
Proof.
  intros Hf Hv.
  pose proof (SFmul_to d MILES_PER_METER Hf eq_refl Hv eq_refl) as Hto.
  pose proof (valid_val_bound d Hv) as Hd. apply Rabs_def2 in Hd.
  destruct val_MILES_PER_METER as [H0 H1].
  assert (Hb : bpow emax * bpow (-10) = bpow 1014)
    by (rewrite <- bpow_add; reflexivity).
  assert (Hx : - bpow 1014 <= val d * val MILES_PER_METER <= bpow 1014).
  { pose proof (bpow_pos emax). split; nra. }
  destruct (round_to_between _ _ (SFopp two_1014) two_1014 Hto
              eq_refl eq_refl eq_refl eq_refl) as (Hfin & Hval & Hr & Hbd).
  { rewrite val_opp_float, val_two_1014. exact Hx. }
  rewrite val_opp_float, val_two_1014 in Hbd.
  split; [|exact Hr]. repeat split; assumption || apply Hbd.
Qed.

(** Mile values grow with the distance. *)
Lemma miles_mono d1 d2 :
  F64.is_finite d1 = true -> valid_binary d1 = true ->
  F64.is_finite d2 = true -> valid_binary d2 = true ->
  val d1 <= val d2 ->
  val (d1 * MILES_PER_METER)%f64 <= val (d2 * MILES_PER_METER)%f64.
Proof.
  intros Hf1 Hv1 Hf2 Hv2 H.
  destruct (miles_mile_value d1 Hf1 Hv1) as [_ H1].
  destruct (miles_mile_value d2 Hf2 Hv2) as [_ H2].
  apply (rounds_mono _ _ _ _) with (2 := H1) (3 := H2).
  destruct val_MILES_PER_METER as [H0 _]. nra.
Qed.

End Miles.

Section Fraction.
Local Open Scope R_scope.

(** The fraction of the way from the previous sample at which mile [j]
    lies is a finite float between 0 and 1. *)
Lemma fraction_ok j P M :
  mile_value P -> mile_value M -> val P <= IZR j < val M ->
  F64.is_finite (F64.of_Z j) = true /\
  exists f,
    py_truediv (F64.of_Z j - P)%f64 (M - P)%f64 = Ok f /\
    F64.is_finite f = true /\ 0 <= val f <= 1.
Proof.
  intros (HfP & HvP & HbP) (HfM & HvM & HbM) [Hlo Hhi].
  destruct (round_to_between _ _ P M (of_Z_to j) HfP HvP HfM HvM
              ltac:(lra)) as (Hfn & Hvn & Hrn & Hbn).
  fold (F64.of_Z j) in *. set (n := F64.of_Z j) in *.
  split; [exact Hfn|].
  assert (H1015 : bpow 1015 = 2 * bpow 1014)
    by (change 1015%Z with (1014 + 1)%Z; apply bpow_succ).
  (* the numerator *)
  pose proof (SFsub_to n P Hfn HfP Hvn HvP) as Hx.
  destruct (round_to_between _ _ (S754_zero false) two_1015 Hx
              eq_refl eq_refl eq_refl eq_refl) as (Hfx & Hvx & Hrx & Hbx).
  { rewrite val_two_1015. change (val (S754_zero false)) with 0. lra. }
  (* the denominator *)
  pose proof (SFsub_to M P HfM HfP HvM HvP) as Hy.
  pose proof (val_gap P M HvP HvM ltac:(lra)) as Hgap.
  destruct (round_to_between _ _ min_float two_1015 Hy
              eq_refl eq_refl eq_refl eq_refl) as (Hfy & Hvy & Hry & Hby).
  { rewrite val_two_1015, val_min_float. lra. }
  rewrite val_min_float in Hby. change (val (S754_zero false)) with 0 in Hbx.
  pose proof (bpow_pos emin) as Hmin.
  assert (Hxy : val (SF64sub n P) <= val (SF64sub M P)).
  { apply (rounds_mono _ _ _ _) with (2 := Hrx) (3 := Hry). lra. }
  change (n - P)%f64 with (SF64sub n P). change (M - P)%f64 with (SF64sub M P).
  set (x := SF64sub n P) in *. set (y := SF64sub M P) in *.
  destruct y as [sy | sy | | sy my ey] eqn:Ey; try discriminate Hfy.
  { change (val (S754_zero sy)) with 0 in Hby. lra. }
  unfold py_truediv. cbn [F64.is_zero]. eexists. split; [reflexivity|].
  pose proof (SFdiv_to x sy my ey Hfx) as Hdiv.
  destruct (round_to_between _ _ (S754_zero false) F64.one Hdiv
              eq_refl eq_refl eq_refl eq_refl) as (Hff & _ & _ & Hbf).
  { rewrite val_one. change (val (S754_zero false)) with 0. split.
    - apply Rmult_le_pos; [lra|]. apply Rlt_le, Rinv_0_lt_compat. lra.
    - apply Rmult_le_reg_r with (val (S754_finite sy my ey)); [lra|].
      unfold Rdiv. rewrite Rmult_assoc, Rinv_l by lra. lra. }
  rewrite val_one in Hbf. change (val (S754_zero false)) with 0 in Hbf.
  split; [exact Hff|]. exact Hbf.
Qed.

End Fraction.

Lemma IZR_pos_le_bpow_opp m e :
  (IZR (Zpos m) * bpow e <= 1)%R -> e < 0 -> Zpos m <= 2 ^ (- e).
Proof.
  intros H He. apply le_IZR. rewrite <- bpow_IZR by lia.
  pose proof (bpow_pos e) as HB.
  apply Rmult_le_reg_r with (bpow e); [exact HB|].
  rewrite <- bpow_add. replace (- e + e) with 0 by lia. rewrite bpow_0. exact H.
Qed.

(** A timedelta times a fraction between 0 and 1 lies between zero and
    the timedelta. *)
Lemma timedelta_mul_fraction d f :
  valid_timedelta d -> F64.is_finite f = true -> (0 <= val f <= 1)%R ->
  exists r, timedelta_mul d f = Ok r /\
            (0 <= d -> 0 <= r <= d) /\ (d <= 0 -> d <= r <= 0).
Proof.
  intros Hd Hf [H0 H1].
  destruct f as [s | s | | s m e]; try discriminate Hf.
  - exists 0. split; [reflexivity|]. lia.
  - pose proof (pos_value_pos m e) as Hpos. rewrite val_finite in H0, H1.
    destruct s; [lra|]. unfold timedelta_mul. cbn [F64.signed cond_Zopp].
    assert (Hbetween : forall r,
              (0 <= d -> 0 <= r <= d) /\ (d <= 0 -> d <= r <= 0) ->
              check_timedelta r = Ok r).
    { intros r Hr. apply check_timedelta_valid.
      unfold valid_timedelta, TIMEDELTA_MIN, TIMEDELTA_MAX, US_PER_DAY,
        US_PER_SECOND in *. lia. }
    destruct (Z.leb_spec 0 e) as [He|He].
    + assert (Hone : Zpos m * 2 ^ e = 1).
      { assert (Zpos m * 2 ^ e <= 1).
        { apply le_IZR. rewrite mult_IZR, <- bpow_IZR by lia. exact H1. }
        assert (0 < 2 ^ e) by (apply Z.pow_pos_nonneg; lia). nia. }
      rewrite Hone, Z.mul_1_r. exists d.
      split; [apply Hbetween|]; lia.
    + pose proof (IZR_pos_le_bpow_opp m e H1 He) as Hm.
      assert (Hb : 0 < 2 ^ (- e)) by (apply Z.pow_pos_nonneg; lia).
      pose proof (divide_nearest_between d (Zpos m) (2 ^ (- e)) Hb
                    ltac:(lia)) as Hdn.
      eexists. split; [apply Hbetween, Hdn|exact Hdn].
Qed.

Lemma time_add_fraction t0 t f :
  valid_datetime t0 -> valid_datetime t ->
  F64.is_finite f = true -> (0 <= val f <= 1)%R ->
  exists t', time_add (TDatetime t0) (datetime_sub t t0) f = Ok t'.
Proof.
  intros H0 H1 Hf Hv.
  destruct (timedelta_mul_fraction (datetime_sub t t0) f
              (datetime_sub_valid t t0 H1 H0) Hf Hv) as (r & Hr & Hp & Hn).
  unfold time_add. rewrite Hr. cbn [bind]. unfold datetime_add.
  exists (t0 + r). apply check_datetime_valid.
  unfold valid_datetime, datetime_sub in *. lia.
Qed.

Lemma py_truediv_MILES_PER_METER n :
  py_truediv n MILES_PER_METER = Ok (n / MILES_PER_METER)%f64.
Proof. reflexivity. Qed.

(** Between two valid samples the milepost of a mile [j] that lies
    between their mile values is synthesized without error. *)
Lemma milepost_ok j pp point :
  valid_sample pp -> valid_sample point ->
  (val (miles_of pp) <= IZR j < val (miles_of point))%R ->
  exists m,
    milepost (state_after j pp) point (miles_of point) = Ok m /\
    distance_meters m = (F64.of_Z j / MILES_PER_METER)%f64.
Proof.
  intros (Htp & Hfp & Hvp) (Htq & Hfq & Hvq) Hj.
  destruct (miles_mile_value _ Hfp Hvp) as [HP _].
  destruct (miles_mile_value _ Hfq Hvq) as [HM _].
  destruct (fraction_ok j _ _ HP HM Hj) as (Hn & f & Hfrac & Hff & Hfv).
  destruct (time_add_fraction (time pp) (time point) f Htp Htq Hff Hfv)
    as [t' Ht'].
  unfold milepost, state_after.
  cbn [next_mile previous_time previous_miles previous_point].
  unfold float_of_int. rewrite Hn. cbn [bind].
  unfold miles_of in *. rewrite Hfrac. cbn [bind time_sub].
  rewrite Ht'. cbn [bind read_previous_point previous_point].
  rewrite py_truediv_MILES_PER_METER. cbn [bind].
  eexists. split; reflexivity.
Qed.

Lemma mileposts_from_nil j : mileposts_from j [].
Proof. intros i m H. discriminate H. Qed.

Lemma mileposts_from_cons j m ms :
  distance_meters m = (F64.of_Z j / MILES_PER_METER)%f64 ->
  mileposts_from (j + 1) ms -> mileposts_from j (m :: ms).
Proof.
  intros Hm Hms [|i] m' H.
  - injection H as <-. rewrite Z.add_0_r. exact Hm.
  - rewrite (Hms i m' H). do 2 f_equal. lia.
Qed.

Lemma mileposts_from_app j ms ms' :
  mileposts_from j ms -> mileposts_from (j + Z.of_nat (length ms)) ms' ->
  mileposts_from j (ms ++ ms').
Proof.
  intros H H' i m Hi. destruct (lookup_app_Some ms ms' i m) as [Hcase _].
  destruct (Hcase Hi) as [Hl | [Hge Hr]].
  - exact (H i m Hl).
  - rewrite (H' _ m Hr). do 2 f_equal. lia.
Qed.

Lemma gt_int_le x y n :
  F64.is_finite x = true -> F64.is_finite y = true ->
  (val x <= val y)%R -> F64.gt_int x n = true -> F64.gt_int y n = true.
Proof.
  intros Hx Hy Hxy H. apply (gt_int_val x n Hx) in H.
  apply (gt_int_val y n Hy). lra.
Qed.

(** The [while] loop between two valid samples: it runs to the first
    mile that the sample has not passed. *)
Lemma while_loop_ok U fuel : forall j pp point,
  valid_sample pp -> valid_sample point ->
  (val (miles_of pp) <= IZR j)%R -> j <= U ->
  F64.gt_int (miles_of point) U = false ->
  (Z.to_nat (U - j) <= fuel)%nat ->
  exists ms n,
    while_loop fuel (state_after j pp) point (miles_of point)
      = (ms, Finished, n) /\
    n = j + Z.of_nat (length ms) /\ n <= U /\
    F64.gt_int (miles_of point) n = false /\
    (j < n -> F64.gt_int (miles_of point) (n - 1) = true) /\
    mileposts_from j ms.
Proof.
  induction fuel as [|fuel IH]; intros j pp point Hpp Hpt HP HU HMU Hfuel.
  - assert (j = U) by lia. subst j.
    exists [], U. cbn [while_loop state_after next_mile]. rewrite HMU.
    cbn [length]. repeat split; try lia; try assumption.
    apply mileposts_from_nil.
  - destruct (F64.gt_int (miles_of point) j) eqn:Hgt.
    + assert (Hlt : j < U).
      { destruct (Z.eq_dec j U) as [->|]; [congruence|lia]. }
      destruct Hpt as (Htq & Hfq & Hvq).
      destruct (miles_mile_value _ Hfq Hvq) as [(HfM & _) _].
      pose proof (proj1 (gt_int_val _ j HfM) Hgt) as HjM.
      destruct (milepost_ok j pp point Hpp (conj Htq (conj Hfq Hvq))
                  (conj HP HjM)) as (m & Hm & Hdist).
      destruct (IH (j + 1) pp point Hpp (conj Htq (conj Hfq Hvq)))
        as (ms & n & Hloop & Hn & HnU & Hend & Hprev & Hfrom);
        try lia; try assumption.
      { rewrite plus_IZR. lra. }
      exists (m :: ms), n. cbn [while_loop].
      change (next_mile (state_after j pp)) with j. rewrite Hgt, Hm.
      change {| next_mile := j + 1;
                previous_time := previous_time (state_after j pp);
                previous_miles := previous_miles (state_after j pp);
                previous_point := previous_point (state_after j pp) |}
        with (state_after (j + 1) pp).
      rewrite Hloop. cbn [length]. repeat split; try lia; try assumption.
      * intros _. destruct (Z.eq_dec n (j + 1)) as [->|Hne].
        -- replace (j + 1 - 1) with j by lia. exact Hgt.
        -- apply Hprev. lia.
      * apply mileposts_from_cons; assumption.
    + exists [], j. cbn [while_loop].
      change (next_mile (state_after j pp)) with j. rewrite Hgt.
      cbn [length]. repeat split; try lia; try assumption.
      apply mileposts_from_nil.
Qed.

Section CeilFloor.
Local Open Scope R_scope.

Lemma ceil_val x :
  F64.is_finite x = true -> IZR (ceil x) - 1 < val x <= IZR (ceil x).
Proof.
  intros Hx. split.
  - replace (IZR (ceil x) - 1) with (IZR (ceil x - 1)) by (rewrite minus_IZR; lra).
    apply (gt_int_val x _ Hx), (gt_int_ceil x _ Hx). lia.
  - destruct (Rle_or_lt (val x) (IZR (ceil x))) as [H|H]; [exact H|].
    apply (gt_int_val x _ Hx), (gt_int_ceil x _ Hx) in H. lia.
Qed.

Lemma floor_val x :
  F64.is_finite x = true -> IZR (floor x) <= val x < IZR (floor x) + 1.
Proof.
  destruct x as [s | s | | s m e]; try discriminate; intros _;
    unfold floor; cbn [val]; [lra|].
  fold (F64.signed s m). destruct (Z.leb_spec 0 e) as [He|He].
  - rewrite bpow_IZR, <- mult_IZR by exact He. lra.
  - pose proof (bpow_pos e) as HB.
    assert (Hp : (0 < 2 ^ (- e))%Z) by (apply Z.pow_pos_nonneg; lia).
    set (a := F64.signed s m). set (q := (a / 2 ^ (- e))%Z).
    pose proof (Z.div_mod a (2 ^ (- e)) ltac:(lia)) as Hdm.
    pose proof (Z.mod_pos_bound a (2 ^ (- e)) Hp) as Hr. fold q in Hdm.
    assert (Hs : forall n : Z, IZR n = IZR (n * 2 ^ (- e)) * bpow e).
    { intros n. rewrite mult_IZR, <- bpow_IZR, Rmult_assoc, <- bpow_add by lia.
      replace (- e + e)%Z with 0%Z by lia. rewrite bpow_0. lra. }
    split.
    + rewrite (Hs q). apply Rmult_le_compat_r; [lra|]. apply IZR_le. lia.
    + replace (IZR q + 1) with (IZR (q + 1)) by (rewrite plus_IZR; lra).
      rewrite (Hs (q + 1)%Z). apply Rmult_lt_compat_r; [exact HB|].
      apply IZR_lt. lia.
Qed.

Lemma ceil_mono x y :
  F64.is_finite x = true -> F64.is_finite y = true ->
  val x <= val y -> (ceil x <= ceil y)%Z.
Proof.
  intros Hx Hy H. pose proof (ceil_val x Hx) as Hcx.
  pose proof (ceil_val y Hy) as Hcy.
  assert (Hlt : IZR (ceil x - 1) < IZR (ceil y)) by (rewrite minus_IZR; lra).
  apply lt_IZR in Hlt. lia.
Qed.

Lemma ceil_fractional x :
  F64.is_finite x = true -> val x <> IZR (floor x) ->
  ceil x = (floor x + 1)%Z.
Proof.
  intros Hx Hne. pose proof (ceil_val x Hx) as Hc.
  pose proof (floor_val x Hx) as Hf.
  assert (H1 : IZR (floor x) < IZR (ceil x)) by lra. apply lt_IZR in H1.
  assert (H2 : IZR (ceil x - 1) < IZR (floor x + 1)).
  { rewrite minus_IZR, plus_IZR. lra. }
  apply lt_IZR in H2. lia.
Qed.

Lemma ceil_whole x :
  F64.is_finite x = true -> val x = IZR (floor x) -> ceil x = floor x.
Proof.
  intros Hx He. pose proof (ceil_val x Hx) as Hc. rewrite He in Hc.
  assert (H1 : IZR (floor x) <= IZR (ceil x)) by lra. apply le_IZR in H1.
  assert (H2 : IZR (ceil x - 1) < IZR (floor x)).
  { rewrite minus_IZR. lra. }
  apply lt_IZR in H2. lia.
Qed.

Lemma ascending_final points : forall pp,
  valid_sample pp -> Forall valid_sample points -> ascending pp points ->
  valid_sample (final_of pp points) /\
  val (miles_of pp) <= val (miles_of (final_of pp points)).
Proof.
  induction points as [|point points IH]; intros pp Hpp Hall Hasc.
  - split; [exact Hpp|]. unfold final_of. cbn. lra.
  - rewrite final_of_cons. destruct Hasc as [Hlt Hasc].
    pose proof (Forall_inv Hall) as Hpt.
    pose proof (Forall_inv_tail Hall) as Htl.
    destruct (IH point Hpt Htl Hasc) as [Hv Hle]. split; [exact Hv|].
    destruct Hpp as (_ & Hfp & Hvp). destruct Hpt as (_ & Hfq & Hvq).
    pose proof (ltb_val _ _ Hfp Hfq Hvp Hvq Hlt) as Hd.
    pose proof (miles_mono _ _ Hfp Hvp Hfq Hvq ltac:(lra)) as Hm.
    unfold miles_of in *. lra.
Qed.

End CeilFloor.

Lemma miles_of_finite p : valid_sample p -> F64.is_finite (miles_of p) = true.
Proof.
  intros (_ & Hf & Hv). destruct (miles_mile_value _ Hf Hv) as [(H & _) _].
  exact H.
Qed.

(** The [for] loop past the first sample: between a sample and the end of
    an ascending track it yields one milepost for each mile from the first
    one that the sample has not passed to the last one that the final
    sample has passed. *)
Lemma for_loop_ok fuel points : forall pp,
  valid_sample pp -> Forall valid_sample points -> ascending pp points ->
  let j := Z.max 1 (ceil (miles_of pp)) in
  let n := Z.max 1 (ceil (miles_of (final_of pp points))) in
  (Z.to_nat (n - j) <= fuel)%nat ->
  exists ms,
    for_loop fuel (state_after j pp) points = (ms, Finished) /\
    length ms = Z.to_nat (n - j) /\
    mileposts_from j ms.
Proof.
  induction points as [|point points IH]; intros pp Hpp Hall Hasc j n Hfuel.
  - exists []. cbn [for_loop length]. subst j n. unfold final_of. cbn.
    split; [reflexivity|]. split; [lia|]. apply mileposts_from_nil.
  - pose proof (Forall_inv Hall) as Hpt.
    pose proof (Forall_inv_tail Hall) as Htl.
    pose proof Hasc as [Hlt Hasc'].
    pose proof (miles_of_finite pp Hpp) as HfP.
    pose proof (miles_of_finite point Hpt) as HfM.
    assert (Hone : Forall valid_sample [point])
      by (constructor; [exact Hpt | constructor]).
    destruct (ascending_final [point] pp Hpp Hone (conj Hlt I)) as [_ HPM].
    change (final_of pp [point]) with point in HPM.
    destruct (ascending_final points point Hpt Htl Hasc') as [Hlast HML].
    pose proof (miles_of_finite _ Hlast) as HfL.
    pose proof (ceil_mono _ _ HfP HfM HPM) as HcPM.
    pose proof (ceil_mono _ _ HfM HfL HML) as HcML.
    subst n. rewrite final_of_cons in Hfuel |- *.
    set (U := Z.max 1 (ceil (miles_of point))).
    set (n := Z.max 1 (ceil (miles_of (final_of point points)))) in *.
    destruct (while_loop_ok U fuel j pp point Hpp Hpt)
      as (ms & k & Hloop & Hk & HkU & Hend & _ & Hfrom).
    { pose proof (ceil_val _ HfP) as Hc.
      assert (IZR (ceil (miles_of pp)) <= IZR j)%R by (apply IZR_le; lia).
      lra. }
    { lia. }
    { destruct (F64.gt_int (miles_of point) U) eqn:Hgt; [|reflexivity].
      apply (gt_int_ceil _ _ HfM) in Hgt. lia. }
    { lia. }
    assert (HkU' : k = U).
    { destruct (F64.gt_int (miles_of point) k) eqn:Hgt; [discriminate|].
      assert (~ k < ceil (miles_of point)).
      { intros Hc. apply (gt_int_ceil _ _ HfM) in Hc. congruence. }
      lia. }
    rewrite HkU' in Hloop, Hk. clear HkU' HkU Hend.
    destruct (IH point Hpt Htl Hasc') as (ms' & Hfor & Hlen & Hfrom').
    { fold U n. lia. }
    fold U n in Hfor, Hlen, Hfrom'.
    exists (ms ++ ms'). cbn [for_loop].
    change (distance_meters point * MILES_PER_METER)%f64 with (miles_of point).
    rewrite Hloop.
    change {| next_mile := U;
              previous_time := TDatetime (time point);
              previous_miles := miles_of point;
              previous_point := Some point |}
      with (state_after U point).
    rewrite Hfor. split; [reflexivity|]. split.
    + rewrite length_app, Hlen. lia.
    + apply mileposts_from_app; [exact Hfrom|]. rewrite <- Hk. exact Hfrom'.
Qed.

(** C1, amended: on a track of valid samples with strictly increasing
    [distance_meters] whose first sample is not beyond mile 1,
    [compute_mileposts] finishes without an exception and yields exactly
    [ceil last_mile - 1] Trackpoints, where [last_mile] is the mile value
    of the final sample: one for each int [k >= 1] with [last_mile > k]
    and none beyond, the [k]-th at [distance_meters = k / MILES_PER_METER].
    That count is [floor last_mile] unless [last_mile] is a whole number,
    and one less when it is. *)
Theorem mileposts_of_ascending_track fuel first rest :
  Forall valid_sample (first :: rest) ->
  ascending first rest ->
  F64.gt_int (miles_of first) 1 = false ->
  let last_mile := miles_of (final_of first rest) in
  let count := Z.to_nat (ceil last_mile - 1) in
  (count <= fuel)%nat ->
  exists ms,
    compute_mileposts fuel (first :: rest) = (ms, Finished) /\
    length ms = count /\
    (forall k, 1 <= k ->
       k <= Z.of_nat count <-> F64.gt_int last_mile k = true) /\
    (forall i m, ms !! i = Some m ->
       distance_meters m
       = (F64.of_Z (1 + Z.of_nat i) / MILES_PER_METER)%f64) /\
    (val last_mile <> IZR (floor last_mile) ->
       Z.of_nat count = Z.max 0 (floor last_mile)) /\
    (val last_mile = IZR (floor last_mile) ->
       Z.of_nat count = Z.max 0 (floor last_mile - 1)).
Proof.
  intros Hall Hasc Hfirst last_mile count Hfuel.
  pose proof (Forall_inv Hall) as Hf. pose proof (Forall_inv_tail Hall) as Htl.
  pose proof (miles_of_finite first Hf) as HfF.
  destruct (ascending_final rest first Hf Htl Hasc) as [Hlast Hle].
  pose proof (miles_of_finite _ Hlast) as HfL. fold last_mile in HfL, Hle.
  assert (Hc1 : ceil (miles_of first) <= 1).
  { destruct (Z.le_gt_cases (ceil (miles_of first)) 1) as [H|H]; [exact H|].
    apply (gt_int_ceil _ _ HfF) in H. congruence. }
  destruct (for_loop_ok fuel rest first Hf Htl Hasc) as (ms & Hfor & Hlen & Hfrom).
  { fold last_mile. subst count. lia. }
  fold last_mile in Hlen.
  replace (Z.max 1 (ceil (miles_of first))) with 1 in Hfor, Hlen, Hfrom by lia.
  assert (Hcount : Z.to_nat (Z.max 1 (ceil last_mile) - 1) = count)
    by (subst count; lia).
  exists ms. split; [|split; [|split; [|split; [|split]]]].
  - unfold compute_mileposts. cbn [for_loop].
    change (distance_meters first * MILES_PER_METER)%f64 with (miles_of first).
    rewrite (while_loop_false fuel initial_state first (miles_of first) Hfirst).
    cbn [app next_mile initial_state].
    change {| next_mile := 1;
              previous_time := TDatetime (time first);
              previous_miles := miles_of first;
              previous_point := Some first |}
      with (state_after 1 first).
    rewrite Hfor. reflexivity.
  - rewrite Hlen. exact Hcount.
  - intros k Hk. rewrite (gt_int_ceil _ _ HfL). subst count. lia.
  - exact Hfrom.
  - intros Hne. rewrite (ceil_fractional _ HfL Hne) in *. subst count. lia.
  - intros He. rewrite (ceil_whole _ HfL He) in *. subst count. lia.
Qed.

Lemma mileposts_of_ascending_track_witness :
  exists ms,
    compute_mileposts 2
      [sample_at 0 (Prim2SF 0); sample_at 600 (Prim2SF 2000);
       sample_at 1000 (Prim2SF 3300)] = (ms, Finished) /\
    length ms = 2%nat.
Proof.
  destruct (mileposts_of_ascending_track 2 (sample_at 0 (Prim2SF 0))
              [sample_at 600 (Prim2SF 2000); sample_at 1000 (Prim2SF 3300)])
    as (ms & H & Hlen & _).
  - repeat constructor; vm_compute; congruence.
  - repeat split.
  - reflexivity.
  - vm_compute. lia.
  - exists ms. split; [exact H | exact Hlen].
Defined.

(** C1, as stated, fails on a track that ends on a whole mile: with the
    last sample at 1609.3444978925634 m, which is exactly 1.0 mile,
    [floor last_mile] is 1 and no milepost is emitted. *)
Lemma whole_mile_finish_emits_no_milepost :
  let first := sample_at 0 (Prim2SF 0) in
  let final := sample_at 600 (Prim2SF 1609.3444978925634) in
  ascending first [final] /\
  miles_of final = F64.one /\
  floor (miles_of final) = 1 /\
  forall fuel, compute_mileposts fuel [first; final] = ([], Finished).
Proof.
  split; [|split; [|split]].
  - split; reflexivity.
  - reflexivity.
  - reflexivity.
  - intros fuel. unfold compute_mileposts. cbn [for_loop].
    rewrite !while_loop_false by reflexivity. reflexivity.
Qed.

(** * Further properties *)

(** ** What the milepost loops yield, whatever the track *)

(** [x > n] is no truer for a larger [n]. *)
Lemma gt_int_antitone x n n' :
  n <= n' -> F64.gt_int x n = false -> F64.gt_int x n' = false.
Proof.
  intros Hn. destruct x as [s | s | | s m e]; cbn [F64.gt_int];
    try (intros H; exact H).
  - rewrite !Z.ltb_ge. lia.
  - destruct (0 <=? e); rewrite !Z.ltb_ge.
    + generalize (F64.signed s m * 2 ^ e). lia.
    + assert (0 <= 2 ^ (- e)) by (apply Z.pow_nonneg; lia).
      generalize dependent (2 ^ (- e)). generalize (F64.signed s m). nia.
Qed.

(** What the [while] loop on one sample yields and how it ends. *)
Lemma while_loop_inv fuel : forall st j point miles ms e n,
  while_loop fuel (at_mile st j) point miles = (ms, e, n) ->
  n = j + Z.of_nat (length ms) /\
  (forall i m, ms !! i = Some m ->
     F64.gt_int miles (j + Z.of_nat i) = true /\
     milepost (at_mile st (j + Z.of_nat i)) point miles = Ok m) /\
  match e with
  | Finished => F64.gt_int miles n = false
  | Raised x =>
      F64.gt_int miles n = true /\
      milepost (at_mile st n) point miles = Raise x
  | OutOfFuel => F64.gt_int miles n = true /\ length ms = fuel
  end.
Proof.
  induction fuel as [|fuel IH]; intros st j point miles ms e n H.
  - cbn [while_loop at_mile next_mile] in H.
    destruct (F64.gt_int miles j) eqn:Hgt; injection H as <- <- <-;
      cbn [length]; rewrite Z.add_0_r;
      (split; [reflexivity|]; split; [intros i m Hi; discriminate Hi|]);
      [split; [exact Hgt | reflexivity] | exact Hgt].
  - cbn [while_loop] in H. change (next_mile (at_mile st j)) with j in H.
    destruct (F64.gt_int miles j) eqn:Hgt.
    + destruct (milepost (at_mile st j) point miles) as [m0|x] eqn:Hm.
      * change {| next_mile := j + 1;
                  previous_time := previous_time (at_mile st j);
                  previous_miles := previous_miles (at_mile st j);
                  previous_point := previous_point (at_mile st j) |}
          with (at_mile st (j + 1)) in H.
        destruct (while_loop fuel (at_mile st (j + 1)) point miles)
          as [[ms' e'] n'] eqn:Hloop.
        injection H as <- <- <-.
        destruct (IH _ _ _ _ _ _ _ Hloop) as (Hn & Hms & He).
        cbn [length]. split; [lia|]. split.
        -- intros [|i] m Hi.
           ++ injection Hi as <-. rewrite Z.add_0_r. split; assumption.
           ++ destruct (Hms i m Hi) as [H1 H2].
              replace (j + Z.of_nat (S i)) with (j + 1 + Z.of_nat i) by lia.
              split; assumption.
        -- destruct e'; [exact He | exact He |].
           destruct He as [He1 He2]. split; [exact He1|]. lia.
      * injection H as <- <- <-. cbn [length]. rewrite Z.add_0_r.
        split; [reflexivity|]. split; [intros i m Hi; discriminate Hi|].
        split; assumption.
    + injection H as <- <- <-. cbn [length]. rewrite Z.add_0_r.
      split; [reflexivity|]. split; [intros i m Hi; discriminate Hi|].
      exact Hgt.
Qed.

Lemma at_mile_state_after j j' pp :
  at_mile (state_after j pp) j' = state_after j' pp.
Proof. reflexivity. Qed.

Lemma state_after_at_mile j pp :
  state_after j pp = at_mile (state_after j pp) j.
Proof. reflexivity. Qed.

Lemma synthesized_cons p track r :
  synthesized track r -> synthesized (p :: track) r.
Proof.
  intros (pre & pp & point & post & j & -> & H).
  exists (p :: pre), pp, point, post, j. split; [reflexivity | exact H].
Qed.

(** What the [for] loop yields past a sample [p0], and how it can raise:
    every outcome is that of a milepost between two consecutive
    samples. *)
Lemma for_loop_inv fuel points : forall p0 n0 ms e,
  1 <= n0 -> F64.gt_int (miles_of p0) n0 = false ->
  for_loop fuel (state_after n0 p0) points = (ms, e) ->
  Forall (fun m => synthesized (p0 :: points) (Ok m)) ms /\
  forall x, e = Raised x -> synthesized (p0 :: points) (Raise x).
Proof.
  induction points as [|point points IH]; intros p0 n0 ms e Hn0 Hp0 H.
  - injection H as <- <-. split; [constructor | discriminate].
  - cbn [for_loop] in H.
    change (distance_meters point * MILES_PER_METER)%f64
      with (miles_of point) in H.
    rewrite (state_after_at_mile n0 p0) in H.
    destruct (while_loop fuel (at_mile (state_after n0 p0) n0) point
                (miles_of point)) as [[ms1 e1] n1] eqn:Hloop.
    destruct (while_loop_inv _ _ _ _ _ _ _ _ Hloop) as (Hn1 & Hms1 & He1).
    assert (Hhere : Forall (fun m => synthesized (p0 :: point :: points) (Ok m))
                      ms1).
    { apply Forall_lookup_2. intros i m Hi. destruct (Hms1 i m Hi) as [Hgt Hm].
      exists [], p0, point, points, (n0 + Z.of_nat i).
      split; [reflexivity|]. split; [lia|]. split.
      - apply (gt_int_antitone _ n0); [lia | exact Hp0].
      - split; [exact Hgt | exact Hm]. }
    destruct e1 as [|x1|].
    + change {| next_mile := n1;
                previous_time := TDatetime (time point);
                previous_miles := miles_of point;
                previous_point := Some point |}
        with (state_after n1 point) in H.
      destruct (for_loop fuel (state_after n1 point) points) as [ms2 e2] eqn:Hfor.
      injection H as <- <-.
      destruct (IH point n1 ms2 e2 ltac:(lia) He1 Hfor) as [Hms2 He2].
      split.
      * apply Forall_app. split; [exact Hhere|].
        eapply Forall_impl; [exact Hms2|]. intros m. apply synthesized_cons.
      * intros x Hx. apply synthesized_cons, He2, Hx.
    + injection H as <- <-. split; [exact Hhere|].
      intros x Hx. injection Hx as <-. destruct He1 as [Hgt Hm].
      exists [], p0, point, points, n1.
      split; [reflexivity|]. split; [lia|]. split.
      * apply (gt_int_antitone _ n0); [lia | exact Hp0].
      * split; [exact Hgt | exact Hm].
    + injection H as <- <-. split; [exact Hhere | discriminate].
Qed.

(** On the first sample the loop body cannot run: [previous_time] is
    still an int. *)
Lemma milepost_initial_state point miles j :
  1 <= j -> F64.gt_int miles j = true ->
  milepost (at_mile initial_state j) point miles = Raise TypeError \/
  milepost (at_mile initial_state j) point miles = Raise OverflowError.
Proof.
  intros Hj Hgt. unfold milepost.
  cbn [next_mile previous_miles previous_time at_mile initial_state].
  unfold float_of_int. destruct (F64.is_finite (F64.of_Z j)); [|right; reflexivity].
  cbn [bind]. unfold py_truediv.
  rewrite (sub_zero_r _ (gt_int_not_zero _ j ltac:(lia) Hgt)).
  rewrite (gt_int_not_zero _ j ltac:(lia) Hgt). left. reflexivity.
Qed.

(** ** One milepost, whatever the floats *)

(** The mile value of a valid distance is a bounded finite float, an
    infinity or not-a-number. *)
Lemma miles_classes d :
  valid_binary d = true ->
  mile_value (d * MILES_PER_METER)%f64 \/
  (exists s, (d * MILES_PER_METER)%f64 = S754_infinity s) \/
  (d * MILES_PER_METER)%f64 = S754_nan.
Proof.
  intros Hv. destruct d as [s | s | | s m e] eqn:Ed.
  - left. apply (miles_mile_value (S754_zero s)); [reflexivity | exact Hv].
  - right. left. exists s. destruct s; reflexivity.
  - right. right. reflexivity.
  - left. apply (miles_mile_value (S754_finite s m e)); [reflexivity | exact Hv].
Qed.

(** A fraction as the loop needs it: not-a-number, on which the product
    with the timedelta raises, or a finite float between 0 and 1. *)
Definition fraction_like (f : float64) : Prop :=
  f = S754_nan \/ (F64.is_finite f = true /\ (0 <= val f <= 1)%R).

Lemma fraction_like_nan : fraction_like S754_nan.
Proof. left. reflexivity. Qed.

Lemma fraction_like_zero s : fraction_like (S754_zero s).
Proof. right. split; [reflexivity|]. cbn [val]. lra. Qed.

Lemma sub_nan_r x : (x - S754_nan)%f64 = S754_nan.
Proof. destruct x; reflexivity. Qed.

Lemma div_nan_r x : (x / S754_nan)%f64 = S754_nan.
Proof. destruct x; reflexivity. Qed.

Lemma div_nan_l x : (S754_nan / x)%f64 = S754_nan.
Proof. destruct x; reflexivity. Qed.

Lemma sub_neg_infinity_r x :
  x <> S754_nan -> x <> S754_infinity true ->
  (x - S754_infinity true)%f64 = S754_infinity false.
Proof. destruct x as [s | [|] | | s m e]; try reflexivity; congruence. Qed.

Lemma sub_pos_infinity_l x :
  x <> S754_nan -> x <> S754_infinity false ->
  (S754_infinity false - x)%f64 = S754_infinity false.
Proof. destruct x as [s | [|] | | s m e]; try reflexivity; congruence. Qed.

Lemma div_infinity_r x :
  fraction_like (x / S754_infinity false)%f64.
Proof.
  destruct x as [s | s | | s m e]; cbn;
    try apply fraction_like_nan; apply fraction_like_zero.
Qed.

Lemma gt_int_true_class x j :
  F64.gt_int x j = true ->
  x = S754_infinity false \/ F64.is_finite x = true.
Proof.
  destruct x as [s | [|] | | s m e]; cbn [F64.gt_int negb];
    try discriminate; intros _; auto.
Qed.

Lemma gt_int_false_class x j :
  F64.gt_int x j = false ->
  x = S754_nan \/ x = S754_infinity true \/ F64.is_finite x = true.
Proof.
  destruct x as [s | [|] | | s m e]; cbn [F64.gt_int negb];
    try discriminate; intros _; auto.
Qed.

(** The fraction of the way at which mile [j] lies between a previous
    mile value [P] that is not beyond it and a mile value [M] that is:
    the division never has a zero divisor, and its result is as the loop
    needs it. *)
Lemma fraction_cases j P M :
  (mile_value P \/ (exists s, P = S754_infinity s) \/ P = S754_nan) ->
  (mile_value M \/ (exists s, M = S754_infinity s) \/ M = S754_nan) ->
  F64.gt_int P j = false -> F64.gt_int M j = true ->
  F64.is_finite (F64.of_Z j) = true ->
  exists f,
    py_truediv (F64.of_Z j - P)%f64 (M - P)%f64 = Ok f /\ fraction_like f.
Proof.
  intros HP HM HgP HgM Hn.
  assert (HM' : mile_value M \/ M = S754_infinity false).
  { destruct HM as [HM | [[s ->] | ->]]; [left; exact HM | | discriminate].
    destruct s; [discriminate | right; reflexivity]. }
  assert (HP' : mile_value P \/ P = S754_infinity true \/ P = S754_nan).
  { destruct HP as [HP | [[s ->] | ->]]; [left; exact HP | | right; right; reflexivity].
    destruct s; [right; left; reflexivity | discriminate]. }
  clear HP HM. destruct HP' as [HP | [-> | ->]].
  - destruct HM' as [HM | ->].
    + assert (Hj : (val P <= IZR j < val M)%R).
      { destruct HP as (HfP & _), HM as (HfM & _). split.
        - destruct (Rle_or_lt (val P) (IZR j)) as [H|H]; [exact H|].
          apply (gt_int_val P j HfP) in H. congruence.
        - apply (gt_int_val M j HfM). exact HgM. }
      destruct (fraction_ok j P M HP HM Hj) as (_ & f & Hf & Hff & Hfv).
      exists f. split; [exact Hf|]. right. split; assumption.
    + destruct HP as (HfP & _).
      rewrite sub_pos_infinity_l
        by (destruct P; try discriminate; congruence).
      unfold py_truediv. cbn [F64.is_zero]. eexists. split; [reflexivity|].
      apply div_infinity_r.
  - assert (HMinf : (M - S754_infinity true)%f64 = S754_infinity false).
    { apply sub_neg_infinity_r; destruct HM' as [(HfM & _) | ->];
        try discriminate; destruct M; try discriminate; congruence. }
    rewrite HMinf, sub_neg_infinity_r
      by (destruct (F64.of_Z j); try discriminate; congruence).
    unfold py_truediv. cbn [F64.is_zero]. eexists. split; [reflexivity|].
    apply fraction_like_nan.
  - rewrite !sub_nan_r. unfold py_truediv. cbn [F64.is_zero].
    eexists. split; [reflexivity|]. apply fraction_like_nan.
Qed.

Lemma check_timedelta_inv x r : check_timedelta x = Ok r -> r = x.
Proof.
  unfold check_timedelta. destruct (_ && _); [|discriminate].
  intros H. injection H as <-. reflexivity.
Qed.

Lemma check_timedelta_raise x e : check_timedelta x = Raise e -> e = OverflowError.
Proof.
  unfold check_timedelta. destruct (_ && _); [discriminate|].
  intros H. injection H as <-. reflexivity.
Qed.

Lemma check_datetime_inv x r : check_datetime x = Ok r -> r = x.
Proof.
  unfold check_datetime. destruct (_ && _); [|discriminate].
  intros H. injection H as <-. reflexivity.
Qed.

Lemma check_datetime_raise x e : check_datetime x = Raise e -> e = OverflowError.
Proof.
  unfold check_datetime. destruct (_ && _); [discriminate|].
  intros H. injection H as <-. reflexivity.
Qed.

(** The product of a timedelta and a fraction between 0 and 1, when it
    is one, lies between zero and the timedelta. *)
Lemma timedelta_mul_between d f r :
  F64.is_finite f = true -> (0 <= val f <= 1)%R ->
  timedelta_mul d f = Ok r ->
  (0 <= d -> 0 <= r <= d) /\ (d <= 0 -> d <= r <= 0).
Proof.
  intros Hf [H0 H1] H.
  destruct f as [s | s | | s m e]; try discriminate Hf.
  - injection H as <-. lia.
  - pose proof (pos_value_pos m e) as Hpos. rewrite val_finite in H0, H1.
    destruct s; [lra|]. unfold timedelta_mul in H.
    cbn [F64.signed cond_Zopp] in H. apply check_timedelta_inv in H. subst r.
    destruct (Z.leb_spec 0 e) as [He|He].
    + assert (Hone : Zpos m * 2 ^ e = 1).
      { assert (Zpos m * 2 ^ e <= 1).
        { apply le_IZR. rewrite mult_IZR, <- bpow_IZR by lia. exact H1. }
        assert (0 < 2 ^ e) by (apply Z.pow_pos_nonneg; lia). nia. }
      rewrite Hone, Z.mul_1_r. lia.
    + pose proof (IZR_pos_le_bpow_opp m e H1 He) as Hm.
      assert (Hb : 0 < 2 ^ (- e)) by (apply Z.pow_pos_nonneg; lia).
      exact (divide_nearest_between d (Zpos m) (2 ^ (- e)) Hb ltac:(lia)).
Qed.

Lemma timedelta_mul_raise d f e :
  timedelta_mul d f = Raise e -> e = ValueError \/ e = OverflowError.
Proof.
  destruct f as [s | s | | s m ex]; cbn [timedelta_mul]; intros H;
    try discriminate H; try (injection H as <-; auto).
  right. exact (check_timedelta_raise _ _ H).
Qed.

(** The interpolated time: between the two times when it is one, and
    no exception but [ValueError] and [OverflowError]. *)
Lemma time_add_cases t0 t f :
  fraction_like f ->
  match time_add (TDatetime t0) (datetime_sub t t0) f with
  | Ok t' => F64.is_finite f = true /\ (0 <= val f <= 1)%R /\
             (t0 <= t' <= t \/ t <= t' <= t0)
  | Raise e => e = ValueError \/ e = OverflowError
  end.
Proof.
  intros Hf. unfold time_add.
  destruct (timedelta_mul (datetime_sub t t0) f) as [r|e] eqn:Hr; cbn [bind].
  - destruct Hf as [-> | [Hff Hfv]]; [discriminate Hr|].
    destruct (timedelta_mul_between _ _ _ Hff Hfv Hr) as [Hp Hn].
    unfold datetime_add.
    destruct (check_datetime (t0 + r)) as [t'|e] eqn:Ht.
    + apply check_datetime_inv in Ht. subst t'.
      split; [exact Hff|]. split; [exact Hfv|]. unfold datetime_sub in *. lia.
    + right. exact (check_datetime_raise _ _ Ht).
  - exact (timedelta_mul_raise _ _ _ Hr).
Qed.

Lemma miles_of_classes p :
  valid_binary (distance_meters p) = true ->
  mile_value (miles_of p) \/ (exists s, miles_of p = S754_infinity s) \/
  miles_of p = S754_nan.
Proof. apply miles_classes. Qed.

(** One round of the [while] loop between two samples [pp] and [point],
    at a mile [j] that [pp] has not passed and [point] has: when a
    milepost is synthesized, it is at [j / MILES_PER_METER], its time is
    between the times of the two samples and its altitude, latitude and
    longitude are interpolated at a fraction between 0 and 1; and no
    exception is raised but [ValueError] and [OverflowError]. *)
Lemma milepost_cases j pp point :
  valid_binary (distance_meters pp) = true ->
  valid_binary (distance_meters point) = true ->
  F64.gt_int (miles_of pp) j = false ->
  F64.gt_int (miles_of point) j = true ->
  match milepost (state_after j pp) point (miles_of point) with
  | Ok m =>
      distance_meters m = (F64.of_Z j / MILES_PER_METER)%f64 /\
      (time pp <= time m <= time point \/ time point <= time m <= time pp) /\
      exists f,
        F64.is_finite f = true /\ (0 <= val f <= 1)%R /\
        altitude_meters m
        = interpolate (altitude_meters pp) (altitude_meters point) f /\
        latitude_degrees m
        = interpolate (latitude_degrees pp) (latitude_degrees point) f /\
        longitude_degrees m
        = interpolate (longitude_degrees pp) (longitude_degrees point) f
  | Raise x => x = ValueError \/ x = OverflowError
  end.
Proof.
  intros Hvp Hvq HgP HgM. unfold milepost, state_after.
  cbn [next_mile previous_time previous_miles previous_point].
  unfold float_of_int.
  destruct (F64.is_finite (F64.of_Z j)) eqn:Hn; cbn [bind]; [|right; reflexivity].
  fold (miles_of pp).
  destruct (fraction_cases j (miles_of pp) (miles_of point)
              (miles_of_classes pp Hvp) (miles_of_classes point Hvq)
              HgP HgM Hn) as (f & Hf & Hlike).
  rewrite Hf. cbn [bind time_sub].
  pose proof (time_add_cases (time pp) (time point) f Hlike) as Ht.
  destruct (time_add (TDatetime (time pp))
              (datetime_sub (time point) (time pp)) f) as [t'|e];
    cbn [bind]; [|exact Ht].
  destruct Ht as (Hff & Hfv & Hbetween).
  rewrite py_truediv_MILES_PER_METER.
  cbn [bind read_previous_point previous_point time distance_meters
       altitude_meters latitude_degrees longitude_degrees].
  split; [reflexivity|]. split; [exact Hbetween|].
  exists f. repeat split; try assumption; apply Hfv.
Qed.

(** How [compute_mileposts] goes on a track: on the first sample the
    loop body raises [TypeError] if it runs at all, and past it every
    outcome is that of a milepost between two consecutive samples. *)
Lemma compute_mileposts_inv fuel track ms e :
  compute_mileposts fuel track = (ms, e) ->
  Forall (fun m => synthesized track (Ok m)) ms /\
  forall x, e = Raised x ->
    synthesized track (Raise x) \/
    (x = TypeError /\ ms = [] /\
     exists first rest, track = first :: rest /\
       F64.gt_int (miles_of first) 1 = true).
Proof.
  unfold compute_mileposts. destruct track as [|first rest].
  - intros H. injection H as <- <-. split; [constructor | discriminate].
  - cbn [for_loop].
    change (distance_meters first * MILES_PER_METER)%f64 with (miles_of first).
    change initial_state with (at_mile initial_state 1) at 1.
    destruct (while_loop fuel (at_mile initial_state 1) first (miles_of first))
      as [[ms1 e1] n1] eqn:Hloop.
    destruct (while_loop_inv _ _ _ _ _ _ _ _ Hloop) as (Hn1 & Hms1 & He1).
    assert (Hnil : ms1 = []).
    { destruct ms1 as [|m ms1]; [reflexivity|]. exfalso.
      destruct (Hms1 0%nat m eq_refl) as [Hgt Hm].
      destruct (milepost_initial_state first (miles_of first) (1 + Z.of_nat 0)
                  ltac:(lia) Hgt) as [H|H]; congruence. }
    subst ms1. cbn [length] in Hn1. rewrite Z.add_0_r in Hn1. subst n1.
    destruct e1 as [|x1|]; intros H.
    + change {| next_mile := 1;
                previous_time := TDatetime (time first);
                previous_miles := miles_of first;
                previous_point := Some first |}
        with (state_after 1 first) in H.
      destruct (for_loop fuel (state_after 1 first) rest) as [ms2 e2] eqn:Hfor.
      injection H as <- <-.
      destruct (for_loop_inv fuel rest first 1 ms2 e2 ltac:(lia) He1 Hfor)
        as [Hms Hx].
      split; [exact Hms|]. intros x Hex. left. exact (Hx x Hex).
    + injection H as <- <-. split; [constructor|].
      intros x Hex. injection Hex as <-. right. destruct He1 as [Hgt Hm].
      split.
      * destruct (milepost_initial_state first (miles_of first) 1
                    ltac:(lia) Hgt) as [H|H]; rewrite H in Hm.
        -- injection Hm as <-. reflexivity.
        -- exfalso. revert H. unfold milepost.
           cbn [next_mile at_mile initial_state].
           change (float_of_int 1) with (Ok F64.one). cbn [bind].
           unfold py_truediv. destruct (F64.is_zero _); [discriminate|].
           cbn [bind time_sub previous_time at_mile initial_state].
           discriminate.
      * split; [reflexivity|]. exists first, rest. split; [reflexivity | exact Hgt].
    + injection H as <- <-. split; [constructor | discriminate].
Qed.

Lemma synthesized_valid track r :
  Forall valid_distance track -> synthesized track r ->
  exists pre pp point post j,
    track = pre ++ pp :: point :: post /\ 1 <= j /\
    valid_distance pp /\ valid_distance point /\
    F64.gt_int (miles_of pp) j = false /\
    F64.gt_int (miles_of point) j = true /\
    milepost (state_after j pp) point (miles_of point) = r.
Proof.
  intros Hall (pre & pp & point & post & j & -> & Hj & HP & HM & Hr).
  apply Forall_app in Hall. destruct Hall as [_ Hall].
  pose proof (Forall_inv Hall) as Hpp.
  pose proof (Forall_inv (Forall_inv_tail Hall)) as Hpt.
  exists pre, pp, point, post, j. repeat split; assumption.
Qed.

(** X1.  Whatever the track, [compute_mileposts] raises nothing but
    [TypeError], [ValueError] and [OverflowError]: its division never has
    a zero divisor and [previous_point] is never read unbound.
    [TypeError] is raised on the first sample only, when that sample is
    already beyond mile 1, before anything is yielded. *)
Theorem compute_mileposts_exceptions fuel track ms x :
  Forall valid_distance track ->
  compute_mileposts fuel track = (ms, Raised x) ->
  (x = TypeError /\ ms = [] /\
   exists first rest, track = first :: rest /\
     F64.gt_int (miles_of first) 1 = true) \/
  x = ValueError \/ x = OverflowError.
Proof.
  intros Hall H. destruct (compute_mileposts_inv _ _ _ _ H) as [_ Hx].
  destruct (Hx x eq_refl) as [Hs | Hfirst]; [|left; exact Hfirst].
  right.
  destruct (synthesized_valid _ _ Hall Hs)
    as (pre & pp & point & post & j & _ & _ & Hvp & Hvq & HP & HM & Hr).
  pose proof (milepost_cases j pp point Hvp Hvq HP HM) as Hc.
  rewrite Hr in Hc. exact Hc.
Qed.

(** X2.  Every Trackpoint that [compute_mileposts] yields, whether or
    not the generator later raises, lies between two consecutive samples
    of the track, the first of which has not passed its mile [j >= 1]
    and the second of which has: its distance is [j / MILES_PER_METER],
    its time is between the times of the two samples, and its altitude,
    latitude and longitude are those of [interpolate] between the two
    samples at one and the same fraction between 0 and 1. *)
Theorem mileposts_between_samples fuel track ms e :
  Forall valid_distance track ->
  compute_mileposts fuel track = (ms, e) ->
  Forall (fun m =>
    exists pre pp point post j f,
      track = pre ++ pp :: point :: post /\ 1 <= j /\
      F64.gt_int (miles_of pp) j = false /\
      F64.gt_int (miles_of point) j = true /\
      distance_meters m = (F64.of_Z j / MILES_PER_METER)%f64 /\
      (time pp <= time m <= time point \/ time point <= time m <= time pp) /\
      F64.is_finite f = true /\ (0 <= val f <= 1)%R /\
      altitude_meters m
      = interpolate (altitude_meters pp) (altitude_meters point) f /\
      latitude_degrees m
      = interpolate (latitude_degrees pp) (latitude_degrees point) f /\
      longitude_degrees m
      = interpolate (longitude_degrees pp) (longitude_degrees point) f) ms.
Proof.
  intros Hall H. destruct (compute_mileposts_inv _ _ _ _ H) as [Hms _].
  eapply Forall_impl; [exact Hms|]. intros m Hs. cbn beta in Hs.
  destruct (synthesized_valid _ _ Hall Hs)
    as (pre & pp & point & post & j & Ht & Hj & Hvp & Hvq & HP & HM & Hr).
  pose proof (milepost_cases j pp point Hvp Hvq HP HM) as Hc.
  rewrite Hr in Hc. destruct Hc as (Hd & Htime & f & Hff & Hfv & Ha & Hla & Hlo).
  exists pre, pp, point, post, j, f. repeat split; try assumption; apply Hfv.
Qed.

Lemma for_loop_nothing_iff fuel track : forall st,
  next_mile st = 1 ->
  for_loop (S fuel) st track = ([], Finished) <->
  Forall (fun p => F64.gt_int (miles_of p) 1 = false) track.
Proof.
  induction track as [|point track IH]; intros st Hst.
  - split; [constructor | reflexivity].
  - cbn [for_loop].
    change (distance_meters point * MILES_PER_METER)%f64 with (miles_of point).
    destruct (F64.gt_int (miles_of point) 1) eqn:Hgt.
    + split.
      * intros H. exfalso. cbn [while_loop] in H. rewrite Hst, Hgt in H.
        destruct (milepost st point (miles_of point)); [|discriminate H].
        destruct (while_loop fuel _ point (miles_of point)) as [[ms1 e1] n1].
        destruct e1; [|discriminate H|discriminate H].
        destruct (for_loop (S fuel) _ track) as [ms2 e2]. discriminate H.
      * intros H. apply Forall_inv in H. congruence.
    + rewrite while_loop_false by (rewrite Hst; exact Hgt). rewrite Hst.
      specialize (IH {| next_mile := 1;
                        previous_time := TDatetime (time point);
                        previous_miles := miles_of point;
                        previous_point := Some point |} eq_refl).
      destruct (for_loop (S fuel) _ track) as [ms2 e2] eqn:Hfor.
      cbn [app]. rewrite IH. split.
      * intros H. constructor; assumption.
      * intros H. exact (Forall_inv_tail H).
Qed.

(** X3.  [compute_mileposts] yields nothing and finishes normally
    exactly on the tracks none of whose samples is beyond mile 1: the
    empty track, a track that stays short of it, one whose distances are
    all missing. *)
Theorem no_milepost_iff_short_of_mile_1 fuel track :
  compute_mileposts (S fuel) track = ([], Finished) <->
  Forall (fun p => F64.gt_int (miles_of p) 1 = false) track.
Proof. apply for_loop_nothing_iff. reflexivity. Qed.

(** X4.  A sample without a distance is the end of the mileposts:
    wherever the loop stands, when the sample after it is beyond the next
    mile the generator raises [ValueError] there, the fraction being
    not-a-number, and yields nothing more. *)
Theorem missing_distance_then_crossing_raises fuel st p q rest :
  distance_meters p = nan ->
  F64.gt_int (miles_of q) (next_mile st) = true ->
  F64.is_finite (F64.of_Z (next_mile st)) = true ->
  for_loop (S fuel) st (p :: q :: rest) = ([], Raised ValueError).
Proof.
  intros Hnan Hgt Hfin. cbn [for_loop]. rewrite Hnan.
  rewrite while_loop_false by reflexivity. cbn [app].
  change (distance_meters q * MILES_PER_METER)%f64 with (miles_of q).
  cbn [while_loop next_mile]. rewrite Hgt.
  unfold milepost. cbn [next_mile previous_miles previous_time previous_point].
  unfold float_of_int. rewrite Hfin. cbn [bind].
  change (nan * MILES_PER_METER)%f64 with S754_nan. rewrite !sub_nan_r.
  reflexivity.
Qed.

Lemma missing_distance_then_crossing_raises_witness :
  compute_mileposts 1
    [sample_at 0 nan; sample_at 600 (Prim2SF 2000)]
  = ([], Raised ValueError).
Proof.
  apply (missing_distance_then_crossing_raises 0 initial_state
           (sample_at 0 nan) (sample_at 600 (Prim2SF 2000)) []);
    reflexivity.
Defined.

(** ** Mileposts and the distance of the samples *)

Section Exact.
Local Open Scope R_scope.

(** An int below [2^53] is a float. *)
Lemma rounds_exact_int j : (0 < j < 2 ^ 53)%Z -> rounds (IZR j) (IZR j).
Proof.
  intros [H0 H53]. right. left. split; [apply IZR_lt; exact H0|].
  pose proof (Zdigits2_bounds j H0) as [Hl Hu].
  pose proof (Zdigits2_pos j H0) as Hd.
  assert (Hk : (Zdigits2 j <= 53)%Z).
  { destruct (Z.le_gt_cases (Zdigits2 j) 53) as [H|H]; [exact H|].
    assert (2 ^ 53 <= 2 ^ (Zdigits2 j - 1))%Z
      by (apply Z.pow_le_mono_r; lia). lia. }
  set (k := Zdigits2 j) in *.
  assert (HF : (fexp prec emax k <= 0)%Z).
  { unfold fexp, emin, SpecFloat.emin, prec, emax. lia. }
  exists k, (j * 2 ^ (- fexp prec emax k))%Z.
  generalize dependent (fexp prec emax k). intros F HF. split; [|split].
  - destruct (IZR_mag j 0 H0) as [Hlo Hhi]. fold k in Hlo, Hhi.
    rewrite bpow_0, Rmult_1_r, Z.add_0_r in Hlo.
    rewrite bpow_0, Rmult_1_r, Z.add_0_r in Hhi.
    unfold mag_is. lra.
  - replace (IZR j / bpow F) with (IZR (j * 2 ^ (- F))); [apply rne_int_IZR|].
    rewrite mult_IZR, <- bpow_IZR by lia. rewrite bpow_opp.
    unfold Rdiv. reflexivity.
  - rewrite mult_IZR, <- bpow_IZR, Rmult_assoc, <- bpow_add by lia.
    replace (- F + F)%Z with 0%Z by lia. rewrite bpow_0. lra.
Qed.

Lemma of_Z_exact j :
  (0 < j < 2 ^ 53)%Z ->
  F64.is_finite (F64.of_Z j) = true /\ valid_binary (F64.of_Z j) = true /\
  val (F64.of_Z j) = IZR j.
Proof.
  intros Hj. destruct (of_Z_to j) as (v & Hr & Hcase).
  pose proof (rounds_unique _ _ _ Hr (rounds_exact_int j Hj)) as Hv. subst v.
  destruct Hcase as [(_ & Hf & Hval & He) | (Hbig & _)].
  - repeat split; assumption.
  - exfalso. destruct Hj as [H0 H53]. apply IZR_lt in H0, H53.
    rewrite Rabs_pos_eq in Hbig by lra.
    assert (bpow 53 < bpow emax) by (apply bpow_lt; reflexivity).
    rewrite (bpow_IZR 53) in H by lia. lra.
Qed.

(** The milepost of a mile that a sample has passed is not beyond the
    sample. *)
Lemma milepost_not_beyond d j :
  F64.is_finite d = true -> valid_binary d = true ->
  (0 < j < 2 ^ 53)%Z ->
  F64.gt_int (d * MILES_PER_METER)%f64 j = true ->
  F64.is_finite (F64.of_Z j / MILES_PER_METER)%f64 = true /\
  0 <= val (F64.of_Z j / MILES_PER_METER)%f64 <= val d.
Proof.
  intros Hf Hv Hj Hgt.
  destruct (miles_mile_value d Hf Hv) as [(HfM & HvM & _) Hr].
  apply (gt_int_val _ j HfM) in Hgt.
  destruct (of_Z_exact j Hj) as (Hfn & Hvn & Hn).
  destruct val_MILES_PER_METER as [HM0 _].
  assert (Hprod : IZR j < val d * val MILES_PER_METER).
  { destruct (Rlt_or_le (IZR j) (val d * val MILES_PER_METER)) as [H|H];
      [exact H|].
    pose proof (rounds_mono _ _ _ _ H Hr (rounds_exact_int j Hj)). lra. }
  assert (Hq : 0 <= IZR j / val MILES_PER_METER <= val d).
  { assert (0 < IZR j) by (apply IZR_lt; lia). split.
    - apply Rlt_le, Rdiv_lt_0_compat; assumption.
    - apply Rlt_le, Rmult_lt_reg_r with (val MILES_PER_METER); [exact HM0|].
      unfold Rdiv. rewrite Rmult_assoc, Rinv_l by lra. lra. }
  pose proof (SFdiv_to (F64.of_Z j) false 5731135905912489 (-63) Hfn) as Hdiv.
  change (S754_finite false 5731135905912489 (-63)) with MILES_PER_METER in Hdiv.
  rewrite Hn in Hdiv.
  destruct (round_to_between _ _ (S754_zero false) d Hdiv
              eq_refl eq_refl Hf Hv) as (Hff & _ & _ & Hb).
  { change (val (S754_zero false)) with 0. exact Hq. }
  change (val (S754_zero false)) with 0 in Hb. split; assumption.
Qed.

End Exact.

Lemma valid_sample_distance p : valid_sample p -> valid_distance p.
Proof. intros (_ & _ & H). exact H. Qed.

(** On an ascending track no sample is beyond the last one. *)
Lemma ascending_le_final points : forall p0,
  Forall valid_sample (p0 :: points) -> ascending p0 points ->
  forall q, In q (p0 :: points) ->
    valid_sample q /\
    (val (distance_meters q)
     <= val (distance_meters (final_of p0 points)))%R.
Proof.
  induction points as [|point points IH]; intros p0 Hall Hasc q Hq.
  - destruct Hq as [<- | []]. split; [exact (Forall_inv Hall)|].
    unfold final_of. cbn. lra.
  - rewrite final_of_cons. destruct Hasc as [Hlt Hasc].
    pose proof (Forall_inv_tail Hall) as Htl.
    destruct Hq as [<- | Hq]; [|exact (IH point Htl Hasc q Hq)].
    pose proof (Forall_inv Hall) as Hp0. split; [exact Hp0|].
    destruct (IH point Htl Hasc point ltac:(left; reflexivity)) as [Hpt Hle].
    destruct Hp0 as (_ & Hfp & Hvp). destruct Hpt as (_ & Hfq & Hvq).
    pose proof (ltb_val _ _ Hfp Hfq Hvp Hvq Hlt). lra.
Qed.

(** X5.  On a track of valid samples with strictly increasing
    [distance_meters] that ends short of mile [2^53], no Trackpoint that
    [compute_mileposts] yields is beyond the last recorded distance: its
    [distance_meters] is a finite float, not negative and not above
    that of the last sample. *)
Theorem mileposts_not_beyond_last fuel first rest ms e :
  Forall valid_sample (first :: rest) ->
  ascending first rest ->
  F64.gt_int (miles_of (final_of first rest)) (2 ^ 53) = false ->
  compute_mileposts fuel (first :: rest) = (ms, e) ->
  Forall (fun m =>
    F64.is_finite (distance_meters m) = true /\
    (0 <= val (distance_meters m)
     <= val (distance_meters (final_of first rest)))%R) ms.
Proof.
  intros Hall Hasc Hlast H.
  destruct (compute_mileposts_inv _ _ _ _ H) as [Hms _].
  eapply Forall_impl; [exact Hms|]. intros m Hs. cbn beta in Hs.
  destruct Hs as (pre & pp & point & post & j & Ht & Hj & HP & HM & Hm).
  assert (Hin : In point (first :: rest)).
  { rewrite Ht. apply in_or_app. right. right. left. reflexivity. }
  assert (Hinp : In pp (first :: rest)).
  { rewrite Ht. apply in_or_app. right. left. reflexivity. }
  destruct (ascending_le_final rest first Hall Hasc point Hin) as [Hpt Hle].
  destruct (ascending_le_final rest first Hall Hasc pp Hinp) as [Hpp _].
  destruct (ascending_le_final rest first Hall Hasc (final_of first rest))
    as [Hfin _].
  { unfold final_of. destruct (last rest) as [l|] eqn:El; cbn.
    - right. apply last_Some in El. destruct El as [l' ->].
      apply in_or_app. right. left. reflexivity.
    - left. reflexivity. }
  pose proof Hpt as (_ & Hfq & Hvq). pose proof Hfin as (_ & Hff & Hvf).
  assert (Hj53 : j < 2 ^ 53).
  { pose proof (miles_of_finite _ Hpt) as HfM.
    pose proof (miles_of_finite _ Hfin) as HfL.
    pose proof (miles_mono _ _ Hfq Hvq Hff Hvf Hle) as Hmono.
    apply (gt_int_val _ j HfM) in HM.
    destruct (Z.lt_ge_cases j (2 ^ 53)) as [Hlt|Hge]; [exact Hlt|].
    exfalso. apply IZR_le in Hge.
    assert (Hgt : (IZR (2 ^ 53) < val (miles_of (final_of first rest)))%R)
      by (unfold miles_of in *; lra).
    apply (gt_int_val _ _ HfL) in Hgt. congruence. }
  pose proof (milepost_cases j pp point (valid_sample_distance _ Hpp)
                Hvq HP HM) as Hc.
  rewrite Hm in Hc. destruct Hc as (Hd & _). rewrite Hd.
  destruct (milepost_not_beyond (distance_meters point) j Hfq Hvq
              ltac:(lia) HM) as [Hfm Hb].
  split; [exact Hfm|]. lra.
Qed.

(** ** Mileposts and the order of time *)

Section Nearest.
Local Open Scope R_scope.

(** [divide_nearest] is the quotient rounded to the nearest int, ties to
    even. *)
Lemma divide_nearest_rne a b :
  (0 < b)%Z -> rne_int (IZR a / IZR b) (divide_nearest a b).
Proof.
  intros Hb. unfold divide_nearest.
  pose proof (Z.div_mod a b ltac:(lia)) as Hdm.
  pose proof (Z.mod_pos_bound a b Hb) as Hr.
  set (q := (a / b)%Z) in *. set (r := (a mod b)%Z) in *.
  assert (HB : 0 < IZR b) by (apply IZR_lt; exact Hb).
  assert (Hy : IZR a / IZR b = IZR q + IZR r / IZR b).
  { rewrite Hdm, plus_IZR, mult_IZR. field. lra. }
  rewrite Hy. clear Hy Hdm.
  assert (Hr0 : 0 <= IZR r / IZR b).
  { apply Rmult_le_pos; [apply IZR_le; lia|].
    apply Rlt_le, Rinv_0_lt_compat, HB. }
  assert (Hr1 : IZR r / IZR b < 1).
  { apply Rmult_lt_reg_r with (IZR b); [exact HB|].
    unfold Rdiv. rewrite Rmult_assoc, Rinv_l by lra.
    rewrite Rmult_1_r, Rmult_1_l. apply IZR_lt. lia. }
  assert (Hhalf : forall c : comparison,
            (r + r ?= b)%Z = c ->
            match c with
            | Lt => IZR r / IZR b < /2
            | Eq => IZR r / IZR b = /2
            | Gt => /2 < IZR r / IZR b
            end).
  { intros c Hc.
    assert (Hrr : IZR r / IZR b = IZR (r + r) / IZR b * /2).
    { rewrite plus_IZR. field. lra. }
    destruct c.
    - apply Z.compare_eq in Hc. rewrite Hrr, Hc. field. lra.
    - apply Z.compare_lt_iff, IZR_lt in Hc. rewrite Hrr.
      assert (IZR (r + r) / IZR b < 1); [|lra].
      apply Rmult_lt_reg_r with (IZR b); [exact HB|].
      unfold Rdiv. rewrite Rmult_assoc, Rinv_l by lra. lra.
    - apply Z.compare_gt_iff, IZR_lt in Hc. rewrite Hrr.
      assert (1 < IZR (r + r) / IZR b); [|lra].
      apply Rmult_lt_reg_r with (IZR b); [exact HB|].
      unfold Rdiv. rewrite Rmult_assoc, Rinv_l by lra. lra. }
  destruct (r + r ?= b)%Z eqn:Hc; pose proof (Hhalf _ eq_refl) as Hh;
    clear Hhalf.
  - apply Z.compare_eq in Hc.
    replace (b <? 2 * r)%Z with false by (symmetry; apply Z.ltb_ge; lia).
    replace (b =? 2 * r)%Z with true by (symmetry; apply Z.eqb_eq; lia).
    cbn [orb andb]. destruct (Z.odd q) eqn:Hodd.
    + split; [rewrite plus_IZR; lra|]. intros _.
      rewrite Z.even_add, <- Z.negb_odd, Hodd. reflexivity.
    + split; [lra|]. intros _. rewrite <- Z.negb_odd, Hodd. reflexivity.
  - change (r + r < b)%Z in Hc.
    replace (b <? 2 * r)%Z with false by (symmetry; apply Z.ltb_ge; lia).
    replace (b =? 2 * r)%Z with false by (symmetry; apply Z.eqb_neq; lia).
    cbn [orb andb]. split; [lra|]. intros [H|H]; lra.
  - apply Z.compare_gt_iff in Hc.
    replace (b <? 2 * r)%Z with true by (symmetry; apply Z.ltb_lt; lia).
    cbn [orb]. split; [rewrite plus_IZR; lra|].
    rewrite plus_IZR. intros [H|H]; lra.
Qed.

(** The product of a timedelta and a finite float is the exact product
    rounded to the nearest microsecond, ties to even. *)
Lemma timedelta_mul_rne d f r :
  F64.is_finite f = true -> timedelta_mul d f = Ok r ->
  rne_int (IZR d * val f) r.
Proof.
  destruct f as [s | s | | s m e]; try discriminate; intros _ H.
  - injection H as <-. cbn [val]. rewrite Rmult_0_r. apply (rne_int_IZR 0).
  - unfold timedelta_mul in H. apply check_timedelta_inv in H. subst r.
    cbn [val]. fold (F64.signed s m).
    destruct (Z.leb_spec 0 e) as [He|He].
    + rewrite bpow_IZR, <- !mult_IZR by exact He. apply rne_int_IZR.
    + replace (IZR d * (IZR (F64.signed s m) * bpow e))
        with (IZR (d * F64.signed s m) / IZR (2 ^ (- e))).
      * apply divide_nearest_rne. apply Z.pow_pos_nonneg; lia.
      * rewrite mult_IZR, <- bpow_IZR, bpow_opp by lia.
        pose proof (bpow_pos e). field. lra.
Qed.

Lemma timedelta_mul_mono d f f' r r' :
  (0 <= d)%Z -> F64.is_finite f = true -> F64.is_finite f' = true ->
  val f <= val f' ->
  timedelta_mul d f = Ok r -> timedelta_mul d f' = Ok r' -> (r <= r')%Z.
Proof.
  intros Hd Hf Hf' Hle Hr Hr'.
  apply (rne_int_mono (IZR d * val f) (IZR d * val f'));
    [|apply timedelta_mul_rne; assumption..].
  apply Rmult_le_compat_l; [apply IZR_le; exact Hd | exact Hle].
Qed.

End Nearest.

(** What a synthesized milepost was made of. *)
Lemma milepost_inv j pp point m :
  milepost (state_after j pp) point (miles_of point) = Ok m ->
  exists f r,
    py_truediv (F64.of_Z j - miles_of pp)%f64
               (miles_of point - miles_of pp)%f64 = Ok f /\
    timedelta_mul (datetime_sub (time point) (time pp)) f = Ok r /\
    time m = time pp + r.
Proof.
  unfold milepost, state_after.
  cbn [next_mile previous_time previous_miles previous_point].
  unfold float_of_int.
  destruct (F64.is_finite (F64.of_Z j)); cbn [bind]; [|discriminate].
  fold (miles_of pp).
  destruct (py_truediv _ _) as [f|] eqn:Hf; cbn [bind]; [|discriminate].
  cbn [time_sub bind]. unfold time_add.
  destruct (timedelta_mul _ f) as [r|] eqn:Hr; cbn [bind]; [|discriminate].
  unfold datetime_add.
  destruct (check_datetime (time pp + r)) as [t'|] eqn:Ht; cbn [bind];
    [|discriminate].
  apply check_datetime_inv in Ht. subst t'.
  rewrite py_truediv_MILES_PER_METER. cbn [bind read_previous_point previous_point].
  intros H. injection H as <-. exists f, r. cbn [time].
  split; [reflexivity|]. split; [exact Hr | reflexivity].
Qed.

Section FractionOrder.
Local Open Scope R_scope.

(** The parts of the fraction between two bounded mile values. *)
Lemma fraction_parts j P M :
  mile_value P -> mile_value M -> val P <= IZR j < val M ->
  F64.is_finite (F64.of_Z j - P)%f64 = true /\
  (exists v, rounds (IZR j) v /\
             rounds (v - val P) (val (F64.of_Z j - P)%f64)) /\
  F64.is_finite (M - P)%f64 = true /\
  0 < val (M - P)%f64.
Proof.
  intros (HfP & HvP & HbP) (HfM & HvM & HbM) [Hlo Hhi].
  destruct (round_to_between _ _ P M (of_Z_to j) HfP HvP HfM HvM
              ltac:(lra)) as (Hfn & Hvn & Hrn & Hbn).
  fold (F64.of_Z j) in *. set (n := F64.of_Z j) in *.
  assert (H1015 : bpow 1015 = 2 * bpow 1014)
    by (change 1015%Z with (1014 + 1)%Z; apply bpow_succ).
  pose proof (SFsub_to n P Hfn HfP Hvn HvP) as Hx.
  destruct (round_to_between _ _ (S754_zero false) two_1015 Hx
              eq_refl eq_refl eq_refl eq_refl) as (Hfx & Hvx & Hrx & Hbx).
  { rewrite val_two_1015. change (val (S754_zero false)) with 0. lra. }
  pose proof (SFsub_to M P HfM HfP HvM HvP) as Hy.
  pose proof (val_gap P M HvP HvM ltac:(lra)) as Hgap.
  destruct (round_to_between _ _ min_float two_1015 Hy
              eq_refl eq_refl eq_refl eq_refl) as (Hfy & Hvy & Hry & Hby).
  { rewrite val_two_1015, val_min_float. lra. }
  rewrite val_min_float in Hby. pose proof (bpow_pos emin) as Hmin.
  split; [exact Hfx|]. split; [exists (val n); split; assumption|].
  split; [exact Hfy|]. change (M - P)%f64 with (SF64sub M P). lra.
Qed.

Lemma div_infinity_val x :
  F64.is_finite (x / S754_infinity false)%f64 = true ->
  val (x / S754_infinity false)%f64 = 0.
Proof. destruct x as [s | s | | s m e]; cbn; try discriminate; reflexivity. Qed.

(** The fraction grows with the mile. *)
Lemma fraction_mono j j' P M f f' :
  (mile_value P \/ (exists s, P = S754_infinity s) \/ P = S754_nan) ->
  (mile_value M \/ (exists s, M = S754_infinity s) \/ M = S754_nan) ->
  F64.gt_int P j = false -> (j <= j')%Z -> F64.gt_int M j' = true ->
  py_truediv (F64.of_Z j - P)%f64 (M - P)%f64 = Ok f ->
  py_truediv (F64.of_Z j' - P)%f64 (M - P)%f64 = Ok f' ->
  F64.is_finite f = true -> F64.is_finite f' = true ->
  val f <= val f'.
Proof.
  intros HP HM HgP Hjj HgM Hf Hf' Hff Hff'.
  assert (HM' : mile_value M \/ M = S754_infinity false).
  { destruct HM as [HM | [[s ->] | ->]]; [left; exact HM | | discriminate].
    destruct s; [discriminate | right; reflexivity]. }
  assert (HP' : mile_value P \/ P = S754_infinity true \/ P = S754_nan).
  { destruct HP as [HP | [[s ->] | ->]]; [left; exact HP | | right; right; reflexivity].
    destruct s; [right; left; reflexivity | discriminate]. }
  clear HP HM. unfold py_truediv in Hf, Hf'.
  destruct (F64.is_zero (M - P)%f64); [discriminate|].
  injection Hf as <-. injection Hf' as <-.
  destruct HP' as [HP | [-> | ->]].
  - destruct HM' as [HM | ->].
    + assert (Hj' : val P <= IZR j' < val M).
      { destruct HP as (HfP & _), HM as (HfM & _). split.
        - destruct (Rle_or_lt (val P) (IZR j')) as [H|H]; [exact H|].
          apply (gt_int_val P j' HfP) in H.
          rewrite (gt_int_antitone P j j' Hjj HgP) in H. discriminate.
        - apply (gt_int_val M j' HfM). exact HgM. }
      assert (Hj : val P <= IZR j < val M).
      { destruct HP as (HfP & _). apply IZR_le in Hjj. split; [|lra].
        destruct (Rle_or_lt (val P) (IZR j)) as [H|H]; [exact H|].
        apply (gt_int_val P j HfP) in H. congruence. }
      destruct (fraction_parts j P M HP HM Hj)
        as (Hfx & (v & Hv & Hx) & Hfy & Hy).
      destruct (fraction_parts j' P M HP HM Hj')
        as (Hfx' & (v' & Hv' & Hx') & _ & _).
      assert (Hvv : v <= v').
      { apply (rounds_mono (IZR j) (IZR j')); [apply IZR_le| |]; assumption. }
      assert (Hxx : val (F64.of_Z j - P)%f64 <= val (F64.of_Z j' - P)%f64).
      { apply (rounds_mono (v - val P) (v' - val P)); [lra| |]; assumption. }
      destruct (M - P)%f64 as [sy | sy | | sy my ey] eqn:Ey;
        try discriminate Hfy.
      { change (val (S754_zero sy)) with 0 in Hy. lra. }
      destruct (round_to_finite _ _
                  (SFdiv_to (F64.of_Z j - P)%f64 sy my ey Hfx) Hff)
        as [_ Hr].
      destruct (round_to_finite _ _
                  (SFdiv_to (F64.of_Z j' - P)%f64 sy my ey Hfx') Hff')
        as [_ Hr'].
      apply (rounds_mono _ _ _ _) with (2 := Hr) (3 := Hr').
      apply Rmult_le_compat_r; [|exact Hxx].
      apply Rlt_le, Rinv_0_lt_compat, Hy.
    + destruct HP as (HfP & _).
      rewrite sub_pos_infinity_l in Hff, Hff' |- *
        by (destruct P; try discriminate; congruence).
      rewrite (div_infinity_val _ Hff), (div_infinity_val _ Hff'). lra.
  - exfalso.
    assert (HMinf : (M - S754_infinity true)%f64 = S754_infinity false).
    { apply sub_neg_infinity_r; destruct HM' as [(HfM & _) | ->];
        try discriminate; destruct M; try discriminate; congruence. }
    rewrite HMinf in Hff.
    destruct (F64.of_Z j) as [s | [|] | | s m e]; discriminate Hff.
  - exfalso. rewrite !sub_nan_r in Hff. discriminate Hff.
Qed.

End FractionOrder.

Lemma StronglySorted_lookup {A} (R : A -> A -> Prop) (l : list A) :
  (forall i i' a b, (i < i')%nat -> l !! i = Some a -> l !! i' = Some b ->
     R a b) ->
  StronglySorted R l.
Proof.
  induction l as [|x l IH]; intros H; constructor.
  - apply IH. intros i i' a b Hii Ha Hb.
    apply (H (S i) (S i') a b); [lia | exact Ha | exact Hb].
  - apply Forall_lookup_2. intros i b Hb.
    apply (H 0%nat (S i) x b); [lia | reflexivity | exact Hb].
Qed.

(** The mileposts of one sample are in the order of time, between the
    previous sample and this one. *)
Lemma while_loop_times fuel j pp point ms e n :
  valid_distance pp -> valid_distance point ->
  F64.gt_int (miles_of pp) j = false ->
  time pp <= time point ->
  while_loop fuel (state_after j pp) point (miles_of point) = (ms, e, n) ->
  StronglySorted not_later ms /\
  Forall (fun m => time pp <= time m <= time point) ms.
Proof.
  intros Hvp Hvq HgP Ht Hloop.
  rewrite (state_after_at_mile j pp) in Hloop.
  destruct (while_loop_inv _ _ _ _ _ _ _ _ Hloop) as (_ & Hms & _).
  assert (Hone : forall i m, ms !! i = Some m ->
            F64.gt_int (miles_of pp) (j + Z.of_nat i) = false /\
            F64.gt_int (miles_of point) (j + Z.of_nat i) = true /\
            milepost (state_after (j + Z.of_nat i) pp) point (miles_of point)
            = Ok m).
  { intros i m Hi. destruct (Hms i m Hi) as [Hgt Hm].
    split; [apply (gt_int_antitone _ j); [lia | exact HgP]|].
    split; [exact Hgt | exact Hm]. }
  split.
  - apply StronglySorted_lookup. intros i i' a b Hii Ha Hb.
    destruct (Hone i a Ha) as (HPa & HMa & Hma).
    destruct (Hone i' b Hb) as (HPb & HMb & Hmb).
    destruct (milepost_inv _ _ _ _ Hma) as (f & r & Hf & Hr & Hta).
    destruct (milepost_inv _ _ _ _ Hmb) as (f' & r' & Hf' & Hr' & Htb).
    assert (Hfin : forall f r,
              timedelta_mul (datetime_sub (time point) (time pp)) f = Ok r ->
              F64.is_finite f = true).
    { intros [| | |] r0 H0; try reflexivity; discriminate H0. }
    unfold not_later. rewrite Hta, Htb.
    assert (r <= r'); [|lia].
    apply (timedelta_mul_mono (datetime_sub (time point) (time pp)) f f');
      try assumption; try (eapply Hfin; eassumption).
    + unfold datetime_sub. lia.
    + apply (fraction_mono (j + Z.of_nat i) (j + Z.of_nat i')
               (miles_of pp) (miles_of point));
        try assumption; try (eapply Hfin; eassumption);
        try (apply miles_of_classes; assumption).
      lia.
  - apply Forall_lookup_2. intros i m Hi.
    destruct (Hone i m Hi) as (HP & HM & Hm).
    pose proof (milepost_cases _ pp point Hvp Hvq HP HM) as Hc.
    rewrite Hm in Hc. destruct Hc as (_ & Hb & _). lia.
Qed.

Lemma final_of_elem p0 points :
  final_of p0 points = p0 /\ points = [] \/ final_of p0 points ∈ points.
Proof.
  unfold final_of. destruct (last points) as [l|] eqn:El; cbn.
  - right. apply last_Some in El. destruct El as [l' ->]. set_solver.
  - left. split; [reflexivity|]. apply last_None in El. exact El.
Qed.

Lemma not_later_final p0 points :
  StronglySorted not_later (p0 :: points) ->
  time p0 <= time (final_of p0 points).
Proof.
  intros H. apply StronglySorted_cons in H. destruct H as [H _].
  destruct (final_of_elem p0 points) as [[-> _] | Hin]; [lia|].
  rewrite Forall_forall in H. exact (H _ Hin).
Qed.

(** The mileposts past a sample are in the order of time, between that
    sample and the last one. *)
Lemma for_loop_times fuel points : forall p0 n0 ms e,
  Forall valid_distance (p0 :: points) ->
  StronglySorted not_later (p0 :: points) ->
  F64.gt_int (miles_of p0) n0 = false ->
  for_loop fuel (state_after n0 p0) points = (ms, e) ->
  StronglySorted not_later ms /\
  Forall (fun m => time p0 <= time m <= time (final_of p0 points)) ms.
Proof.
  induction points as [|point points IH]; intros p0 n0 ms e Hall Hs Hp0 H.
  - injection H as <- <-. split; constructor.
  - cbn [for_loop] in H.
    change (distance_meters point * MILES_PER_METER)%f64
      with (miles_of point) in H.
    pose proof (Forall_inv Hall) as Hv0.
    pose proof (Forall_inv_tail Hall) as Htl.
    pose proof (Forall_inv Htl) as Hvq.
    pose proof Hs as Hs0. apply StronglySorted_cons in Hs0.
    destruct Hs0 as [Hfirst Hs']. pose proof (Forall_inv Hfirst) as Ht.
    unfold not_later in Ht.
    pose proof (not_later_final point points Hs') as Hlast.
    rewrite final_of_cons.
    destruct (while_loop fuel (state_after n0 p0) point (miles_of point))
      as [[ms1 e1] n1] eqn:Hloop.
    destruct (while_loop_times _ _ _ _ _ _ _ Hv0 Hvq Hp0 Ht Hloop)
      as [Hs1 Hb1].
    assert (Hb1' : Forall (fun m => time p0 <= time m
                                    <= time (final_of point points)) ms1).
    { eapply Forall_impl; [exact Hb1|]. intros m Hm. cbn beta in Hm. lia. }
    rewrite (state_after_at_mile n0 p0) in Hloop.
    destruct (while_loop_inv _ _ _ _ _ _ _ _ Hloop) as (_ & _ & He1).
    destruct e1 as [|x1|].
    + change {| next_mile := n1;
                previous_time := TDatetime (time point);
                previous_miles := miles_of point;
                previous_point := Some point |}
        with (state_after n1 point) in H.
      destruct (for_loop fuel (state_after n1 point) points) as [ms2 e2] eqn:Hfor.
      injection H as <- <-.
      destruct (IH point n1 ms2 e2 Htl Hs' He1 Hfor) as [Hs2 Hb2].
      split.
      * apply StronglySorted_app_2; [|assumption..].
        intros a b Ha Hb. rewrite Forall_forall in Hb1, Hb2.
        specialize (Hb1 a Ha). specialize (Hb2 b Hb). unfold not_later. lia.
      * apply Forall_app. split; [exact Hb1'|].
        eapply Forall_impl; [exact Hb2|]. intros m Hm. cbn beta in Hm. lia.
    + injection H as <- <-. split; assumption.
    + injection H as <- <-. split; assumption.
Qed.

Lemma compute_mileposts_times fuel first rest ms e :
  Forall valid_distance (first :: rest) ->
  StronglySorted not_later (first :: rest) ->
  compute_mileposts fuel (first :: rest) = (ms, e) ->
  StronglySorted not_later ms /\
  Forall (fun m => time first <= time m <= time (final_of first rest)) ms.
Proof.
  intros Hall Hs. unfold compute_mileposts. cbn [for_loop].
  change (distance_meters first * MILES_PER_METER)%f64 with (miles_of first).
  change initial_state with (at_mile initial_state 1) at 1.
  destruct (while_loop fuel (at_mile initial_state 1) first (miles_of first))
    as [[ms1 e1] n1] eqn:Hloop.
  destruct (while_loop_inv _ _ _ _ _ _ _ _ Hloop) as (Hn1 & Hms1 & He1).
  assert (Hnil : ms1 = []).
  { destruct ms1 as [|m ms1]; [reflexivity|]. exfalso.
    destruct (Hms1 0%nat m eq_refl) as [Hgt Hm].
    destruct (milepost_initial_state first (miles_of first) (1 + Z.of_nat 0)
                ltac:(lia) Hgt) as [H|H]; congruence. }
  subst ms1. cbn [length] in Hn1. rewrite Z.add_0_r in Hn1. subst n1.
  destruct e1 as [|x1|]; intros H.
  - change {| next_mile := 1;
              previous_time := TDatetime (time first);
              previous_miles := miles_of first;
              previous_point := Some first |}
      with (state_after 1 first) in H.
    destruct (for_loop fuel (state_after 1 first) rest) as [ms2 e2] eqn:Hfor.
    injection H as <- <-.
    exact (for_loop_times fuel rest first 1 ms2 e2 Hall Hs He1 Hfor).
  - injection H as <- <-. split; constructor.
  - injection H as <- <-. split; constructor.
Qed.

(** X6.  On a track whose samples are in the order of time, the
    Trackpoints that [compute_mileposts] yields are in the order of time
    too, and none is earlier than the first sample or later than the
    last. *)
Theorem mileposts_in_order_of_time fuel first rest ms e :
  Forall valid_distance (first :: rest) ->
  StronglySorted not_later (first :: rest) ->
  compute_mileposts fuel (first :: rest) = (ms, e) ->
  StronglySorted not_later ms /\
  Forall (fun m => time first <= time m <= time (final_of first rest)) ms.
Proof. apply compute_mileposts_times. Qed.

Lemma StronglySorted_lookup_lt {A} (R : A -> A -> Prop) (l : list A) i i' a b :
  StronglySorted R l -> (i < i')%nat ->
  l !! i = Some a -> l !! i' = Some b -> R a b.
Proof.
  intros Hs. revert i i'. induction Hs as [|x l Hs IH Hx]; intros i i' Hii Ha Hb.
  - discriminate Ha.
  - destruct i' as [|i']; [lia|]. destruct i as [|i].
    + injection Ha as <-. rewrite Forall_forall in Hx.
      apply Hx. apply list_elem_of_lookup. exists i'. exact Hb.
    + apply (IH i i'); [lia | exact Ha | exact Hb].
Qed.

(** X7.  The mileposts of a track in the order of time cut it into
    Splits that run forward: [compute_splits] on the track and the
    mileposts that [compute_mileposts] yields for it gives Splits none of
    which ends before it starts, each with a duration that is not
    negative. *)
Theorem splits_run_forward fuel first rest mileposts :
  Forall valid_distance (first :: rest) ->
  StronglySorted not_later (first :: rest) ->
  compute_mileposts fuel (first :: rest) = (mileposts, Finished) ->
  exists splits,
    compute_splits (first :: rest) mileposts = Ok splits /\
    length splits = S (length mileposts) /\
    Forall (fun s => start s <= end_ s /\ 0 <= duration s) splits.
Proof.
  intros Hall Hs H.
  destruct (compute_mileposts_times fuel first rest mileposts Finished
              Hall Hs H) as [Hsorted Hbounds].
  exists (splits_of first (mileposts ++ [final_of first rest])).
  split; [apply compute_splits_eq|].
  split; [rewrite splits_of_length, length_app; simpl; lia|].
  assert (Hb : StronglySorted not_later
                 (first :: mileposts ++ [final_of first rest])).
  { apply StronglySorted_cons. split.
    - apply Forall_app. split.
      + eapply Forall_impl; [exact Hbounds|]. intros m Hm. cbn beta in Hm.
        unfold not_later. lia.
      + constructor; [|constructor]. apply not_later_final, Hs.
    - apply StronglySorted_app_2.
      + intros a b Ha Hb. apply list_elem_of_singleton in Hb. subst b.
        rewrite Forall_forall in Hbounds. specialize (Hbounds a Ha).
        unfold not_later. lia.
      + exact Hsorted.
      + repeat constructor. }
  apply Forall_lookup_2. intros i s Hi.
  destruct (splits_of_lookup _ _ _ _ Hi) as (p & m & Hp & Hm & ->).
  assert (Hpm : not_later p m).
  { apply (StronglySorted_lookup_lt _ _ i (S i) p m Hb); [lia | exact Hp|].
    exact Hm. }
  unfold not_later in Hpm. cbn [split_between start end_ duration].
  unfold datetime_sub. lia.
Qed.

(** ** Runs of the caching geocoder *)

Section GeocoderRunFacts.

Context {R : Type} (reverse_geocoder_search : float64 -> float64 -> option R).

(** One search: an entry that holds a result keeps it, the call log
    grows by this query or not at all, and a result that is not [None] is
    in the cache afterwards. *)
Lemma search_step (self : CachingGeocoder R) lat lon :
  let '(result, self') := search R reverse_geocoder_search self lat lon in
  (forall key r, dict_get R (data R self) key = Some r ->
                 dict_get R (data R self') key = Some r) /\
  (searched R self' = searched R self \/
   searched R self' = searched R self ++ [(lat, lon)]) /\
  (forall r, result = Some r ->
             dict_get R (data R self') (format_key lat lon) = Some r).
Proof.
  unfold search.
  destruct (dict_get R (data R self) (format_key lat lon)) as [r0|] eqn:Hget.
  - split; [intros key r H; exact H|]. split; [left; reflexivity|].
    intros r Hr. injection Hr as <-. exact Hget.
  - cbn [data searched]. split; [|split; [right; reflexivity|]].
    + intros key r H. unfold dict_get in *.
      destruct (decide (key = format_key lat lon)) as [->|Hne].
      * rewrite H in Hget. discriminate.
      * rewrite lookup_insert_ne by congruence. exact H.
    + intros r Hr. unfold dict_get. rewrite lookup_insert_eq. exact Hr.
Qed.

Lemma search_all_run queries : forall (self : CachingGeocoder R),
  let '(results, self') := search_all R reverse_geocoder_search self queries in
  length results = length queries /\
  (forall key r, dict_get R (data R self) key = Some r ->
                 dict_get R (data R self') key = Some r) /\
  (exists calls, searched R self' = searched R self ++ calls /\
                 sublist calls queries) /\
  (forall i lat lon r,
     queries !! i = Some (lat, lon) -> results !! i = Some (Some r) ->
     dict_get R (data R self') (format_key lat lon) = Some r).
Proof.
  induction queries as [|[lat lon] queries IH]; intros self.
  - cbn [search_all]. split; [reflexivity|]. split; [auto|]. split.
    + exists []. rewrite app_nil_r. split; [reflexivity | constructor].
    + intros i lat lon r H. discriminate H.
  - cbn [search_all]. pose proof (search_step self lat lon) as Hstep.
    destruct (search R reverse_geocoder_search self lat lon) as [result self1].
    destruct Hstep as (Hkeep1 & Hlog1 & Hres1).
    specialize (IH self1).
    destruct (search_all R reverse_geocoder_search self1 queries) as [results self2].
    destruct IH as (Hlen & Hkeep2 & (calls & Hlog2 & Hsub) & Hres2).
    split; [cbn [length]; congruence|]. split; [|split].
    + intros key r H. apply Hkeep2, Hkeep1, H.
    + destruct Hlog1 as [Hl | Hl]; rewrite Hl in Hlog2.
      * exists calls. split; [exact Hlog2|]. apply sublist_cons, Hsub.
      * exists ((lat, lon) :: calls). rewrite Hlog2, <- app_assoc.
        split; [reflexivity|]. apply sublist_skip, Hsub.
    + intros [|i] lat' lon' r Hq Hr.
      * injection Hq as <- <-. injection Hr as ->.
        apply Hkeep2, Hres1. reflexivity.
      * exact (Hres2 i lat' lon' r Hq Hr).
Qed.

End GeocoderRunFacts.

(** X8.  Through any run of searches the cache only gains: a key that
    holds a result keeps that very result, the underlying geocoder is
    called for some of the queries, in their order, and never more than
    once per query, and every result other than [None] that a search
    returns is what the cache holds under the key of its query when the
    run is over.  So two queries of a run with the same key never get two
    different results. *)
Theorem search_all_keeps_results
  {R : Type} (reverse_geocoder_search : float64 -> float64 -> option R)
  (self : CachingGeocoder R) queries :
  let '(results, self') := search_all R reverse_geocoder_search self queries in
  length results = length queries /\
  (forall key r, dict_get R (data R self) key = Some r ->
                 dict_get R (data R self') key = Some r) /\
  (exists calls, searched R self' = searched R self ++ calls /\
                 sublist calls queries) /\
  (forall i lat lon r,
     queries !! i = Some (lat, lon) -> results !! i = Some (Some r) ->
     dict_get R (data R self') (format_key lat lon) = Some r) /\
  (forall i i' lat lon lat' lon' r r',
     queries !! i = Some (lat, lon) -> queries !! i' = Some (lat', lon') ->
     format_key lat lon = format_key lat' lon' ->
     results !! i = Some (Some r) -> results !! i' = Some (Some r') ->
     r = r').
Proof.
  pose proof (search_all_run reverse_geocoder_search queries self) as H.
  destruct (search_all R reverse_geocoder_search self queries)
    as [results self'].
  destruct H as (Hlen & Hkeep & Hlog & Hres).
  split; [exact Hlen|]. split; [exact Hkeep|]. split; [exact Hlog|].
  split; [exact Hres|].
  intros i i' lat lon lat' lon' r r' Hq Hq' Hkey Hr Hr'.
  pose proof (Hres i lat lon r Hq Hr) as H1.
  pose proof (Hres i' lat' lon' r' Hq' Hr') as H2.
  rewrite Hkey in H1. congruence.
Qed.

(** X9.  A [None] from the underlying geocoder is stored but never
    served: when the first of two searches with the same key gets [None],
    the second asks the underlying geocoder again, with its own
    coordinates, and returns and stores what it says. *)
Theorem search_None_is_asked_again
  {R : Type} (reverse_geocoder_search : float64 -> float64 -> option R)
  (self : CachingGeocoder R) lat1 lon1 lat2 lon2 :
  format_key lat1 lon1 = format_key lat2 lon2 ->
  dict_get R (data R self) (format_key lat1 lon1) = None ->
  reverse_geocoder_search lat1 lon1 = None ->
  let '(result1, self1) := search R reverse_geocoder_search self lat1 lon1 in
  let '(result2, self2) := search R reverse_geocoder_search self1 lat2 lon2 in
  result1 = None /\
  data R self1 !! format_key lat1 lon1 = Some None /\
  searched R self2 = searched R self ++ [(lat1, lon1); (lat2, lon2)] /\
  result2 = reverse_geocoder_search lat2 lon2 /\
  data R self2 !! format_key lat2 lon2
  = Some (reverse_geocoder_search lat2 lon2).
Proof.
  intros Hkey Hmiss Hr. rewrite (search_miss _ _ _ _ Hmiss), Hr.
  rewrite search_miss
    by (cbn [data]; rewrite <- Hkey; apply dict_get_insert).
  cbn [data searched]. rewrite <- app_assoc, !lookup_insert_eq.
  repeat split.
Qed.

(** ** What the parser yields and what it raises *)

(** X10.  [parse_trackpoints] goes through a document without raising
    exactly when every [Trackpoint] element that has an altitude is
    readable: it has no [Time], its altitude, its two coordinates under
    [Position] and its distance, if it has one, are texts that [float]
    accepts.  It then yields one Trackpoint for each of them, in the
    order of the document, with the values read, not-a-number for a
    missing distance, and the sentinel 2019-11-11T01:02:03 for the
    time. *)
Theorem parse_trackpoints_finishes_iff
  (float_of_string : string -> option float64) document ps :
  parse_trackpoints float_of_string document = (ps, Finished) <->
  Forall2 (readable_as float_of_string)
    (kept (findall_descendants document "Trackpoint")) ps.
Proof.
  unfold parse_trackpoints. split.
  - intros H.
    pose proof (parse_elements_kept float_of_string
                  (findall_descendants document "Trackpoint")) as Hk.
    rewrite H in Hk. destruct Hk as (n & Hps & ->).
    rewrite firstn_all in Hps. apply Forall2_parsed_readable, Hps.
  - apply parse_elements_readable.
Qed.

(** X11.  When [parse_trackpoints] raises, it has yielded the readable
    samples before the first one, among those with an altitude, that is
    not, and the exception tells what is wrong with that one:
    [NameError] when it has a [Time], whatever else it has; otherwise
    [AttributeError] only when a coordinate cannot be reached, for want
    of a [Position] or of one of its two elements, and [TypeError] or
    [ValueError] for a text that [float] does not accept. *)
Theorem parse_trackpoints_raises
  (float_of_string : string -> option float64) document ps x :
  parse_trackpoints float_of_string document = (ps, Raised x) ->
  let samples := kept (findall_descendants document "Trackpoint") in
  Forall2 (readable_as float_of_string) (take (length ps) samples) ps /\
  exists t,
    samples !! length ps = Some t /\
    parse_trackpoint float_of_string t = Raise x /\
    (find t "Time" <> None -> x = NameError) /\
    (find t "Time" = None ->
     x = TypeError \/ x = ValueError \/
     x = AttributeError /\ no_coordinate t).
Proof.
  intros H samples. unfold parse_trackpoints in H.
  pose proof (parse_elements_kept float_of_string
                (findall_descendants document "Trackpoint")) as Hk.
  rewrite H in Hk. destruct Hk as (n & Hps & t & Ht & Hx).
  fold samples in Hps, Ht.
  assert (Hn : length ps = n).
  { apply Forall2_length in Hps. rewrite length_take in Hps.
    apply lookup_lt_Some in Ht. lia. }
  rewrite Hn. split; [apply Forall2_parsed_readable, Hps|].
  exists t. split; [exact Ht|]. split; [exact Hx|].
  destruct (parse_trackpoint_raise _ _ _ Hx) as [_ [[-> Htime] | [Htime Hc]]].
  - split; [reflexivity | congruence].
  - split; [congruence | intros _; exact Hc].
Qed.

Lemma parse_trackpoints_raises_witness :
  exists t,
    kept (findall_descendants sample_document_with_time "Trackpoint") !! 0%nat
    = Some t /\
    parse_trackpoint decimal_float t = Raise NameError.
Proof.
  destruct (parse_trackpoints_raises decimal_float
              sample_document_with_time [] NameError eq_refl)
    as (_ & t & Ht & Hx & _).
  exists t. split; [exact Ht | exact Hx].
Defined.

(** ** [process] *)

Lemma divide_nearest_0 b : 0 < b -> divide_nearest 0 b = 0.
Proof.
  intros Hb. unfold divide_nearest. rewrite Z.div_0_l, Z.mod_0_l by lia.
  destruct (Z.ltb_spec b (2 * 0)); [lia|].
  destruct (Z.eqb_spec b (2 * 0)); [lia|]. reflexivity.
Qed.

(** No time at all times a fraction is no time at all. *)
Lemma timedelta_mul_zero f r : timedelta_mul 0 f = Ok r -> r = 0.
Proof.
  destruct f as [s | s | | s m e]; cbn [timedelta_mul]; try discriminate.
  - intros H. injection H as <-. reflexivity.
  - intros H. apply check_timedelta_inv in H. subst r.
    destruct (Z.leb_spec 0 e); [reflexivity|].
    apply divide_nearest_0, Z.pow_pos_nonneg; lia.
Qed.

(** When the samples all bear one time, so do the mileposts. *)
Lemma mileposts_same_time fuel track ms e T :
  Forall (fun p => time p = T) track ->
  compute_mileposts fuel track = (ms, e) ->
  Forall (fun m => time m = T) ms.
Proof.
  intros Hall H. destruct (compute_mileposts_inv _ _ _ _ H) as [Hms _].
  eapply Forall_impl; [exact Hms|]. intros m Hs. cbn beta in Hs.
  destruct Hs as (pre & pp & point & post & j & -> & _ & _ & _ & Hm).
  apply Forall_app in Hall. destruct Hall as [_ Hall].
  pose proof (Forall_inv Hall) as Hpp.
  pose proof (Forall_inv (Forall_inv_tail Hall)) as Hpt. cbn beta in Hpp, Hpt.
  destruct (milepost_inv _ _ _ _ Hm) as (f & r & _ & Hr & Htime).
  unfold datetime_sub in Hr. rewrite Hpp, Hpt, Z.sub_diag in Hr.
  apply timedelta_mul_zero in Hr. lia.
Qed.

Lemma split_between_same_time p m :
  time p = time m ->
  duration (split_between p m) = 0 /\ mph_ (split_between p m) = F64.zero.
Proof.
  intros H. cbn [split_between duration mph_]. unfold datetime_sub.
  rewrite H, Z.sub_diag. split; reflexivity.
Qed.

Section ParsedTracks.

Variable float_of_string : string -> option float64.

(** Every Trackpoint that the parser yields bears the time of the
    sentinel. *)
Lemma parse_trackpoints_times document ps e :
  parse_trackpoints float_of_string document = (ps, e) ->
  Forall (fun p => time p = T0) ps.
Proof.
  intros H. unfold parse_trackpoints in H.
  pose proof (parse_elements_kept float_of_string
                (findall_descendants document "Trackpoint")) as Hk.
  rewrite H in Hk. destruct Hk as (n & Hps & _).
  apply Forall_lookup_2. intros i p Hi.
  destruct (Forall2_lookup_r _ _ _ _ _ Hps Hi) as (t & _ & Ht).
  apply parse_trackpoint_yield in Ht. destruct Ht as (_ & Ht & _).
  rewrite sentinel_is_T0 in Ht. injection Ht as <-. reflexivity.
Qed.

End ParsedTracks.

Section ProcessFacts.

Variable float_of_string : string -> option float64.
Context {G TZ : Type}.
Variable reverse_geocoder_search : float64 -> float64 -> option (list G).
Variable timezone_at : float64 -> float64 -> result TZ.
Variable format_label : TZ -> float64 -> Z -> string.

Lemma parse_elements_none_kept elements :
  kept elements = [] ->
  parse_elements float_of_string elements = ([], Finished).
Proof.
  intros Hk. pose proof (parse_elements_kept float_of_string elements) as H.
  destruct (parse_elements float_of_string elements) as [ps e].
  destruct H as (n & Hps & He). rewrite Hk in Hps, He.
  rewrite take_nil in Hps. apply Forall2_nil_inv_l in Hps. subst ps.
  destruct e as [|x|]; [reflexivity | | contradiction].
  destruct He as (t & Ht & _). discriminate Ht.
Qed.

(** What a successful run of [process] went through. *)
Lemma process_inv fuel x geocoder output_name page summary geocoder' :
  process float_of_string G reverse_geocoder_search TZ timezone_at
    format_label fuel x geocoder output_name
  = (Some (Ok (page, summary)), geocoder') ->
  exists first rest geocodes geocode tz mileposts,
    parse_trackpoints float_of_string x = (first :: rest, Finished) /\
    search (list G) reverse_geocoder_search geocoder
      (latitude_degrees first) (longitude_degrees first)
    = (geocodes, geocoder') /\
    first_of geocodes = Ok geocode /\
    timezone_at (latitude_degrees first) (longitude_degrees first) = Ok tz /\
    compute_mileposts fuel (first :: rest) = (mileposts, Finished) /\
    let final := final_of first rest in
    let miles := (distance_meters final * MILES_PER_METER)%f64 in
    let duration := datetime_sub (time final) (time first) in
    page =
      {| Page.duration := duration;
         Page.icons :=
           map (fun p =>
                  {| lat := latitude_degrees p;
                     lon := longitude_degrees p;
                     label := format_label tz
                                (distance_meters p * MILES_PER_METER)%f64
                                (time p) |}) mileposts;
         Page.route :=
           map (fun p => (latitude_degrees p, longitude_degrees p))
             (first :: rest);
         Page.miles := miles;
         Page.mph := if duration =? 0 then F64.zero
                     else (distance_meters final * MILES_PER_METER
                           / total_seconds duration * sixty * sixty)%f64;
         Page.splits := splits_of first (mileposts ++ [final]);
         Page.start := time first |} /\
    summary =
      {| Summary.geocode := geocode;
         Summary.start := time first;
         Summary.miles := miles;
         Summary.url := output_name |}.
Proof.
  unfold process.
  destruct (parse_trackpoints float_of_string x) as [ps e] eqn:Hparse.
  destruct e as [|e|]; cbn [list_of]; try discriminate.
  destruct ps as [|first rest]; cbn [head]; [discriminate|].
  destruct (search (list G) reverse_geocoder_search geocoder
              (latitude_degrees first) (longitude_degrees first))
    as [geocodes geocoder1] eqn:Hsearch.
  destruct (first_of geocodes) as [geocode|] eqn:Hfirst; [|discriminate].
  destruct (timezone_at (latitude_degrees first) (longitude_degrees first))
    as [tz|] eqn:Htz; [|discriminate].
  destruct (compute_mileposts fuel (first :: rest)) as [mileposts em] eqn:Hm.
  destruct em as [|em|]; cbn [list_within]; try discriminate.
  change (default first (last (first :: rest)))
    with (final_of first (first :: rest)).
  rewrite compute_splits_eq. cbn [bind]. rewrite mph_eq. cbn [bind].
  rewrite final_of_cons. intros H. injection H as <- <- <-.
  exists first, rest, geocodes, geocode, tz, mileposts.
  repeat split; try assumption; reflexivity.
Qed.

End ProcessFacts.

(** X13.  A page that [process] produces shows no time passing: its
    start is the sentinel 2019-11-11T01:02:03, its duration is zero and
    its speed [0.0], and every one of its Splits starts and ends at that
    same instant with a zero duration and a speed of [0.0].  (The parser
    gives every sample the sentinel for its time, and fails on a sample
    that has a [Time].) *)
Theorem process_shows_no_time_passing
  (float_of_string : string -> option float64) {G TZ : Type}
  (reverse_geocoder_search : float64 -> float64 -> option (list G))
  (timezone_at : float64 -> float64 -> result TZ)
  (format_label : TZ -> float64 -> Z -> string)
  fuel x geocoder output_name page summary geocoder' :
  process float_of_string G reverse_geocoder_search TZ timezone_at
    format_label fuel x geocoder output_name
  = (Some (Ok (page, summary)), geocoder') ->
  strptime_ISO "2019-11-11T01:02:03Z" = Ok (Page.start page) /\
  Summary.start summary = Page.start page /\
  Page.duration page = 0 /\
  Page.mph page = F64.zero /\
  length (Page.splits page) = S (length (Page.icons page)) /\
  Forall (fun s => start s = Page.start page /\ end_ s = Page.start page /\
                   duration s = 0 /\ mph_ s = F64.zero)
    (Page.splits page).
Proof.
  intros H. apply process_inv in H.
  destruct H as (first & rest & geocodes & geocode & tz & mileposts
                 & Hparse & _ & _ & _ & Hm & Hpage & Hsummary).
  cbv zeta in Hpage, Hsummary. subst page summary.
  cbn [Page.start Page.duration Page.mph Page.splits Page.icons Summary.start].
  pose proof (parse_trackpoints_times _ _ _ _ Hparse) as Htimes.
  pose proof (mileposts_same_time _ _ _ _ _ Htimes Hm) as Hmt.
  pose proof (Forall_inv Htimes) as Hfirst. cbn beta in Hfirst.
  assert (Hfinal : time (final_of first rest) = T0).
  { destruct (final_of_elem first rest) as [[-> _] | Hin]; [exact Hfirst|].
    rewrite Forall_forall in Htimes. apply Htimes. right. exact Hin. }
  rewrite Hfirst. split; [reflexivity|]. split; [reflexivity|].
  unfold datetime_sub. rewrite Hfinal, Z.sub_diag.
  split; [reflexivity|]. split; [reflexivity|].
  split; [rewrite splits_of_length, length_app, length_map; cbn; lia|].
  assert (Hb : Forall (fun p => time p = T0)
                 (first :: mileposts ++ [final_of first rest])).
  { constructor; [exact Hfirst|]. apply Forall_app. split; [exact Hmt|].
    constructor; [exact Hfinal | constructor]. }
  apply Forall_lookup_2. intros i s Hi.
  destruct (splits_of_lookup _ _ _ _ Hi) as (p & m & Hp & Hmm & ->).
  rewrite Forall_lookup in Hb.
  pose proof (Hb _ _ Hp) as Htp. pose proof (Hb (S i) m Hmm) as Htm.
  cbn beta in Htp, Htm.
  destruct (split_between_same_time p m ltac:(congruence)) as [Hd Hs].
  cbn [split_between start end_] in *. repeat split; assumption.
Qed.

(** X12.  [process] does not reach the geocoder without a sample: when
    no [Trackpoint] of the document has an altitude it raises
    [IndexError], and when the parser raises it raises the same, the
    geocoder coming back as it went in. *)
Theorem process_without_a_sample
  (float_of_string : string -> option float64) {G TZ : Type}
  (reverse_geocoder_search : float64 -> float64 -> option (list G))
  (timezone_at : float64 -> float64 -> result TZ)
  (format_label : TZ -> float64 -> Z -> string)
  fuel x geocoder output_name :
  (kept (findall_descendants x "Trackpoint") = [] ->
   process float_of_string G reverse_geocoder_search TZ timezone_at
     format_label fuel x geocoder output_name
   = (Some (Raise IndexError), geocoder)) /\
  (forall ps e,
     parse_trackpoints float_of_string x = (ps, Raised e) ->
     process float_of_string G reverse_geocoder_search TZ timezone_at
       format_label fuel x geocoder output_name
     = (Some (Raise e), geocoder)).
Proof.
  unfold process, parse_trackpoints. split.
  - intros Hk. rewrite (parse_elements_none_kept _ _ Hk). reflexivity.
  - intros ps e ->. reflexivity.
Qed.

(** X14.  [process] is repeatable: after a run that produced a page, a
    second run on the same document with the geocoder as the first one
    left it produces the same page and [Summary], finds the geocode of
    the start in the cache and leaves the geocoder as it is; and the
    first run called the underlying geocoder at most once, for the
    coordinates of the first sample. *)
Theorem process_again
  (float_of_string : string -> option float64) {G TZ : Type}
  (reverse_geocoder_search : float64 -> float64 -> option (list G))
  (timezone_at : float64 -> float64 -> result TZ)
  (format_label : TZ -> float64 -> Z -> string)
  fuel x geocoder output_name page summary geocoder' :
  process float_of_string G reverse_geocoder_search TZ timezone_at
    format_label fuel x geocoder output_name
  = (Some (Ok (page, summary)), geocoder') ->
  process float_of_string G reverse_geocoder_search TZ timezone_at
    format_label fuel x geocoder' output_name
  = (Some (Ok (page, summary)), geocoder') /\
  (searched (list G) geocoder' = searched (list G) geocoder \/
   exists first rest,
     parse_trackpoints float_of_string x = (first :: rest, Finished) /\
     searched (list G) geocoder'
     = searched (list G) geocoder
       ++ [(latitude_degrees first, longitude_degrees first)]).
Proof.
  intros H. pose proof H as Hinv. apply process_inv in Hinv.
  destruct Hinv as (first & rest & geocodes & geocode & tz & mileposts
                    & Hparse & Hsearch & Hfirst & _).
  assert (Hgeo : exists r, geocodes = Some r).
  { destruct geocodes as [r|]; [eauto | discriminate Hfirst]. }
  destruct Hgeo as [r ->].
  assert (Hagain : search (list G) reverse_geocoder_search geocoder'
                     (latitude_degrees first) (longitude_degrees first)
                   = (Some r, geocoder')).
  { apply search_hit. revert Hsearch. unfold search.
    destruct (dict_get (list G) (data (list G) geocoder) _) as [r0|] eqn:Hget.
    - intros Hs. injection Hs as <- <-. exact Hget.
    - intros Hs. injection Hs as Hr <-. cbn [data]. rewrite Hr.
      apply dict_get_insert. }
  split.
  - revert H. unfold process. rewrite Hparse. cbn [list_of head].
    rewrite Hsearch, Hagain. intros H. exact H.
  - revert Hsearch. unfold search.
    destruct (dict_get (list G) (data (list G) geocoder) _) as [r0|].
    + intros Hs. injection Hs as _ <-. left. reflexivity.
    + intros Hs. injection Hs as _ <-. right. exists first, rest.
      split; [exact Hparse | reflexivity].
Qed.

(** ** The properties on sample tracks *)

Lemma short_track_valid : Forall valid_sample short_track.
Proof. repeat constructor; vm_compute; congruence. Qed.

Lemma short_track_distances : Forall valid_distance short_track.
Proof. repeat constructor. Qed.

Lemma short_track_mileposts :
  exists m, compute_mileposts 1 short_track = ([m], Finished).
Proof. eexists. vm_compute. reflexivity. Qed.

Lemma compute_mileposts_exceptions_witness :
  compute_mileposts 1 [sample_at 0 nan; sample_at 600 (Prim2SF 2000)]
  = ([], Raised ValueError) /\
  (ValueError = ValueError \/ ValueError = OverflowError).
Proof.
  split; [reflexivity|].
  destruct (compute_mileposts_exceptions 1
              [sample_at 0 nan; sample_at 600 (Prim2SF 2000)] []
              ValueError) as [(H & _) | H].
  - repeat constructor.
  - reflexivity.
  - discriminate H.
  - exact H.
Defined.

Lemma mileposts_between_samples_witness :
  exists m f,
    compute_mileposts 1 short_track = ([m], Finished) /\
    distance_meters m = (F64.of_Z 1 / MILES_PER_METER)%f64 /\
    T0 <= time m <= T0 + 600 * US_PER_SECOND /\
    altitude_meters m = interpolate (Prim2SF 12.3) (Prim2SF 12.3) f.
Proof.
  destruct short_track_mileposts as [m Hm].
  pose proof (mileposts_between_samples 1 short_track [m] Finished
                short_track_distances Hm) as H.
  apply Forall_inv in H.
  destruct H as (pre & pp & point & post & j & f & Ht & Hj & HP & HM & Hd
                 & Htime & _ & _ & Ha & _).
  assert (Hpre : pre = [] /\ pp = sample_at 0 (Prim2SF 0) /\
                 point = sample_at 600 (Prim2SF 2000)).
  { unfold short_track in Ht. destruct pre as [|p0 [|p1 [|p2 pre]]];
      try discriminate Ht.
    injection Ht as <- <- _. auto. }
  destruct Hpre as (-> & -> & ->).
  assert (Hj1 : j = 1).
  { destruct (Z.eq_dec j 1) as [H1|H1]; [exact H1|]. exfalso.
    assert (Hf : F64.gt_int (miles_of (sample_at 600 (Prim2SF 2000))) 2
                 = false) by reflexivity.
    rewrite (gt_int_antitone _ 2 j ltac:(lia) Hf) in HM. discriminate. }
  subst j. exists m, f. split; [exact Hm|]. split; [exact Hd|].
  split; [|exact Ha]. cbn [sample_at time] in Htime.
  unfold US_PER_SECOND in *. lia.
Defined.

Lemma mileposts_not_beyond_last_witness :
  exists m,
    compute_mileposts 1 short_track = ([m], Finished) /\
    F64.is_finite (distance_meters m) = true /\
    (val (distance_meters m) <= val (Prim2SF 2000))%R.
Proof.
  destruct short_track_mileposts as [m Hm].
  pose proof (mileposts_not_beyond_last 1 (sample_at 0 (Prim2SF 0))
                [sample_at 600 (Prim2SF 2000)] [m] Finished
                short_track_valid ltac:(repeat split) eq_refl Hm) as H.
  apply Forall_inv in H. destruct H as [Hf [_ Hle]].
  exists m. split; [exact Hm|]. split; [exact Hf | exact Hle].
Defined.

Lemma short_track_in_order : StronglySorted not_later short_track.
Proof.
  repeat constructor. unfold not_later, sample_at, US_PER_SECOND.
  cbn [time]. lia.
Qed.

Lemma mileposts_in_order_of_time_witness :
  exists m,
    compute_mileposts 1 short_track = ([m], Finished) /\
    T0 <= time m <= T0 + 600 * US_PER_SECOND.
Proof.
  destruct short_track_mileposts as [m Hm].
  destruct (mileposts_in_order_of_time 1 (sample_at 0 (Prim2SF 0))
              [sample_at 600 (Prim2SF 2000)] [m] Finished
              short_track_distances short_track_in_order Hm) as [_ H].
  apply Forall_inv in H. exists m. split; [exact Hm | exact H].
Defined.

Lemma splits_run_forward_witness :
  exists m splits,
    compute_mileposts 1 short_track = ([m], Finished) /\
    compute_splits short_track [m] = Ok splits /\
    length splits = 2%nat /\
    Forall (fun s => start s <= end_ s /\ 0 <= duration s) splits.
Proof.
  destruct short_track_mileposts as [m Hm].
  destruct (splits_run_forward 1 (sample_at 0 (Prim2SF 0))
              [sample_at 600 (Prim2SF 2000)] [m]
              short_track_distances short_track_in_order Hm)
    as (splits & Hs & Hlen & Hall).
  exists m, splits. repeat split; assumption.
Defined.

(** An underlying geocoder that knows no place. *)
Lemma search_None_is_asked_again_witness :
  let geocoder := fun _ _ : float64 => @None string in
  let '(result1, self1) :=
    search string geocoder {| data := ∅; searched := [] |}
      (Prim2SF 40.1234561) (Prim2SF (-74.5)) in
  let '(result2, self2) :=
    search string geocoder self1 (Prim2SF 40.1234562) (Prim2SF (-74.5)) in
  result1 = None /\
  searched string self2
  = [(Prim2SF 40.1234561, Prim2SF (-74.5));
     (Prim2SF 40.1234562, Prim2SF (-74.5))].
Proof.
  pose proof (search_None_is_asked_again
                (fun _ _ : float64 => @None string)
                {| data := ∅; searched := [] |}
                (Prim2SF 40.1234561) (Prim2SF (-74.5))
                (Prim2SF 40.1234562) (Prim2SF (-74.5))
                ltac:(vm_compute; reflexivity) ltac:(vm_compute; reflexivity)
                eq_refl) as H.
  cbv zeta.
  destruct (search string _ _ (Prim2SF 40.1234561) _) as [result1 self1].
  destruct (search string _ self1 _ _) as [result2 self2].
  destruct H as (H1 & _ & H2 & _). split; [exact H1 | exact H2].
Defined.

Lemma sample_process_runs :
  exists page summary geocoder',
    sample_process sample_track {| data := ∅; searched := [] |}
    = (Some (Ok (page, summary)), geocoder').
Proof. do 3 eexists. vm_compute. reflexivity. Qed.

Lemma process_shows_no_time_passing_witness :
  exists page summary geocoder',
    sample_process sample_track {| data := ∅; searched := [] |}
    = (Some (Ok (page, summary)), geocoder') /\
    Page.duration page = 0 /\ Page.mph page = F64.zero /\
    Forall (fun s => duration s = 0 /\ mph_ s = F64.zero) (Page.splits page).
Proof.
  destruct sample_process_runs as (page & summary & geocoder' & H).
  exists page, summary, geocoder'. split; [exact H|].
  destruct (process_shows_no_time_passing decimal_float
              (fun _ _ => Some ["Trenton"]) (fun _ _ => Ok tt)
              (fun _ _ _ => "") 1 sample_track
              {| data := ∅; searched := [] |} "track.html"
              page summary geocoder' H) as (_ & _ & Hd & Hs & _ & Hall).
  split; [exact Hd|]. split; [exact Hs|].
  eapply Forall_impl; [exact Hall|]. intros s (_ & _ & H1 & H2).
  split; assumption.
Defined.

Lemma process_again_witness :
  exists page summary geocoder',
    sample_process sample_track {| data := ∅; searched := [] |}
    = (Some (Ok (page, summary)), geocoder') /\
    sample_process sample_track geocoder'
    = (Some (Ok (page, summary)), geocoder').
Proof.
  destruct sample_process_runs as (page & summary & geocoder' & H).
  exists page, summary, geocoder'. split; [exact H|].
  exact (proj1 (process_again decimal_float
                  (fun _ _ => Some ["Trenton"]) (fun _ _ => Ok tt)
                  (fun _ _ _ => "") 1 sample_track
                  {| data := ∅; searched := [] |} "track.html"
                  page summary geocoder' H)).
Defined.

(** ** The mileposts of any track *)

(** The distance of a milepost is that of its mile, whatever the state
    of the loop. *)
Lemma milepost_distance st point miles m :
  milepost st point miles = Ok m ->
  distance_meters m = (F64.of_Z (next_mile st) / MILES_PER_METER)%f64.
Proof.
  unfold milepost, float_of_int.
  destruct (F64.is_finite (F64.of_Z (next_mile st))); cbn [bind];
    [|discriminate].
  destruct (py_truediv _ _); cbn [bind]; [|discriminate].
  destruct (time_sub _ _); cbn [bind]; [|discriminate].
  destruct (time_add _ _ _); cbn [bind]; [|discriminate].
  rewrite py_truediv_MILES_PER_METER. cbn [bind].
  destruct (read_previous_point st); cbn [bind]; [|discriminate].
  intros H. injection H as <-. reflexivity.
Qed.

Lemma while_loop_numbered fuel st j point miles ms e n :
  while_loop fuel (at_mile st j) point miles = (ms, e, n) ->
  n = j + Z.of_nat (length ms) /\ mileposts_from j ms.
Proof.
  intros H. destruct (while_loop_inv _ _ _ _ _ _ _ _ H) as (Hn & Hms & _).
  split; [exact Hn|]. intros i m Hi. destruct (Hms i m Hi) as [_ Hm].
  exact (milepost_distance _ _ _ _ Hm).
Qed.

Lemma for_loop_numbered fuel points : forall st j ms e,
  for_loop fuel (at_mile st j) points = (ms, e) -> mileposts_from j ms.
Proof.
  induction points as [|point points IH]; intros st j ms e H.
  - injection H as <- <-. apply mileposts_from_nil.
  - cbn [for_loop] in H.
    destruct (while_loop fuel (at_mile st j) point _) as [[ms1 e1] n1] eqn:Hloop.
    destruct (while_loop_numbered _ _ _ _ _ _ _ _ Hloop) as [Hn1 Hms1].
    destruct e1 as [|x1|]; try (injection H as <- <-; exact Hms1).
    change {| next_mile := n1;
              previous_time := TDatetime (time point);
              previous_miles := (distance_meters point * MILES_PER_METER)%f64;
              previous_point := Some point |}
      with (at_mile (state_after n1 point) n1) in H.
    destruct (for_loop fuel (at_mile (state_after n1 point) n1) points)
      as [ms2 e2] eqn:Hfor.
    injection H as <- <-. apply mileposts_from_app; [exact Hms1|].
    rewrite <- Hn1. exact (IH _ _ _ _ Hfor).
Qed.

(** X15.  Whatever the track and however the generator ends, the
    Trackpoints that [compute_mileposts] yields are those of miles 1, 2,
    3 and so on, none left out and none twice: the [k]-th one has
    [distance_meters = k / MILES_PER_METER]. *)
Theorem mileposts_are_numbered fuel track ms e i m :
  compute_mileposts fuel track = (ms, e) ->
  ms !! i = Some m ->
  distance_meters m
  = (F64.of_Z (1 + Z.of_nat i) / MILES_PER_METER)%f64.
Proof.
  unfold compute_mileposts. change initial_state with (at_mile initial_state 1).
  intros H. exact (for_loop_numbered _ _ _ _ _ _ H i m).
Qed.

Lemma mileposts_are_numbered_witness :
  exists m,
    compute_mileposts 1 short_track = ([m], Finished) /\
    distance_meters m = (F64.of_Z 1 / MILES_PER_METER)%f64.
Proof.
  destruct short_track_mileposts as [m Hm]. exists m. split; [exact Hm|].
  exact (mileposts_are_numbered 1 short_track [m] Finished 0 m Hm eq_refl).
Defined.

(** The [for] loop on a track of valid samples, in any order of
    distance: it yields a milepost for each mile from [j] on that some
    sample is beyond. *)
Lemma for_loop_total B fuel points : forall pp j,
  valid_sample pp -> Forall valid_sample points ->
  F64.gt_int (miles_of pp) j = false -> 1 <= j <= B ->
  Forall (fun p => F64.gt_int (miles_of p) B = false) points ->
  (Z.to_nat (B - j) <= fuel)%nat ->
  exists ms n,
    for_loop fuel (state_after j pp) points = (ms, Finished) /\
    n = j + Z.of_nat (length ms) /\ n <= B /\
    forall k, j <= k ->
      k < n <-> Exists (fun p => F64.gt_int (miles_of p) k = true) points.
Proof.
  induction points as [|point points IH]; intros pp j Hpp Hall HP Hj HB Hfuel.
  - exists [], j. cbn [for_loop length]. split; [reflexivity|].
    split; [lia|]. split; [lia|]. intros k Hk. split; [lia|].
    intros H. inversion H.
  - pose proof (Forall_inv Hall) as Hpt.
    pose proof (Forall_inv_tail Hall) as Htl.
    pose proof (miles_of_finite pp Hpp) as HfP.
    destruct (while_loop_ok B fuel j pp point Hpp Hpt)
      as (ms1 & n1 & Hloop & Hn1 & Hn1B & Hend & Hprev & _).
    { destruct (Rle_or_lt (val (miles_of pp)) (IZR j)) as [H|H]; [exact H|].
      apply (gt_int_val _ j HfP) in H. congruence. }
    { lia. }
    { exact (Forall_inv HB). }
    { exact Hfuel. }
    destruct (IH point n1 Hpt Htl Hend ltac:(lia) (Forall_inv_tail HB)
                ltac:(lia)) as (ms2 & n2 & Hfor & Hn2 & Hn2B & Hiff).
    exists (ms1 ++ ms2), n2. cbn [for_loop].
    change (distance_meters point * MILES_PER_METER)%f64 with (miles_of point).
    rewrite Hloop.
    change {| next_mile := n1;
              previous_time := TDatetime (time point);
              previous_miles := miles_of point;
              previous_point := Some point |}
      with (state_after n1 point).
    rewrite Hfor. split; [reflexivity|].
    split; [rewrite length_app; lia|]. split; [exact Hn2B|].
    intros k Hk. split.
    + intros Hkn. destruct (Z.lt_ge_cases k n1) as [Hlt|Hge].
      * apply Exists_cons_hd.
        destruct (F64.gt_int (miles_of point) k) eqn:Hgt; [reflexivity|].
        rewrite (gt_int_antitone _ k (n1 - 1) ltac:(lia) Hgt) in Hprev.
        discriminate (Hprev ltac:(lia)).
      * apply Exists_cons_tl, Hiff; lia.
    + intros H. apply Exists_cons in H. destruct H as [H|H].
      * destruct (Z.lt_ge_cases k n1) as [Hlt|Hge]; [lia|].
        rewrite (gt_int_antitone _ n1 k Hge Hend) in H. discriminate.
      * destruct (Z.lt_ge_cases k n1) as [Hlt|Hge]; [lia|].
        apply Hiff; assumption.
Qed.

(** X16.  On a track of valid samples, in whatever order their
    distances come (standing still, going back), whose first sample is
    not beyond mile 1, [compute_mileposts] finishes without raising, and
    yields the milepost of mile [k >= 1] exactly when some sample is
    beyond mile [k]: the number of mileposts is the number of whole miles
    that the farthest sample is beyond. *)
Theorem mileposts_of_any_track fuel first rest :
  Forall valid_sample (first :: rest) ->
  F64.gt_int (miles_of first) 1 = false ->
  Forall (fun p => F64.gt_int (miles_of p) (1 + Z.of_nat fuel) = false) rest ->
  exists ms,
    compute_mileposts fuel (first :: rest) = (ms, Finished) /\
    (forall i m, ms !! i = Some m ->
       distance_meters m
       = (F64.of_Z (1 + Z.of_nat i) / MILES_PER_METER)%f64) /\
    forall k, 1 <= k ->
      k <= Z.of_nat (length ms) <->
      Exists (fun p => F64.gt_int (miles_of p) k = true) (first :: rest).
Proof.
  intros Hall Hfirst HB.
  pose proof (Forall_inv Hall) as Hf. pose proof (Forall_inv_tail Hall) as Htl.
  destruct (for_loop_total (1 + Z.of_nat fuel) fuel rest first 1 Hf Htl Hfirst
              ltac:(lia) HB ltac:(lia)) as (ms & n & Hfor & Hn & _ & Hiff).
  assert (Hrun : compute_mileposts fuel (first :: rest) = (ms, Finished)).
  { unfold compute_mileposts. cbn [for_loop].
    change (distance_meters first * MILES_PER_METER)%f64 with (miles_of first).
    rewrite (while_loop_false fuel initial_state first (miles_of first) Hfirst).
    cbn [app next_mile initial_state].
    change {| next_mile := 1;
              previous_time := TDatetime (time first);
              previous_miles := miles_of first;
              previous_point := Some first |}
      with (state_after 1 first).
    rewrite Hfor. reflexivity. }
  exists ms. split; [exact Hrun|]. split.
  - intros i m Hi.
    unfold compute_mileposts in Hrun.
    change initial_state with (at_mile initial_state 1) in Hrun.
    exact (for_loop_numbered _ _ _ _ _ _ Hrun i m Hi).
  - intros k Hk. rewrite Exists_cons.
    rewrite <- (Hiff k Hk). split.
    + intros H. right. lia.
    + intros [H|H]; [|lia].
      rewrite (gt_int_antitone _ 1 k Hk Hfirst) in H. discriminate.
Qed.


Lemma mileposts_of_any_track_witness :
  exists m, compute_mileposts 1 wandering_track = ([m], Finished).
Proof.
  destruct (mileposts_of_any_track 1 (sample_at 0 (Prim2SF 0))
              [sample_at 600 (Prim2SF 2000); sample_at 700 (Prim2SF 2000);
               sample_at 800 (Prim2SF 1500)])
    as (ms & Hrun & _ & Hcount).
  - repeat constructor; vm_compute; congruence.
  - reflexivity.
  - repeat constructor.
  - destruct ms as [|m [|m' ms]].
    + exfalso. assert (H : 1 <= Z.of_nat (@length Trackpoint [])).
      { apply (Hcount 1 ltac:(lia)). apply Exists_cons_tl, Exists_cons_hd.
        reflexivity. }
      cbn in H. lia.
    + exists m. exact Hrun.
    + exfalso.
      assert (H : Exists (fun p => F64.gt_int (miles_of p) 2 = true)
                    wandering_track).
      { apply (Hcount 2 ltac:(lia)). cbn [length]. lia. }
      unfold wandering_track in H.
      repeat (apply Exists_cons in H; destruct H as [H|H];
              [discriminate H|]).
      inversion H.
Defined.

(** ** The key of the cache *)

(** *** Strings *)

Lemma append_cons c s t : String c s +:+ t = String c (s +:+ t).
Proof. reflexivity. Qed.

Lemma append_nil_l t : "" +:+ t = t.
Proof. reflexivity. Qed.

Lemma length_append s t :
  String.length (s +:+ t) = (String.length s + String.length t)%nat.
Proof.
  induction s as [|c s IH]; [reflexivity|].
  rewrite append_cons. cbn [String.length]. rewrite IH. reflexivity.
Qed.

(** Two strings that end in tails of one length are equal part by
    part. *)
Lemma append_inj_length s : forall s' t t',
  String.length t = String.length t' ->
  s +:+ t = s' +:+ t' -> s = s' /\ t = t'.
Proof.
  induction s as [|c s IH]; intros [|c' s'] t t' Hlen H.
  - split; [reflexivity | exact H].
  - exfalso. rewrite append_nil_l in H. subst t.
    rewrite length_append in Hlen. cbn [String.length] in Hlen. lia.
  - exfalso. rewrite append_nil_l in H. subst t'.
    rewrite length_append in Hlen. cbn [String.length] in Hlen. lia.
  - rewrite !append_cons in H. injection H as -> H.
    destruct (IH s' t t' Hlen H) as [-> ->]. split; reflexivity.
Qed.

Lemma no_space_append s t :
  no_space (s +:+ t) = no_space s && no_space t.
Proof.
  induction s as [|c s IH]; [reflexivity|].
  rewrite append_cons. cbn [no_space]. rewrite IH, andb_assoc. reflexivity.
Qed.

(** Two strings without a space that are followed by a space are equal
    when what they begin is. *)
Lemma append_space_inj s : forall s' t t',
  no_space s = true -> no_space s' = true ->
  s +:+ String " " t = s' +:+ String " " t' -> s = s' /\ t = t'.
Proof.
  induction s as [|c s IH]; intros [|c' s'] t t' Hs Hs' H.
  - rewrite !append_nil_l in H. injection H as ->. split; reflexivity.
  - exfalso. rewrite append_nil_l, append_cons in H. injection H as <- _.
    cbn [no_space] in Hs'. discriminate Hs'.
  - exfalso. rewrite append_nil_l, append_cons in H. injection H as -> _.
    cbn [no_space] in Hs. discriminate Hs.
  - rewrite !append_cons in H. injection H as -> H.
    cbn [no_space] in Hs, Hs'. apply andb_prop in Hs, Hs'.
    destruct (IH s' t t' (proj2 Hs) (proj2 Hs') H) as [-> ->].
    split; reflexivity.
Qed.

(** *** The digits of [pretty] *)

Lemma pretty_N_char_no_space x :
  negb (Ascii.eqb (pretty_N_char x) " ") = true.
Proof.
  destruct x as [|p]; [reflexivity|].
  destruct p as [[[[p|p|]|[p|p|]|]|[[p|p|]|[p|p|]|]|]
                |[[[p|p|]|[p|p|]|]|[[p|p|]|[p|p|]|]|]|]; reflexivity.
Qed.

Lemma pretty_N_go_append x : forall s t,
  pretty_N_go x s +:+ t = pretty_N_go x (s +:+ t).
Proof.
  induction (N.lt_wf_0 x) as [x _ IH]. intros s t.
  destruct (decide (x = 0%N)) as [->|Hx].
  - rewrite !pretty_N_go_0. reflexivity.
  - rewrite (pretty_N_go_step x s), (pretty_N_go_step x (s +:+ t)) by lia.
    rewrite IH by (apply N.div_lt; lia). rewrite append_cons. reflexivity.
Qed.

Lemma pretty_N_go_no_space x : forall s,
  no_space s = true -> no_space (pretty_N_go x s) = true.
Proof.
  induction (N.lt_wf_0 x) as [x _ IH]. intros s Hs.
  destruct (decide (x = 0%N)) as [->|Hx].
  - rewrite pretty_N_go_0. exact Hs.
  - rewrite pretty_N_go_step by lia. apply IH; [apply N.div_lt; lia|].
    cbn [no_space]. rewrite pretty_N_char_no_space, Hs. reflexivity.
Qed.

Lemma pretty_N_no_space (x : N) : no_space (pretty x) = true.
Proof.
  unfold pretty, pretty_N. destruct (decide (x = 0%N)); [reflexivity|].
  apply pretty_N_go_no_space. reflexivity.
Qed.

(** A number does not begin with a minus sign. *)
Lemma pretty_N_append_ne_dash (x : N) t s' :
  t <> "-" +:+ s' -> pretty x +:+ t <> "-" +:+ s'.
Proof.
  intros Ht. unfold pretty, pretty_N. destruct (decide (x = 0%N)).
  - rewrite append_cons. intros H. discriminate H.
  - rewrite pretty_N_go_append, append_nil_l.
    apply pretty_N_go_ne_dash, Ht.
Qed.

(** *** The six decimals *)

Lemma digit_char_cases d :
  exists k, 0 <= k < 10 /\ d mod 10 = k /\
            digit_char d = Ascii.ascii_of_N (Z.to_N (48 + k)).
Proof.
  exists (d mod 10). split; [apply Z.mod_pos_bound; lia|].
  split; reflexivity.
Qed.

Lemma digit_char_no_space d : negb (Ascii.eqb (digit_char d) " ") = true.
Proof.
  destruct (digit_char_cases d) as (k & Hk & _ & ->).
  assert (H : k = 0 \/ k = 1 \/ k = 2 \/ k = 3 \/ k = 4 \/ k = 5 \/ k = 6
              \/ k = 7 \/ k = 8 \/ k = 9) by lia.
  repeat (destruct H as [-> | H]; [reflexivity|]). subst k. reflexivity.
Qed.

Lemma digit_char_inj d d' :
  digit_char d = digit_char d' -> d mod 10 = d' mod 10.
Proof.
  unfold digit_char. intros H.
  pose proof (Z.mod_pos_bound d 10 ltac:(lia)) as Hd.
  pose proof (Z.mod_pos_bound d' 10 ltac:(lia)) as Hd'.
  apply (f_equal Ascii.N_of_ascii) in H.
  rewrite !Ascii.N_ascii_embedding in H by lia. lia.
Qed.

Lemma six_digits_length n : String.length (six_digits n) = 6%nat.
Proof. reflexivity. Qed.

Lemma six_digits_no_space n : no_space (six_digits n) = true.
Proof.
  unfold six_digits. cbn [no_space]. rewrite !digit_char_no_space.
  reflexivity.
Qed.

Lemma six_digits_inj n n' :
  0 <= n < 1000000 -> 0 <= n' < 1000000 ->
  six_digits n = six_digits n' -> n = n'.
Proof.
  intros Hn Hn' H. unfold six_digits in H.
  injection H as H5 H4 H3 H2 H1 H0.
  apply digit_char_inj in H0, H1, H2, H3, H4, H5.
  assert (Hdigits : forall m, 0 <= m < 1000000 ->
            m = (m / 100000) mod 10 * 100000 + (m / 10000) mod 10 * 10000
                + (m / 1000) mod 10 * 1000 + (m / 100) mod 10 * 100
                + (m / 10) mod 10 * 10 + m mod 10).
  { intros m Hm. Z.div_mod_to_equations. lia. }
  rewrite (Hdigits n Hn), (Hdigits n' Hn'). congruence.
Qed.

(** *** The key *)

Lemma divide_nearest_nonneg a b : 0 <= a -> 0 < b -> 0 <= divide_nearest a b.
Proof.
  intros Ha Hb. unfold divide_nearest.
  assert (0 <= a / b) by (apply Z.div_pos; lia).
  destruct (_ || _); lia.
Qed.

Lemma millionths_nonneg x : 0 <= millionths x.
Proof.
  destruct x as [s | s | | s m e]; cbn [millionths]; try lia.
  destruct (Z.leb_spec 0 e).
  - assert (0 < 2 ^ e) by (apply Z.pow_pos_nonneg; lia). lia.
  - apply divide_nearest_nonneg; [lia|]. apply Z.pow_pos_nonneg; lia.
Qed.

(** What ['%.6f'] prints for a finite float: the sign, the whole part
    of the millionths and their six decimals. *)
Lemma format_6f_finite x :
  F64.is_finite x = true ->
  format_6f x =
    (if sign_bit x then "-" else "")
      +:+ pretty (Z.to_N (millionths x / 1000000))
      +:+ "." +:+ six_digits (millionths x mod 1000000).
Proof.
  destruct x as [s | s | | s m e]; try discriminate; intros _.
  - destruct s; reflexivity.
  - reflexivity.
Qed.

Lemma format_6f_no_space x : no_space (format_6f x) = true.
Proof.
  destruct x as [s | s | | s m e]; try (destruct s; reflexivity);
    try reflexivity.
  rewrite (format_6f_finite (S754_finite s m e) eq_refl).
  rewrite !no_space_append, pretty_N_no_space, six_digits_no_space.
  destruct (sign_bit _); reflexivity.
Qed.

Lemma format_6f_inj x y :
  F64.is_finite x = true -> F64.is_finite y = true ->
  format_6f x = format_6f y ->
  sign_bit x = sign_bit y /\ millionths x = millionths y.
Proof.
  intros Hx Hy. rewrite (format_6f_finite x Hx), (format_6f_finite y Hy).
  pose proof (millionths_nonneg x) as Hnx.
  pose proof (millionths_nonneg y) as Hny.
  set (nx := millionths x) in *. set (ny := millionths y) in *.
  assert (Hsame :
            pretty (Z.to_N (nx / 1000000)) +:+ "." +:+ six_digits (nx mod 1000000)
            = pretty (Z.to_N (ny / 1000000)) +:+ "."
                +:+ six_digits (ny mod 1000000) ->
            nx = ny).
  { intros H. apply append_inj_length in H; [|reflexivity].
    destruct H as [Hq Hd]. apply (inj pretty) in Hq.
    apply Z2N.inj in Hq; [| apply Z.div_pos; lia..].
    apply (String.app_inj ".") in Hd.
    apply six_digits_inj in Hd; [| apply Z.mod_pos_bound; lia..].
    rewrite (Z.div_mod nx 1000000), (Z.div_mod ny 1000000) by lia.
    congruence. }
  destruct (sign_bit x), (sign_bit y); intros H.
  - rewrite !append_cons, !append_nil_l in H. injection H as H.
    split; [reflexivity | exact (Hsame H)].
  - exfalso. rewrite (append_nil_l (pretty _ +:+ _)) in H. symmetry in H.
    revert H. apply pretty_N_append_ne_dash.
    rewrite !append_cons. intros H. discriminate H.
  - exfalso. rewrite (append_nil_l (pretty _ +:+ _)) in H.
    revert H. apply pretty_N_append_ne_dash.
    rewrite !append_cons. intros H. discriminate H.
  - rewrite !append_nil_l in H. split; [reflexivity | exact (Hsame H)].
Qed.

(** X17.  The key of the cache is unambiguous.  Two pairs of
    coordinates have the same key exactly when their latitudes print the
    same and their longitudes print the same; and two finite floats
    print the same with ['%.6f'] exactly when they have the same sign
    and the same number of millionths after rounding.  So two places
    share an entry of the cache only if they agree to the sixth decimal
    in both coordinates. *)
Theorem same_key_same_millionths :
  (forall lat lon lat' lon',
     format_key lat lon = format_key lat' lon' <->
     format_6f lat = format_6f lat' /\ format_6f lon = format_6f lon') /\
  (forall x y,
     F64.is_finite x = true -> F64.is_finite y = true ->
     format_6f x = format_6f y <->
     sign_bit x = sign_bit y /\ millionths x = millionths y).
Proof.
  split.
  - intros lat lon lat' lon'. unfold format_key. split.
    + intros H. rewrite !(append_cons " " ""), !append_nil_l in H.
      exact (append_space_inj _ _ _ _ (format_6f_no_space lat)
               (format_6f_no_space lat') H).
    + intros [-> ->]. reflexivity.
  - intros x y Hx Hy. split; [apply format_6f_inj; assumption|].
    intros [Hs Hm]. rewrite (format_6f_finite x Hx), (format_6f_finite y Hy).
    rewrite Hs, Hm. reflexivity.
Qed.

(** ** Interpolation between two floats *)

Section Interpolation.
Local Open Scope R_scope.

(** Addition of finite floats rounds the exact sum. *)
Lemma SFadd_to a b :
  F64.is_finite a = true -> F64.is_finite b = true ->
  valid_binary a = true -> valid_binary b = true ->
  round_to (val a + val b) (a + b)%f64.
Proof.
  destruct a as [sa | sa | | sa ma ea]; try discriminate;
    destruct b as [sb | sb | | sb mb eb]; try discriminate;
    intros _ _ Ha Hb; unfold F64.add, SF64add, SFadd.
  - cbn [val]. rewrite Rplus_0_r.
    destruct sa, sb; apply round_to_zero.
  - change (val (S754_zero sa)) with 0. rewrite Rplus_0_l.
    apply round_to_val; [reflexivity|exact Hb].
  - change (val (S754_zero sb)) with 0. rewrite Rplus_0_r.
    apply round_to_val; [reflexivity|exact Ha].
  - cbv zeta.
    rewrite <- (aligned_value sa ma ea (Z.min ea eb)) by lia.
    rewrite <- (aligned_value sb mb eb (Z.min ea eb)) by lia.
    rewrite <- Rmult_plus_distr_r, <- plus_IZR.
    apply binary_normalize_to.
Qed.

(** A result whose exact value lies between a float and the exact value
    of a finite result is finite, and lies between the two. *)
Lemma round_to_squeeze x f lo y g :
  round_to x f -> round_to y g ->
  valid_binary lo = true -> F64.is_finite g = true ->
  val lo <= x <= y ->
  F64.is_finite f = true /\ valid_binary f = true /\
  val lo <= val f <= val g.
Proof.
  intros (v & Hr & Hcase) Hg Hlo Hfg [Hl Hu].
  destruct (round_to_finite _ _ Hg Hfg) as [Hvg Hrg].
  pose proof (rounds_mono _ _ _ _ Hl (rounds_val lo Hlo) Hr) as Hvl.
  pose proof (rounds_mono _ _ _ _ Hu Hr Hrg) as Hvu.
  pose proof (valid_val_bound lo Hlo) as Blo.
  pose proof (valid_val_bound g Hvg) as Bg.
  assert (Hv : Rabs v < bpow emax).
  { apply Rabs_def1; [|apply Rabs_def2 in Blo; lra].
    apply Rabs_def2 in Bg. lra. }
  destruct Hcase as [(_ & Hf & Hval & <-) | (Hbig & _)]; [|lra].
  repeat split; assumption.
Qed.

Lemma round_to_squeeze_down x f hi y g :
  round_to x f -> round_to y g ->
  valid_binary hi = true -> F64.is_finite g = true ->
  y <= x <= val hi ->
  F64.is_finite f = true /\ valid_binary f = true /\
  val g <= val f <= val hi.
Proof.
  intros (v & Hr & Hcase) Hg Hhi Hfg [Hl Hu].
  destruct (round_to_finite _ _ Hg Hfg) as [Hvg Hrg].
  pose proof (rounds_mono _ _ _ _ Hu Hr (rounds_val hi Hhi)) as Hvu.
  pose proof (rounds_mono _ _ _ _ Hl Hrg Hr) as Hvl.
  pose proof (valid_val_bound hi Hhi) as Bhi.
  pose proof (valid_val_bound g Hvg) as Bg.
  assert (Hv : Rabs v < bpow emax).
  { apply Rabs_def1; [apply Rabs_def2 in Bhi; lra|].
    apply Rabs_def2 in Bg. lra. }
  destruct Hcase as [(_ & Hf & Hval & <-) | (Hbig & _)]; [|lra].
  repeat split; assumption.
Qed.


Lemma add_finite_inv a x :
  F64.is_finite (a + x)%f64 = true -> F64.is_finite x = true.
Proof.
  destruct a as [sa | sa | | sa ma ea], x as [sx | sx | | sx mx ex];
    try reflexivity; try discriminate; destruct sa, sx; discriminate.
Qed.

Lemma mul_one_finite_inv x :
  F64.is_finite (x * F64.one)%f64 = true -> F64.is_finite x = true.
Proof. destruct x as [s | s | | s m e]; try reflexivity; discriminate. Qed.

Lemma sub_finite_inv b a :
  F64.is_finite (b - a)%f64 = true ->
  F64.is_finite a = true /\ F64.is_finite b = true.
Proof.
  destruct a as [sa | sa | | sa ma ea], b as [sb | sb | | sb mb eb];
    try (split; reflexivity); try discriminate; destruct sa, sb; discriminate.
Qed.

(** The parts of an interpolation whose far end does not overflow. *)
Lemma interpolate_parts a b :
  valid_binary a = true -> valid_binary b = true ->
  F64.is_finite (interpolate a b F64.one) = true ->
  let d := (b - a)%f64 in
  F64.is_finite a = true /\ F64.is_finite d = true /\
  valid_binary d = true /\ rounds (val b - val a) (val d) /\
  interpolate a b F64.one = (a + d)%f64 /\
  round_to (val a + val d) (a + d)%f64.
Proof.
  intros Ha Hb Hone d. unfold interpolate in Hone. fold d in Hone.
  pose proof (mul_one_finite_inv _ (add_finite_inv _ _ Hone)) as Hfd.
  destruct (sub_finite_inv _ _ Hfd) as [Hfa Hfb].
  pose proof (SFsub_to b a Hfb Hfa Hb Ha) as Hsub.
  change (SF64sub b a) with d in Hsub.
  destruct (round_to_finite _ _ Hsub Hfd) as [Hvd Hrd].
  split; [exact Hfa|]. split; [exact Hfd|]. split; [exact Hvd|].
  split; [exact Hrd|]. unfold interpolate. fold d.
  rewrite (mul_one_r d Hvd). split; [reflexivity|].
  apply SFadd_to; assumption.
Qed.

Lemma rounds_0 : rounds 0 0.
Proof. left. split; reflexivity. Qed.

(** X18.  Between two floats [a] and [b], for a fraction that goes
    from 0 to 1, [interpolate] goes from [a] towards [b] and never back:
    when [interpolate a b 1.0] does not overflow, the interpolated value
    at a fraction [f] is finite, it lies between [a] and
    [interpolate a b 1.0], and it is no nearer to [a] than the value at
    a smaller fraction. *)
Theorem interpolate_goes_one_way a b f f' :
  valid_binary a = true -> valid_binary b = true ->
  valid_binary f = true -> valid_binary f' = true ->
  F64.is_finite f = true -> F64.is_finite f' = true ->
  0 <= val f <= val f' -> val f' <= 1 ->
  F64.is_finite (interpolate a b F64.one) = true ->
  F64.is_finite (interpolate a b f) = true /\
  F64.is_finite (interpolate a b f') = true /\
  (val a <= val b ->
   val a <= val (interpolate a b f) <= val (interpolate a b f') /\
   val (interpolate a b f') <= val (interpolate a b F64.one)) /\
  (val b <= val a ->
   val (interpolate a b F64.one) <= val (interpolate a b f') /\
   val (interpolate a b f') <= val (interpolate a b f) <= val a).
Proof.
  intros Ha Hb Hf Hf' Hff Hff' [H0 Hle] H1 Hone.
  destruct (interpolate_parts a b Ha Hb Hone)
    as (Hfa & Hfd & Hvd & Hrd & Heq & Hsum).
  rewrite Heq in *. unfold interpolate.
  set (d := (b - a)%f64) in *.
  pose proof (SFmul_to d f Hfd Hff Hvd Hf) as Hp.
  pose proof (SFmul_to d f' Hfd Hff' Hvd Hf') as Hp'.
  change (SF64mul d f) with (d * f)%f64 in Hp.
  change (SF64mul d f') with (d * f')%f64 in Hp'.
  destruct (Rle_or_lt 0 (val d)) as [Hd|Hd].
  - (* towards a larger value *)
    destruct (round_to_between _ _ (S754_zero false) d Hp
                eq_refl eq_refl Hfd Hvd) as (Hfp & Hvp & Hrp & Hbp).
    { change (val (S754_zero false)) with 0. split; [nra|].
      assert (val d * val f <= val d * 1) by (apply Rmult_le_compat_l; lra).
      lra. }
    destruct (round_to_between _ _ (S754_zero false) d Hp'
                eq_refl eq_refl Hfd Hvd) as (Hfp' & Hvp' & Hrp' & Hbp').
    { change (val (S754_zero false)) with 0. split; [nra|].
      assert (val d * val f' <= val d * 1) by (apply Rmult_le_compat_l; lra).
      lra. }
    change (val (S754_zero false)) with 0 in Hbp, Hbp'.
    assert (Hpp : val (d * f)%f64 <= val (d * f')%f64).
    { apply (rounds_mono (val d * val f) (val d * val f')); try assumption.
      apply Rmult_le_compat_l; lra. }
    destruct (round_to_squeeze _ _ a _ _
                (SFadd_to a _ Hfa Hfp Ha Hvp) Hsum Ha Hone)
      as (Hfr & Hvr & Hbr); [lra|].
    destruct (round_to_squeeze _ _ a _ _
                (SFadd_to a _ Hfa Hfp' Ha Hvp') Hsum Ha Hone)
      as (Hfr' & Hvr' & Hbr'); [lra|].
    split; [exact Hfr|]. split; [exact Hfr'|]. split.
    + intros _. split; [|lra]. split; [lra|].
      destruct (round_to_finite _ _ (SFadd_to a _ Hfa Hfp Ha Hvp) Hfr)
        as [_ Hr].
      destruct (round_to_finite _ _ (SFadd_to a _ Hfa Hfp' Ha Hvp') Hfr')
        as [_ Hr'].
      apply (rounds_mono _ _ _ _) with (2 := Hr) (3 := Hr'). lra.
    + intros Hba.
      assert (Hd0 : val d = 0).
      { assert (Hneg : val b - val a <= 0) by lra.
        pose proof (rounds_mono _ _ _ _ Hneg Hrd rounds_0). lra. }
      assert (Hz : val (d * f)%f64 = 0 /\ val (d * f')%f64 = 0) by lra.
      destruct Hz as [Hz Hz'].
      destruct (round_to_finite _ _ (SFadd_to a _ Hfa Hfp Ha Hvp) Hfr)
        as [_ Hr].
      destruct (round_to_finite _ _ (SFadd_to a _ Hfa Hfp' Ha Hvp') Hfr')
        as [_ Hr'].
      destruct (round_to_finite _ _ Hsum Hone) as [_ Hr1].
      rewrite Hz, Rplus_0_r in Hr. rewrite Hz', Rplus_0_r in Hr'.
      rewrite Hd0, Rplus_0_r in Hr1.
      pose proof (rounds_unique _ _ _ Hr (rounds_val a Ha)).
      pose proof (rounds_unique _ _ _ Hr' (rounds_val a Ha)).
      pose proof (rounds_unique _ _ _ Hr1 (rounds_val a Ha)).
      lra.
  - (* towards a smaller value *)
    destruct (round_to_between _ _ d (S754_zero false) Hp
                Hfd Hvd eq_refl eq_refl) as (Hfp & Hvp & Hrp & Hbp).
    { change (val (S754_zero false)) with 0. split; [|nra].
      nra. }
    destruct (round_to_between _ _ d (S754_zero false) Hp'
                Hfd Hvd eq_refl eq_refl) as (Hfp' & Hvp' & Hrp' & Hbp').
    { change (val (S754_zero false)) with 0. split; [|nra].
      nra. }
    change (val (S754_zero false)) with 0 in Hbp, Hbp'.
    assert (Hpp : val (d * f')%f64 <= val (d * f)%f64).
    { apply (rounds_mono (val d * val f') (val d * val f)); try assumption.
      nra. }
    destruct (round_to_squeeze_down _ _ a _ _
                (SFadd_to a _ Hfa Hfp Ha Hvp) Hsum Ha Hone)
      as (Hfr & Hvr & Hbr); [lra|].
    destruct (round_to_squeeze_down _ _ a _ _
                (SFadd_to a _ Hfa Hfp' Ha Hvp') Hsum Ha Hone)
      as (Hfr' & Hvr' & Hbr'); [lra|].
    split; [exact Hfr|]. split; [exact Hfr'|]. split.
    + intros Hab. exfalso.
      assert (Hpos : 0 <= val b - val a) by lra.
      pose proof (rounds_mono _ _ _ _ Hpos rounds_0 Hrd). lra.
    + intros _. split; [lra|]. split; [|lra].
      destruct (round_to_finite _ _ (SFadd_to a _ Hfa Hfp Ha Hvp) Hfr)
        as [_ Hr].
      destruct (round_to_finite _ _ (SFadd_to a _ Hfa Hfp' Ha Hvp') Hfr')
        as [_ Hr'].
      apply (rounds_mono _ _ _ _) with (2 := Hr') (3 := Hr). lra.
Qed.

End Interpolation.


Lemma val_one_half : (val one_half = / 2)%R.
Proof.
  cbn [val one_half cond_Zopp]. change 4503599627370496%Z with (2 ^ 52)%Z.
  rewrite <- bpow_IZR, <- bpow_add by lia.
  change (52 + -53)%Z with (- (1))%Z. rewrite bpow_opp, bpow_1. reflexivity.
Qed.

Lemma interpolate_goes_one_way_witness :
  let a := Prim2SF 12.3 in
  let b := Prim2SF 0.4 in
  (val (interpolate a b F64.one) <= val (interpolate a b one_half))%R /\
  (val (interpolate a b one_half) <= val a)%R.
Proof.
  intros a b.
  destruct (interpolate_goes_one_way a b one_half F64.one)
    as (_ & _ & _ & H); try reflexivity.
  - rewrite val_one_half, val_one. lra.
  - rewrite val_one. lra.
  - assert (Hba : (val b <= val a)%R).
    { apply Rlt_le, ltb_val; reflexivity. }
    destruct (H Hba) as [H1 [H2 H3]]. split; lra.
Defined.
